(** * YouTube KOL search: the database bootstrap script and its schema

    A shallow embedding of [scripts/init_database.py].  The script is a
    sequence of SQL statements sent through a MySQL connection, so the
    development has three layers:

    - the statements of the script, transcribed as data ([tables],
      [constraints], the seed row, the migration ledger);
    - the functions of the script ([create_database], [create_tables],
      [add_foreign_keys], [seed_initial_data],
      [create_schema_version_table], [main]) written over an abstract
      [cursor.execute], with Python's exceptions and the logger made
      explicit;
    - a model of the storage engine for the statements the script and
      its clients use (unique keys, foreign-key actions, the three
      flavours of INSERT), which instantiates [cursor.execute].

    The components the specification describes on top of the schema
    (credential pool, channel registry, orchestrator, analysis
    coordinator) have no code in the repository; they are modelled from
    the specification and marked as such. *)

From stdpp Require Import base list strings gmap pretty.

Open Scope string_scope.

(** ** SQL values, columns and keys *)

(** A cell of a row.  Timestamps, dates and booleans are integers, JSON
    documents and enum members are strings; the numeric value of a FLOAT
    cell is never inspected and is kept as an integer literal. *)
Inductive value :=
  | VNull
  | VInt (z : Z)
  | VStr (s : string).

#[global] Instance value_eq_dec : EqDecision value.
Proof. solve_decision. Defined.

Inductive sql_type :=
  | INT
  | BIGINT
  | FLOAT
  | BOOLEAN
  | VARCHAR (n : nat)
  | TEXT
  | JSON
  | TIMESTAMP
  | DATE
  | ENUM (members : list string).

Inductive col_attr :=
  | PRIMARY_KEY
  | AUTO_INCREMENT
  | UNIQUE
  | NOT_NULL
  | NULLABLE
  | DEFAULT (v : value)
  | DEFAULT_CURRENT_TIMESTAMP
  | ON_UPDATE_CURRENT_TIMESTAMP
  | COMMENT (text : string).

#[global] Instance col_attr_eq_dec : EqDecision col_attr.
Proof. solve_decision. Defined.

Record column := Column {
  col_name : string;
  col_type : sql_type;
  col_attrs : list col_attr
}.

#[global] Instance sql_type_eq_dec : EqDecision sql_type.
Proof. solve_decision. Defined.

#[global] Instance column_eq_dec : EqDecision column.
Proof. solve_decision. Defined.

(** One part of an index: a column, ascending or descending, or a
    prefix of a string column ([api_key(255)]). *)
Inductive key_part :=
  | Asc (c : string)
  | Desc (c : string)
  | Prefix (c : string) (n : nat).

Inductive table_key :=
  | INDEX (name : string) (parts : list key_part)
  | FULLTEXT_INDEX (name : string) (parts : list key_part)
  | UNIQUE_KEY (name : string) (parts : list key_part).

Record table_def := TableDef {
  tbl_name : string;
  tbl_columns : list column;
  tbl_keys : list table_key
}.

#[global] Instance key_part_eq_dec : EqDecision key_part.
Proof. solve_decision. Defined.

#[global] Instance table_key_eq_dec : EqDecision table_key.
Proof. solve_decision. Defined.

#[global] Instance table_def_eq_dec : EqDecision table_def.
Proof. solve_decision. Defined.

Inductive fk_action :=
  | ON_DELETE_SET_NULL
  | ON_DELETE_CASCADE
  | ON_DELETE_RESTRICT.

Record foreign_key := ForeignKey {
  fk_table : string;
  fk_name : string;
  fk_column : string;
  fk_ref_table : string;
  fk_ref_column : string;
  fk_on_delete : fk_action
}.

#[global] Instance fk_action_eq_dec : EqDecision fk_action.
Proof. solve_decision. Defined.

#[global] Instance foreign_key_eq_dec : EqDecision foreign_key.
Proof. solve_decision. Defined.

(** ** Statements *)

Inductive expr :=
  | Lit (v : value)
  | CURRENT_TIMESTAMP
  | Col (c : string)
  | GREATEST (e1 e2 : expr)
  | PLUS (e1 e2 : expr).

Inductive insert_mode :=
  | PLAIN
  | IGNORE
  | ON_DUPLICATE_KEY_UPDATE (sets : list (string * expr)).

Inductive stmt :=
  | CREATE_DATABASE_IF_NOT_EXISTS (name : string)
  | USE (name : string)
  | CREATE_TABLE_IF_NOT_EXISTS (def : table_def)
  | ALTER_TABLE_ADD_CONSTRAINT (fk : foreign_key)
  | INSERT_INTO (mode : insert_mode) (tbl : string) (cols : list string)
                (tuples : list (list expr))
  | UPDATE_SET (tbl : string) (sets : list (string * expr))
               (where_col : string) (where_val : value)
  | DELETE_FROM (tbl : string) (where_col : string) (where_val : value).

(** ** The statements of [init_database.py] *)

(** [create_tables], the dictionary [tables], in insertion order. *)

Definition search_tasks : table_def :=
  TableDef "search_tasks"
    [ Column "id" INT [PRIMARY_KEY; AUTO_INCREMENT];
      Column "task_id" (VARCHAR 64) [UNIQUE; NOT_NULL; COMMENT "UUID for task tracking"];
      Column "keyword" (VARCHAR 255) [NOT_NULL; COMMENT "Search keyword"];
      Column "product_info" TEXT [COMMENT "Product information snapshot"];
      Column "status" (ENUM ["pending"; "running"; "completed"; "failed"; "paused"])
             [DEFAULT (VStr "pending")];
      Column "total_channels" INT [DEFAULT (VInt 0)];
      Column "processed_channels" INT [DEFAULT (VInt 0)];
      Column "is_incremental" BOOLEAN [DEFAULT (VInt 0)];
      Column "parent_task_id" (VARCHAR 64) [];
      Column "new_channels_count" INT [DEFAULT (VInt 0)];
      Column "accelerated_mode" BOOLEAN [DEFAULT (VInt 0)];
      Column "error_message" TEXT [];
      Column "created_at" TIMESTAMP [DEFAULT_CURRENT_TIMESTAMP];
      Column "started_at" TIMESTAMP [NULLABLE];
      Column "completed_at" TIMESTAMP [NULLABLE] ]
    [ INDEX "idx_keyword" [Asc "keyword"];
      INDEX "idx_status" [Asc "status"];
      INDEX "idx_created" [Desc "created_at"];
      INDEX "idx_parent" [Asc "parent_task_id"] ].

Definition channels : table_def :=
  TableDef "channels"
    [ Column "id" INT [PRIMARY_KEY; AUTO_INCREMENT];
      Column "channel_id" (VARCHAR 64) [UNIQUE; NOT_NULL];
      Column "channel_title" (VARCHAR 255) [NOT_NULL];
      Column "channel_url" (VARCHAR 512) [NOT_NULL];
      Column "subscriber_count" BIGINT [DEFAULT (VInt 0)];
      Column "description" TEXT [];
      Column "detected_language" (VARCHAR 10) [];
      Column "language_confidence" FLOAT [];
      Column "custom_url" (VARCHAR 255) [];
      Column "thumbnail_url" (VARCHAR 512) [];
      Column "first_discovered_at" TIMESTAMP [NOT_NULL];
      Column "last_seen_at" TIMESTAMP [NOT_NULL];
      Column "status" (ENUM ["active"; "disappeared"; "deleted"; "private"])
             [DEFAULT (VStr "active")];
      Column "created_at" TIMESTAMP [DEFAULT_CURRENT_TIMESTAMP];
      Column "updated_at" TIMESTAMP [DEFAULT_CURRENT_TIMESTAMP; ON_UPDATE_CURRENT_TIMESTAMP] ]
    [ INDEX "idx_channel_id" [Asc "channel_id"];
      INDEX "idx_language" [Asc "detected_language"];
      INDEX "idx_subscribers" [Desc "subscriber_count"];
      INDEX "idx_status" [Asc "status"];
      INDEX "idx_last_seen" [Desc "last_seen_at"];
      FULLTEXT_INDEX "ft_title_desc" [Asc "channel_title"; Asc "description"] ].

Definition channel_video_stats : table_def :=
  TableDef "channel_video_stats"
    [ Column "id" INT [PRIMARY_KEY; AUTO_INCREMENT];
      Column "channel_id" (VARCHAR 64) [NOT_NULL];
      Column "task_id" (VARCHAR 64) [NOT_NULL];
      Column "avg_view_count" BIGINT [DEFAULT (VInt 0)];
      Column "avg_like_count" INT [DEFAULT (VInt 0)];
      Column "avg_comment_count" INT [DEFAULT (VInt 0)];
      Column "avg_engagement_rate" FLOAT [DEFAULT (VInt 0)];
      Column "has_outliers" BOOLEAN [DEFAULT (VInt 0)];
      Column "outlier_videos" JSON [];
      Column "recent_videos" JSON [NOT_NULL];
      Column "video_languages" JSON [];
      Column "created_at" TIMESTAMP [DEFAULT_CURRENT_TIMESTAMP] ]
    [ INDEX "idx_channel_task" [Asc "channel_id"; Asc "task_id"];
      INDEX "idx_engagement" [Desc "avg_engagement_rate"];
      INDEX "idx_views" [Desc "avg_view_count"] ].

Definition ai_analysis : table_def :=
  TableDef "ai_analysis"
    [ Column "id" INT [PRIMARY_KEY; AUTO_INCREMENT];
      Column "channel_id" (VARCHAR 64) [NOT_NULL];
      Column "task_id" (VARCHAR 64) [NOT_NULL];
      Column "relevance_score" INT [];
      Column "audience_match" TEXT [];
      Column "content_alignment" TEXT [];
      Column "recommendation" TEXT [];
      Column "key_strengths" JSON [];
      Column "concerns" JSON [];
      Column "analysis_detail" JSON [NOT_NULL];
      Column "ai_provider" (VARCHAR 20) [];
      Column "analysis_status" (ENUM ["pending"; "processing"; "completed"; "failed"])
             [DEFAULT (VStr "pending")];
      Column "error_message" TEXT [];
      Column "analyzed_at" TIMESTAMP [NULLABLE];
      Column "created_at" TIMESTAMP [DEFAULT_CURRENT_TIMESTAMP] ]
    [ INDEX "idx_channel_task" [Asc "channel_id"; Asc "task_id"];
      INDEX "idx_score" [Desc "relevance_score"];
      INDEX "idx_status" [Asc "analysis_status"];
      INDEX "idx_provider" [Asc "ai_provider"];
      UNIQUE_KEY "uk_channel_task" [Asc "channel_id"; Asc "task_id"] ].

Definition api_keys : table_def :=
  TableDef "api_keys"
    [ Column "id" INT [PRIMARY_KEY; AUTO_INCREMENT];
      Column "api_key" (VARCHAR 512) [NOT_NULL];
      Column "api_type" (ENUM ["youtube"; "deepseek"; "zhipu"]) [NOT_NULL];
      Column "display_name" (VARCHAR 100) [];
      Column "daily_quota" INT [DEFAULT (VInt 10000)];
      Column "used_quota" INT [DEFAULT (VInt 0)];
      Column "last_reset_date" DATE [];
      Column "is_active" BOOLEAN [DEFAULT (VInt 1)];
      Column "priority" INT [DEFAULT (VInt 0)];
      Column "notes" TEXT [];
      Column "created_at" TIMESTAMP [DEFAULT_CURRENT_TIMESTAMP];
      Column "updated_at" TIMESTAMP [DEFAULT_CURRENT_TIMESTAMP; ON_UPDATE_CURRENT_TIMESTAMP] ]
    [ INDEX "idx_type_active" [Asc "api_type"; Asc "is_active"];
      INDEX "idx_quota" [Asc "used_quota"; Asc "daily_quota"];
      INDEX "idx_priority" [Desc "priority"];
      UNIQUE_KEY "uk_api_key" [Prefix "api_key" 255] ].

Definition product_config : table_def :=
  TableDef "product_config"
    [ Column "id" INT [PRIMARY_KEY; AUTO_INCREMENT];
      Column "product_name" (VARCHAR 255) [NOT_NULL];
      Column "product_url" (VARCHAR 512) [];
      Column "product_description" TEXT [];
      Column "core_features" JSON [];
      Column "target_audience" TEXT [];
      Column "keywords" JSON [];
      Column "auto_scraped_content" TEXT [];
      Column "last_scraped_at" TIMESTAMP [NULLABLE];
      Column "is_active" BOOLEAN [DEFAULT (VInt 1)];
      Column "created_at" TIMESTAMP [DEFAULT_CURRENT_TIMESTAMP];
      Column "updated_at" TIMESTAMP [DEFAULT_CURRENT_TIMESTAMP; ON_UPDATE_CURRENT_TIMESTAMP] ]
    [ INDEX "idx_active" [Asc "is_active"];
      FULLTEXT_INDEX "ft_description" [Asc "product_description"; Asc "auto_scraped_content"] ].

Definition tables : list (string * stmt) :=
  [ ("search_tasks", CREATE_TABLE_IF_NOT_EXISTS search_tasks);
    ("channels", CREATE_TABLE_IF_NOT_EXISTS channels);
    ("channel_video_stats", CREATE_TABLE_IF_NOT_EXISTS channel_video_stats);
    ("ai_analysis", CREATE_TABLE_IF_NOT_EXISTS ai_analysis);
    ("api_keys", CREATE_TABLE_IF_NOT_EXISTS api_keys);
    ("product_config", CREATE_TABLE_IF_NOT_EXISTS product_config) ].

(** [add_foreign_keys], the list [constraints]. *)

Definition fk_parent_task : foreign_key :=
  ForeignKey "search_tasks" "fk_parent_task"
    "parent_task_id" "search_tasks" "task_id" ON_DELETE_SET_NULL.

Definition fk_stats_channel : foreign_key :=
  ForeignKey "channel_video_stats" "fk_stats_channel"
    "channel_id" "channels" "channel_id" ON_DELETE_CASCADE.

Definition fk_stats_task : foreign_key :=
  ForeignKey "channel_video_stats" "fk_stats_task"
    "task_id" "search_tasks" "task_id" ON_DELETE_CASCADE.

Definition fk_analysis_channel : foreign_key :=
  ForeignKey "ai_analysis" "fk_analysis_channel"
    "channel_id" "channels" "channel_id" ON_DELETE_CASCADE.

Definition fk_analysis_task : foreign_key :=
  ForeignKey "ai_analysis" "fk_analysis_task"
    "task_id" "search_tasks" "task_id" ON_DELETE_CASCADE.

Definition foreign_keys : list foreign_key :=
  [ fk_parent_task; fk_stats_channel; fk_stats_task;
    fk_analysis_channel; fk_analysis_task ].

Definition constraints : list stmt :=
  map ALTER_TABLE_ADD_CONSTRAINT foreign_keys.

(** [seed_initial_data], the default product configuration.  The two
    JSON arrays are text, every item between double quotes and the items
    separated by a comma and a space. *)

Definition double_quote : string :=
  String (Ascii.Ascii false true false false false true false false) "".

Definition json_array (items : list string) : string :=
  "[" ++ String.concat ", " (map (fun item => double_quote ++ item ++ double_quote) items)
  ++ "]".

Definition core_features : string :=
  json_array [ "Disk cleanup"; "Duplicate file removal"; "Application uninstaller";
               "Cache clearing"; "Privacy protection" ].

Definition keywords : string :=
  json_array [ "PC cleanup"; "Windows optimizer"; "disk cleaner"; "system speedup";
               "junk file removal" ].

Definition seed_product_config : stmt :=
  INSERT_INTO
    (ON_DUPLICATE_KEY_UPDATE [("updated_at", CURRENT_TIMESTAMP)])
    "product_config"
    [ "product_name"; "product_url"; "product_description"; "core_features";
      "target_audience"; "keywords"; "is_active" ]
    [ [ Lit (VStr "WMaster Cleanup");
        Lit (VStr "https://www.wmastercleanup.com/");
        Lit (VStr "All-in-One Windows Cleaner & Optimizer for cleaning junk files, freeing disk space, and improving PC performance");
        Lit (VStr core_features);
        Lit (VStr "Windows users who want to optimize PC performance, free up disk space, and maintain system health");
        Lit (VStr keywords);
        Lit (VInt 1) ] ].

(** [create_schema_version_table], the ledger and its four versions. *)

Definition schema_migrations : table_def :=
  TableDef "schema_migrations"
    [ Column "version" INT [PRIMARY_KEY];
      Column "description" (VARCHAR 255) [];
      Column "applied_at" TIMESTAMP [DEFAULT_CURRENT_TIMESTAMP] ]
    [].

Definition migration_versions : list (Z * string) :=
  [ (1%Z, "Initial schema");
    (2%Z, "Add incremental update support");
    (3%Z, "Add AI provider field");
    (4%Z, "Add language detection confidence") ].

Definition seed_schema_migrations : stmt :=
  INSERT_INTO IGNORE "schema_migrations" ["version"; "description"]
    (map (fun vd => [Lit (VInt vd.1); Lit (VStr vd.2)]) migration_versions).

(** ** The storage engine

    A model of what the MySQL server does with the statements above.
    It covers what the schema relies on: PRIMARY KEY and UNIQUE
    checking (with NULL exempt), NOT NULL and ENUM checking, AUTO_INCREMENT
    and DEFAULT values, the three INSERT modes, and the ON DELETE actions
    of foreign keys.  Index order, FULLTEXT search, VARCHAR lengths and
    integer ranges play no part in it, an UPDATE is not checked against
    foreign keys, and INSERT IGNORE skips a row it cannot take instead
    of adjusting its values.  Character sets, collations and the storage
    engine clause of the statements are left out. *)

Inductive result (A : Type) :=
  | Ok (a : A)
  | Err (msg : string).
Arguments Ok {A} a.
Arguments Err {A} msg.

Abbreviation row := (gmap string value).

Definition get (c : string) (r : row) : value := default VNull (r !! c).

Record database := Database {
  db_catalog : list table_def;
  db_constraints : list foreign_key;
  db_rows : gmap string (list row);
  db_auto_increment : gmap string Z
}.

Definition empty_database : database := Database [] [] ∅ ∅.

#[global] Instance database_eq_dec : EqDecision database.
Proof. solve_decision. Defined.

#[global] Instance result_eq_dec {A} `{EqDecision A} : EqDecision (result A).
Proof. solve_decision. Defined.

Fixpoint find_table (name : string) (catalog : list table_def) : option table_def :=
  match catalog with
  | [] => None
  | d :: catalog' =>
      if bool_decide (tbl_name d = name) then Some d else find_table name catalog'
  end.

Definition lookup_table (name : string) (db : database) : option table_def :=
  find_table name (db_catalog db).

Definition rows_of (name : string) (db : database) : list row :=
  default [] (db_rows db !! name).

Definition set_rows (name : string) (rs : list row) (db : database) : database :=
  Database (db_catalog db) (db_constraints db)
           (<[name := rs]> (db_rows db)) (db_auto_increment db).

Definition next_id (name : string) (db : database) : Z :=
  default 1%Z (db_auto_increment db !! name).

Definition set_next_id (name : string) (z : Z) (db : database) : database :=
  Database (db_catalog db) (db_constraints db)
           (db_rows db) (<[name := z]> (db_auto_increment db)).

(** *** Keys *)

Definition has_attr (a : col_attr) (c : column) : bool :=
  bool_decide (a ∈ col_attrs c).

Definition part_column (p : key_part) : string :=
  match p with Asc c | Desc c | Prefix c _ => c end.

Definition part_value (p : key_part) (r : row) : value :=
  match p with
  | Asc c | Desc c => get c r
  | Prefix c n =>
      match get c r with
      | VStr s => VStr (String.substring 0 n s)
      | v => v
      end
  end.

Definition key_of (k : list key_part) (r : row) : list value :=
  map (fun p => part_value p r) k.

(** The keys the server enforces: the PRIMARY KEY column, the UNIQUE
    columns, and the UNIQUE KEY clauses, in that order. *)
Definition unique_keys (d : table_def) : list (string * list key_part) :=
  map (fun c => ("PRIMARY", [Asc (col_name c)]))
      (filter (fun c => has_attr PRIMARY_KEY c) (tbl_columns d))
  ++ map (fun c => (col_name c, [Asc (col_name c)]))
      (filter (fun c => has_attr UNIQUE c) (tbl_columns d))
  ++ omap (fun k => match k with
                    | UNIQUE_KEY n parts => Some (n, parts)
                    | _ => None
                    end) (tbl_keys d).

(** Two rows collide on a key when they agree on every part of it and no
    part is NULL. *)
Definition key_conflict (k : list key_part) (r1 r2 : row) : bool :=
  bool_decide (key_of k r1 = key_of k r2) && bool_decide (VNull ∉ key_of k r1).

Fixpoint unique_rows (k : list key_part) (rs : list row) : bool :=
  match rs with
  | [] => true
  | r :: rs' => forallb (fun r' => negb (key_conflict k r r')) rs' && unique_rows k rs'
  end.

Definition table_unique (d : table_def) (rs : list row) : bool :=
  forallb (fun nk => unique_rows nk.2 rs) (unique_keys d).

(** The first key, and the first row under it, that a new row collides
    with. *)
Fixpoint find_conflict (keys : list (string * list key_part))
    (rs : list row) (r : row) : option (string * nat) :=
  match keys with
  | [] => None
  | (n, k) :: keys' =>
      match list_find (fun r' => Is_true (key_conflict k r r')) rs with
      | Some (i, _) => Some (n, i)
      | None => find_conflict keys' rs r
      end
  end.

(** *** Rows *)

Definition greatest (a b : value) : value :=
  match a, b with
  | VInt x, VInt y => VInt (Z.max x y)
  | _, _ => VNull
  end.

Definition plus (a b : value) : value :=
  match a, b with
  | VInt x, VInt y => VInt (x + y)
  | _, _ => VNull
  end.

(** Expressions over integers; NULL and strings make the result NULL. *)
Fixpoint eval (now : Z) (old : row) (e : expr) : value :=
  match e with
  | Lit v => v
  | CURRENT_TIMESTAMP => VInt now
  | Col c => get c old
  | GREATEST e1 e2 => greatest (eval now old e1) (eval now old e2)
  | PLUS e1 e2 => plus (eval now old e1) (eval now old e2)
  end.

Fixpoint literal_default (attrs : list col_attr) : option value :=
  match attrs with
  | [] => None
  | DEFAULT v :: _ => Some v
  | _ :: attrs' => literal_default attrs'
  end.

(** The value of a column the INSERT does not mention. *)
Definition column_default (now next : Z) (c : column) : value :=
  if has_attr AUTO_INCREMENT c then VInt next
  else match literal_default (col_attrs c) with
       | Some v => v
       | None => if has_attr DEFAULT_CURRENT_TIMESTAMP c then VInt now else VNull
       end.

Definition new_row (now next : Z) (d : table_def) (given : row) : row :=
  list_to_map
    (map (fun c =>
            (col_name c,
             match given !! col_name c with
             | Some VNull => if has_attr AUTO_INCREMENT c then VInt next else VNull
             | Some v => v
             | None => column_default now next c
             end))
         (tbl_columns d)).

Definition known_column (d : table_def) (c : string) : bool :=
  bool_decide (c ∈ map col_name (tbl_columns d)).

Definition column_ok (r : row) (c : column) : option string :=
  if (has_attr NOT_NULL c || has_attr PRIMARY_KEY c) && bool_decide (get (col_name c) r = VNull)
  then Some ("1048 (23000): Column '" ++ col_name c ++ "' cannot be null")
  else match col_type c, get (col_name c) r with
       | ENUM members, VStr s =>
           if bool_decide (s ∈ members) then None
           else Some ("1265 (01000): Data truncated for column '" ++ col_name c ++ "'")
       | ENUM _, VInt _ =>
           Some ("1265 (01000): Data truncated for column '" ++ col_name c ++ "'")
       | _, _ => None
       end.

(** NOT NULL and ENUM membership, column by column; the first complaint.
    An ENUM cell is NULL or one of the members by name; the numeric
    index of a member is not accepted here. *)
Fixpoint check_row (cols : list column) (r : row) : option string :=
  match cols with
  | [] => None
  | c :: cols' =>
      match column_ok r c with
      | Some e => Some e
      | None => check_row cols' r
      end
  end.

(** SET clauses are applied left to right, each seeing the assignments
    before it; columns declared ON UPDATE CURRENT_TIMESTAMP follow when
    the row changed and the statement did not set them itself. *)
Definition apply_sets (now : Z) (sets : list (string * expr)) (old : row) : row :=
  foldl (fun r ce => <[ce.1 := eval now r ce.2]> r) old sets.

Definition touch (now : Z) (d : table_def) (sets : list (string * expr))
    (old new : row) : row :=
  if bool_decide (old = new) then new
  else foldl (fun r c =>
                if has_attr ON_UPDATE_CURRENT_TIMESTAMP c
                   && negb (bool_decide (col_name c ∈ sets.*1))
                then <[col_name c := VInt now]> r else r)
             new (tbl_columns d).

Definition update_row (now : Z) (d : table_def) (sets : list (string * expr))
    (old : row) : row :=
  touch now d sets old (apply_sets now sets old).

Definition auto_column (d : table_def) : option string :=
  col_name <$> head (filter (fun c => has_attr AUTO_INCREMENT c) (tbl_columns d)).

(** The counter moves past an explicitly inserted identifier. *)
Definition bump_auto_increment (d : table_def) (r : row) (db : database) : database :=
  match auto_column d with
  | Some c =>
      match get c r with
      | VInt z => set_next_id (tbl_name d) (Z.max (next_id (tbl_name d) db) (z + 1)) db
      | _ => db
      end
  | None => db
  end.

(** A child row needs its parent, unless the reference is NULL.  A row of
    a self-referencing table may name itself. *)
Definition parent_exists (db : database) (tbl : string) (r : row) (fk : foreign_key) : bool :=
  bool_decide (get (fk_column fk) r = VNull)
  || existsb (fun p => bool_decide (get (fk_ref_column fk) p = get (fk_column fk) r))
       (rows_of (fk_ref_table fk) db
        ++ (if bool_decide (fk_ref_table fk = tbl) then [r] else [])).

Definition check_parents (db : database) (tbl : string) (r : row) : option string :=
  match list_find (fun fk => fk_table fk = tbl ∧ ¬ Is_true (parent_exists db tbl r fk))
                  (db_constraints db) with
  | Some (_, fk) =>
      Some ("1452 (23000): Cannot add or update a child row: a foreign key constraint fails ("
            ++ fk_name fk ++ ")")
  | None => None
  end.

(** *** INSERT *)

Definition duplicate_entry (tbl key : string) : string :=
  "1062 (23000): Duplicate entry for key '" ++ tbl ++ "." ++ key ++ "'".

Definition first_violated_key (d : table_def) (rs : list row) : string :=
  match list_find (fun nk => ¬ Is_true (unique_rows nk.2 rs)) (unique_keys d) with
  | Some (_, nk) => nk.1
  | None => "PRIMARY"
  end.

(** ON DUPLICATE KEY UPDATE: the row the new one collides with is updated
    in place, and the table must still satisfy its keys afterwards. *)
Definition update_at (now : Z) (d : table_def) (sets : list (string * expr))
    (i : nat) (db : database) : result database :=
  let tbl := tbl_name d in
  let rs := rows_of tbl db in
  match rs !! i with
  | None => Ok db
  | Some old =>
      let new := update_row now d sets old in
      let rs' := <[i := new]> rs in
      match check_row (tbl_columns d) new with
      | Some e => Err e
      | None =>
          if table_unique d rs' then Ok (set_rows tbl rs' db)
          else Err (duplicate_entry tbl (first_violated_key d rs'))
      end
  end.

(** One tuple of an INSERT, already turned into the columns it gives. *)
Definition insert_row (now : Z) (mode : insert_mode) (d : table_def)
    (given : row) (db : database) : result database :=
  let tbl := tbl_name d in
  let rs := rows_of tbl db in
  let r := new_row now (next_id tbl db) d given in
  match check_row (tbl_columns d) r with
  | Some e => Err e
  | None =>
      match find_conflict (unique_keys d) rs r with
      | None =>
          match check_parents db tbl r with
          | Some e => Err e
          | None => Ok (bump_auto_increment d r (set_rows tbl (rs ++ [r]) db))
          end
      | Some (key, i) =>
          match mode with
          | ON_DUPLICATE_KEY_UPDATE sets =>
              if forallb (fun ce => known_column d ce.1) sets
              then update_at now d sets i db
              else Err "1054 (42S22): Unknown column in 'field list'"
          | _ => Err (duplicate_entry tbl key)
          end
      end
  end.

Definition given_row (now : Z) (cols : list string) (tuple : list expr) : row :=
  list_to_map (zip cols (map (eval now ∅) tuple)).

(** The tuples of one statement, in order.  Under IGNORE a tuple that is
    refused is skipped; otherwise the first refusal fails the statement. *)
Fixpoint insert_tuples (now : Z) (mode : insert_mode) (d : table_def)
    (cols : list string) (tuples : list (list expr)) (db : database)
    : result database :=
  match tuples with
  | [] => Ok db
  | t :: ts =>
      if bool_decide (length t = length cols) then
        match insert_row now mode d (given_row now cols t) db with
        | Ok db' => insert_tuples now mode d cols ts db'
        | Err e =>
            match mode with
            | IGNORE => insert_tuples now mode d cols ts db
            | _ => Err e
            end
        end
      else Err "1136 (21S01): Column count doesn't match value count"
  end.

(** *** UPDATE and DELETE *)

(** [WHERE col = v]; a comparison with NULL is never true. *)
Definition matches (col : string) (v : value) (r : row) : bool :=
  negb (bool_decide (v = VNull)) && bool_decide (get col r = v).

Fixpoint first_error (l : list (option string)) : option string :=
  match l with
  | [] => None
  | Some e :: _ => Some e
  | None :: l' => first_error l'
  end.

Definition update_where (now : Z) (d : table_def) (sets : list (string * expr))
    (col : string) (v : value) (db : database) : result database :=
  let tbl := tbl_name d in
  let rs := rows_of tbl db in
  let rs' := map (fun r => if matches col v r then update_row now d sets r else r) rs in
  match first_error
          (map (fun r => if matches col v r
                         then check_row (tbl_columns d) (update_row now d sets r)
                         else None) rs) with
  | Some e => Err e
  | None =>
      if table_unique d rs' then Ok (set_rows tbl rs' db)
      else Err (duplicate_entry tbl (first_violated_key d rs'))
  end.

(** A child row points at one of the deleted rows. *)
Definition references (victims : list row) (fk : foreign_key) (child : row) : bool :=
  negb (bool_decide (get (fk_column fk) child = VNull))
  && existsb (fun v => bool_decide (get (fk_ref_column fk) v = get (fk_column fk) child))
       victims.

Definition set_null (victims : list row) (fk : foreign_key) (child : row) : row :=
  if references victims fk child then <[fk_column fk := VNull]> child else child.

(** The server follows cascades at most fifteen levels deep. *)
Definition max_cascade_depth : nat := 15.

(** What one foreign key does when rows of its referenced table go:
    the cascade deletes the children through [delete_children]. *)
Definition on_parent_delete
    (delete_children : string -> (row -> bool) -> database -> result database)
    (tbl : string) (victims : list row) (acc : result database) (fk : foreign_key)
    : result database :=
  match acc with
  | Err e => Err e
  | Ok db =>
      if bool_decide (fk_ref_table fk = tbl) then
        match fk_on_delete fk with
        | ON_DELETE_CASCADE => delete_children (fk_table fk) (references victims fk) db
        | ON_DELETE_SET_NULL =>
            Ok (set_rows (fk_table fk)
                  (map (set_null victims fk) (rows_of (fk_table fk) db)) db)
        | ON_DELETE_RESTRICT =>
            if existsb (references victims fk) (rows_of (fk_table fk) db)
            then Err ("1451 (23000): Cannot delete or update a parent row: a foreign key constraint fails ("
                      ++ fk_name fk ++ ")")
            else Ok db
        end
      else Ok db
  end.

Fixpoint delete_where (fuel : nat) (tbl : string) (p : row -> bool)
    (db : database) : result database :=
  match fuel with
  | O => Err "3008 (HY000): Foreign key cascade delete/update exceeds max depth of 15."
  | S fuel' =>
      let victims := filter (fun r => Is_true (p r)) (rows_of tbl db) in
      if bool_decide (victims = []) then Ok db
      else
        foldl (on_parent_delete (delete_where fuel') tbl victims)
          (Ok (set_rows tbl (filter (fun r => ¬ Is_true (p r)) (rows_of tbl db)) db))
          (db_constraints db)
  end.

(** *** Data definition *)

Definition create_table (d : table_def) (db : database) : database :=
  match lookup_table (tbl_name d) db with
  | Some _ => db
  | None =>
      Database (db_catalog db ++ [d]) (db_constraints db)
               (<[tbl_name d := []]> (db_rows db))
               (<[tbl_name d := 1%Z]> (db_auto_increment db))
  end.

Definition indexed (d : table_def) (c : string) : bool :=
  existsb (fun col => bool_decide (col_name col = c)
                      && (has_attr PRIMARY_KEY col || has_attr UNIQUE col))
          (tbl_columns d)
  || existsb (fun k => match k with
                       | INDEX _ (p :: _) | UNIQUE_KEY _ (p :: _) =>
                           bool_decide (part_column p = c)
                       | _ => false
                       end) (tbl_keys d).

Definition not_null_column (d : table_def) (c : string) : bool :=
  existsb (fun col => bool_decide (col_name col = c)
                      && (has_attr NOT_NULL col || has_attr PRIMARY_KEY col))
          (tbl_columns d).

Definition add_constraint (fk : foreign_key) (db : database) : result database :=
  match lookup_table (fk_table fk) db with
  | None => Err ("1146 (42S02): Table '" ++ fk_table fk ++ "' doesn't exist")
  | Some child =>
      if bool_decide (fk_name fk ∈ map fk_name (db_constraints db))
      then Err ("1826 (HY000): Duplicate foreign key constraint name '" ++ fk_name fk ++ "'")
      else
        match lookup_table (fk_ref_table fk) db with
        | None => Err ("1824 (HY000): Failed to open the referenced table '"
                       ++ fk_ref_table fk ++ "'")
        | Some parent =>
            if negb (known_column child (fk_column fk))
            then Err ("1072 (42000): Key column '" ++ fk_column fk ++ "' doesn't exist in table")
            else if negb (indexed parent (fk_ref_column fk))
            then Err ("1822 (HY000): Failed to add the foreign key constraint. Missing index for constraint '"
                      ++ fk_name fk ++ "' in the referenced table '" ++ fk_ref_table fk ++ "'")
            else if match fk_on_delete fk with
                    | ON_DELETE_SET_NULL => not_null_column child (fk_column fk)
                    | _ => false
                    end
            then Err ("1830 (HY000): Column '" ++ fk_column fk
                      ++ "' cannot be NOT NULL: needed in a foreign key constraint '"
                      ++ fk_name fk ++ "' SET NULL")
            else if forallb (fun r => parent_exists db (fk_table fk) r fk)
                            (rows_of (fk_table fk) db)
            then Ok (Database (db_catalog db) (db_constraints db ++ [fk])
                              (db_rows db) (db_auto_increment db))
            else Err ("1452 (23000): Cannot add or update a child row: a foreign key constraint fails ("
                      ++ fk_name fk ++ ")")
        end
  end.

(** *** Names written into the text of a statement

    [create_database] writes the name of the database into the text of
    CREATE DATABASE as it comes from the command line, with no quotes
    around it, so the server reads it as it reads any other word of the
    statement.  The engine takes as a name what is safely one: at most 64
    of the characters [A-Z], [a-z], [0-9], [_] and [$], the first of them
    a letter, and not a reserved word of the server, in whatever case.
    All other text is answered with the parser's error.  The server
    itself reads a little more as a name (a name that begins with a digit,
    a dollar sign or an underscore, or has letters beyond ASCII, and a
    name between backticks) and some text as more than a name; none of
    that is covered here. *)

Definition is_letter (a : Ascii.ascii) : bool :=
  let n := Ascii.nat_of_ascii a in
  ((65 <=? n)%nat && (n <=? 90)%nat) || ((97 <=? n)%nat && (n <=? 122)%nat).

Definition is_digit (a : Ascii.ascii) : bool :=
  let n := Ascii.nat_of_ascii a in (48 <=? n)%nat && (n <=? 57)%nat.

Definition identifier_char (a : Ascii.ascii) : bool :=
  is_letter a || is_digit a
  || bool_decide (Ascii.nat_of_ascii a = 95%nat)
  || bool_decide (Ascii.nat_of_ascii a = 36%nat).

Definition capital (a : Ascii.ascii) : Ascii.ascii :=
  let n := Ascii.nat_of_ascii a in
  if (97 <=? n)%nat && (n <=? 122)%nat then Ascii.ascii_of_nat (n - 32) else a.

Fixpoint capitals (s : string) : string :=
  match s with
  | EmptyString => EmptyString
  | String a s' => String (capital a) (capitals s')
  end.

(** The reserved words of MySQL 8.0 and 8.4. *)
Definition reserved_words : list string :=
  [ "ACCESSIBLE"; "ADD"; "ALL"; "ALTER"; "ANALYZE"; "AND"; "AS"; "ASC"; "ASENSITIVE";
    "BEFORE"; "BETWEEN"; "BIGINT"; "BINARY"; "BLOB"; "BOTH"; "BY";
    "CALL"; "CASCADE"; "CASE"; "CHANGE"; "CHAR"; "CHARACTER"; "CHECK"; "COLLATE";
    "COLUMN"; "CONDITION"; "CONSTRAINT"; "CONTINUE"; "CONVERT"; "CREATE"; "CROSS";
    "CUBE"; "CUME_DIST"; "CURRENT_DATE"; "CURRENT_TIME"; "CURRENT_TIMESTAMP";
    "CURRENT_USER"; "CURSOR";
    "DATABASE"; "DATABASES"; "DAY_HOUR"; "DAY_MICROSECOND"; "DAY_MINUTE"; "DAY_SECOND";
    "DEC"; "DECIMAL"; "DECLARE"; "DEFAULT"; "DELAYED"; "DELETE"; "DENSE_RANK"; "DESC";
    "DESCRIBE"; "DETERMINISTIC"; "DISTINCT"; "DISTINCTROW"; "DIV"; "DOUBLE"; "DROP";
    "DUAL";
    "EACH"; "ELSE"; "ELSEIF"; "EMPTY"; "ENCLOSED"; "ESCAPED"; "EXCEPT"; "EXISTS";
    "EXIT"; "EXPLAIN";
    "FALSE"; "FETCH"; "FIRST_VALUE"; "FLOAT"; "FLOAT4"; "FLOAT8"; "FOR"; "FORCE";
    "FOREIGN"; "FROM"; "FULL"; "FULLTEXT"; "FUNCTION";
    "GENERATED"; "GET"; "GRANT"; "GROUP"; "GROUPING"; "GROUPS";
    "HAVING"; "HIGH_PRIORITY"; "HOUR_MICROSECOND"; "HOUR_MINUTE"; "HOUR_SECOND";
    "IF"; "IGNORE"; "IN"; "INDEX"; "INFILE"; "INNER"; "INOUT"; "INSENSITIVE"; "INSERT";
    "INT"; "INT1"; "INT2"; "INT3"; "INT4"; "INT8"; "INTEGER"; "INTERSECT"; "INTERVAL";
    "INTO"; "IO_AFTER_GTIDS"; "IO_BEFORE_GTIDS"; "IS"; "ITERATE";
    "JOIN"; "JSON_TABLE";
    "KEY"; "KEYS"; "KILL";
    "LAG"; "LAST_VALUE"; "LATERAL"; "LEAD"; "LEADING"; "LEAVE"; "LEFT"; "LIKE"; "LIMIT";
    "LINEAR"; "LINES"; "LOAD"; "LOCALTIME"; "LOCALTIMESTAMP"; "LOCK"; "LONG";
    "LONGBLOB"; "LONGTEXT"; "LOOP"; "LOW_PRIORITY";
    "MANUAL"; "MASTER_BIND"; "MASTER_SSL_VERIFY_SERVER_CERT"; "MATCH"; "MAXVALUE";
    "MEDIUMBLOB"; "MEDIUMINT"; "MEDIUMTEXT"; "MIDDLEINT"; "MINUTE_MICROSECOND";
    "MINUTE_SECOND"; "MOD"; "MODIFIES";
    "NATURAL"; "NOT"; "NO_WRITE_TO_BINLOG"; "NTH_VALUE"; "NTILE"; "NULL"; "NUMERIC";
    "OF"; "ON"; "OPTIMIZE"; "OPTIMIZER_COSTS"; "OPTION"; "OPTIONALLY"; "OR"; "ORDER";
    "OUT"; "OUTER"; "OUTFILE"; "OVER";
    "PARALLEL"; "PARTITION"; "PERCENT_RANK"; "PRECISION"; "PRIMARY"; "PROCEDURE";
    "PURGE";
    "QUALIFY";
    "RANGE"; "RANK"; "READ"; "READS"; "READ_WRITE"; "REAL"; "RECURSIVE"; "REFERENCES";
    "REGEXP"; "RELEASE"; "RENAME"; "REPEAT"; "REPLACE"; "REQUIRE"; "RESIGNAL";
    "RESTRICT"; "RETURN"; "REVOKE"; "RIGHT"; "RLIKE"; "ROW"; "ROWS"; "ROW_NUMBER";
    "SCHEMA"; "SCHEMAS"; "SECOND_MICROSECOND"; "SELECT"; "SENSITIVE"; "SEPARATOR";
    "SET"; "SHOW"; "SIGNAL"; "SMALLINT"; "SPATIAL"; "SPECIFIC"; "SQL"; "SQLEXCEPTION";
    "SQLSTATE"; "SQLWARNING"; "SQL_BIG_RESULT"; "SQL_CALC_FOUND_ROWS";
    "SQL_SMALL_RESULT"; "SSL"; "STARTING"; "STORED"; "STRAIGHT_JOIN"; "SYSTEM";
    "TABLE"; "TABLESAMPLE"; "TERMINATED"; "THEN"; "TINYBLOB"; "TINYINT"; "TINYTEXT";
    "TO"; "TRAILING"; "TRIGGER"; "TRUE";
    "UNDO"; "UNION"; "UNIQUE"; "UNLOCK"; "UNSIGNED"; "UPDATE"; "USAGE"; "USE"; "USING";
    "UTC_DATE"; "UTC_TIME"; "UTC_TIMESTAMP";
    "VALUES"; "VARBINARY"; "VARCHAR"; "VARCHARACTER"; "VARYING"; "VIRTUAL";
    "WHEN"; "WHERE"; "WHILE"; "WINDOW"; "WITH"; "WRITE";
    "XOR"; "YEAR_MONTH"; "ZEROFILL" ].

Definition unquoted_identifier (name : string) : bool :=
  match name with
  | EmptyString => false
  | String first _ =>
      is_letter first
      && forallb identifier_char (String.list_ascii_of_string name)
      && (String.length name <=? 64)%nat
      && negb (bool_decide (capitals name ∈ reserved_words))
  end.

Definition syntax_error : string :=
  "1064 (42000): You have an error in your SQL syntax".

(** *** Statements against the selected database *)

Definition no_such_table (tbl : string) : string :=
  "1146 (42S02): Table '" ++ tbl ++ "' doesn't exist".

Definition exec_db (now : Z) (s : stmt) (db : database) : result database :=
  match s with
  | CREATE_DATABASE_IF_NOT_EXISTS name =>
      if unquoted_identifier name then Ok db else Err syntax_error
  | USE _ => Ok db
  | CREATE_TABLE_IF_NOT_EXISTS d => Ok (create_table d db)
  | ALTER_TABLE_ADD_CONSTRAINT fk => add_constraint fk db
  | INSERT_INTO mode tbl cols tuples =>
      match lookup_table tbl db with
      | None => Err (no_such_table tbl)
      | Some d =>
          if forallb (known_column d) cols
          then insert_tuples now mode d cols tuples db
          else Err "1054 (42S22): Unknown column in 'field list'"
      end
  | UPDATE_SET tbl sets col v =>
      match lookup_table tbl db with
      | None => Err (no_such_table tbl)
      | Some d =>
          if forallb (known_column d) (col :: sets.*1)
          then update_where now d sets col v db
          else Err "1054 (42S22): Unknown column in 'field list'"
      end
  | DELETE_FROM tbl col v =>
      match lookup_table tbl db with
      | None => Err (no_such_table tbl)
      | Some d =>
          if known_column d col
          then delete_where max_cascade_depth tbl (matches col v) db
          else Err "1054 (42S22): Unknown column in 'where clause'"
      end
  end.

(** *** The connection *)

Record connection := Connection {
  conn_databases : gmap string database;
  conn_database : option string;
  conn_clock : Z
}.

(** [cursor.execute]: the new state of the server, and the text of the
    [mysql.connector.Error] it raises, if any.  A statement that fails
    leaves the data as it was.  Time advances with every statement.
    CREATE DATABASE is refused when the name written into it does not
    read as one. *)
Definition mysql_execute (s : stmt) (c : connection) : connection * option string :=
  let now := conn_clock c in
  let tick dbs cur := Connection dbs cur (now + 1) in
  match s with
  | CREATE_DATABASE_IF_NOT_EXISTS name =>
      if unquoted_identifier name then
        match conn_databases c !! name with
        | Some _ => (tick (conn_databases c) (conn_database c), None)
        | None =>
            (tick (<[name := empty_database]> (conn_databases c)) (conn_database c), None)
        end
      else (tick (conn_databases c) (conn_database c), Some syntax_error)
  | USE name =>
      match conn_databases c !! name with
      | Some _ => (tick (conn_databases c) (Some name), None)
      | None => (tick (conn_databases c) (conn_database c),
                 Some ("1049 (42000): Unknown database '" ++ name ++ "'"))
      end
  | _ =>
      match conn_database c with
      | None => (tick (conn_databases c) None, Some "1046 (3D000): No database selected")
      | Some name =>
          match conn_databases c !! name with
          | None => (tick (conn_databases c) (Some name),
                     Some ("1049 (42000): Unknown database '" ++ name ++ "'"))
          | Some db =>
              match exec_db now s db with
              | Ok db' => (tick (<[name := db']> (conn_databases c)) (Some name), None)
              | Err e => (tick (conn_databases c) (Some name), Some e)
              end
          end
      end
  end.

Definition mysql_commit (c : connection) : connection * option string := (c, None).

(** [connection.is_connected()]: the engine does not drop a connection;
    what goes wrong on it is the server's answer to a statement. *)
Definition mysql_is_connected (c : connection) : bool := true.

(** ** The script

    Python's control flow over a connection: a statement either returns
    or raises [mysql.connector.Error], whose text is all the script ever
    looks at; the logger is a list of records, most recent last. *)

Inductive level := INFO | WARNING | ERROR.

Record world (conn : Type) := World {
  w_conn : conn;
  w_log : list (level * string)
}.
Arguments World {conn} w_conn w_log.
Arguments w_conn {conn} w.
Arguments w_log {conn} w.

Inductive outcome (A : Type) :=
  | Return (a : A)
  | Raise (e : string).
Arguments Return {A} a.
Arguments Raise {A} e.

#[global] Instance outcome_eq_dec {A} `{EqDecision A} : EqDecision (outcome A).
Proof. solve_decision. Defined.

Definition py (conn A : Type) : Type := world conn -> world conn * outcome A.

Definition ret {conn A} (a : A) : py conn A := fun w => (w, Return a).

Definition raise {conn A} (e : string) : py conn A := fun w => (w, Raise e).

Definition bind {conn A B} (m : py conn A) (k : A -> py conn B) : py conn B :=
  fun w => match m w with
           | (w', Return a) => k a w'
           | (w', Raise e) => (w', Raise e)
           end.

(** [try: m  except Error as e: handler e] *)
Definition try_except {conn A} (m : py conn A) (handler : string -> py conn A)
    : py conn A :=
  fun w => match m w with
           | (w', Return a) => (w', Return a)
           | (w', Raise e) => handler e w'
           end.

(** [try: m  finally: cleanup] *)
Definition try_finally {conn A} (m : py conn A) (cleanup : py conn unit) : py conn A :=
  fun w => match m w with
           | (w', r) =>
               match cleanup w' with
               | (w'', Return _) => (w'', r)
               | (w'', Raise e) => (w'', Raise e)
               end
           end.

Definition logger {conn} (l : level) (msg : string) : py conn unit :=
  fun w => (World (w_conn w) (w_log w ++ [(l, msg)]), Return tt).

Declare Scope py_scope.
Delimit Scope py_scope with py.
Notation "m ;; k" := (bind m (fun _ => k))
  (at level 100, k at level 200, right associativity) : py_scope.

Fixpoint for_each {conn A} (l : list A) (body : A -> py conn unit) : py conn unit :=
  match l with
  | [] => ret tt
  | x :: l' => bind (body x) (fun _ => for_each l' body)
  end.

(** ["needle" in hay] *)
Fixpoint contains (needle hay : string) : bool :=
  String.prefix needle hay
  || match hay with
     | EmptyString => false
     | String _ hay' => contains needle hay'
     end.

(** The newline that opens several messages of [main]. *)
Definition nl : string :=
  String (Ascii.Ascii false true false true false false false false) "".

Record arguments := Arguments_ {
  host : string;
  port : Z;
  user : string;
  password : string;
  database_name : string
}.

Section Script.

Context {conn : Type}.

(** [cursor.execute(sql)], [connection.commit()] and
    [connection.is_connected()]. *)
Variable execute : stmt -> conn -> conn * option string.
Variable commit : conn -> conn * option string.
Variable is_connected : conn -> bool.

Local Open Scope py_scope.

Definition cursor_execute (s : stmt) : py conn unit :=
  fun w => match execute s (w_conn w) with
           | (c, None) => (World c (w_log w), Return tt)
           | (c, Some e) => (World c (w_log w), Raise e)
           end.

Definition connection_commit : py conn unit :=
  fun w => match commit (w_conn w) with
           | (c, None) => (World c (w_log w), Return tt)
           | (c, Some e) => (World c (w_log w), Raise e)
           end.

Definition create_database (database_name : string) : py conn unit :=
  try_except
    (cursor_execute (CREATE_DATABASE_IF_NOT_EXISTS database_name) ;;
     logger INFO ("✓ Database '" ++ database_name ++ "' ready"))
    (fun e =>
       logger ERROR ("✗ Failed to create database: " ++ e) ;;
       raise e).

Definition create_tables : py conn unit :=
  for_each tables (fun '(table_name, create_sql) =>
    try_except
      (cursor_execute create_sql ;;
       logger INFO ("✓ Table '" ++ table_name ++ "' created"))
      (fun e =>
         logger ERROR ("✗ Failed to create table '" ++ table_name ++ "': " ++ e) ;;
         raise e)).

Definition add_foreign_keys : py conn unit :=
  for_each constraints (fun constraint_sql =>
    try_except
      (cursor_execute constraint_sql ;;
       logger INFO "✓ Foreign key constraint added")
      (fun e =>
         if negb (contains "Duplicate" e)
         then logger WARNING ("⚠ Constraint warning: " ++ e)
         else ret tt)).

Definition seed_initial_data : py conn unit :=
  try_except
    (cursor_execute seed_product_config ;;
     logger INFO "✓ Default product config seeded")
    (fun e =>
       logger WARNING ("⚠ Product config already exists or error: " ++ e)) ;;
  connection_commit.

Definition create_schema_version_table : py conn unit :=
  cursor_execute (CREATE_TABLE_IF_NOT_EXISTS schema_migrations) ;;
  cursor_execute seed_schema_migrations ;;
  logger INFO "✓ Schema version tracking ready" ;;
  connection_commit.

(** [main], from the point where [mysql.connector.connect] has returned
    a connection and [is_connected()] has answered for it; the result is
    the exit status of the process.  In the [finally] block the
    connection is asked again, as it is by then: it is closed, and the
    closing record logged, only if it still answers. *)
Definition main (args : arguments) : py conn Z :=
  try_finally
    (try_except
       (logger INFO ("Connecting to MySQL at " ++ host args ++ ":"
                     ++ pretty (port args) ++ "...") ;;
        logger INFO "✓ Connected to MySQL server" ;;
        create_database (database_name args) ;;
        cursor_execute (USE (database_name args)) ;;
        logger INFO (nl ++ "Creating tables...") ;;
        create_tables ;;
        logger INFO (nl ++ "Adding foreign key constraints...") ;;
        add_foreign_keys ;;
        logger INFO (nl ++ "Seeding initial data...") ;;
        seed_initial_data ;;
        logger INFO (nl ++ "Setting up schema versioning...") ;;
        create_schema_version_table ;;
        logger INFO (nl ++ "✅ Database initialization completed successfully!") ;;
        logger INFO (nl ++ "Database: " ++ database_name args) ;;
        logger INFO "Next steps:" ;;
        logger INFO "1. Copy .env.example to .env" ;;
        logger INFO "2. Add your API keys via the web interface" ;;
        logger INFO "3. Start the application with: docker-compose up -d" ;;
        ret 0%Z)
       (fun e =>
          logger ERROR (nl ++ "❌ Database initialization failed: " ++ e) ;;
          ret 1%Z))
    (fun w =>
       if is_connected (w_conn w)
       then logger INFO (nl ++ "✓ MySQL connection closed") w
       else ret tt w).

End Script.

(** The script against the engine. *)

Definition fresh_server : connection := Connection ∅ None 0.

Definition default_arguments : arguments :=
  Arguments_ "localhost" 3306 "root" "secret" "youtube_kol_db".

Definition bootstrap (args : arguments) (c : connection) : world connection * outcome Z :=
  main mysql_execute mysql_commit mysql_is_connected args (World c []).

(** The selected database of a connection. *)
Definition current (c : connection) : database :=
  default empty_database (conn_database c ≫= fun name => conn_databases c !! name).

(** A history is a list of statements, each with the time it ran at.  A
    statement that is refused changes nothing. *)
Definition apply_stmt (db : database) (ts : Z * stmt) : database :=
  match exec_db ts.1 ts.2 db with
  | Ok db' => db'
  | Err _ => db
  end.

Definition run_history (h : list (Z * stmt)) (db : database) : database :=
  foldl apply_stmt db h.

(** The database one run of the script leaves behind on a fresh server. *)
Definition bootstrapped : database :=
  current (w_conn (bootstrap default_arguments fresh_server).1).

(** How many rows of a table carry the given values in the given columns. *)
Definition count_where (tbl : string) (cond : list (string * value)) (db : database) : nat :=
  length (filter (fun r => Forall (fun cv => get cv.1 r = cv.2) cond) (rows_of tbl db)).

(** ** The components described on top of the schema *)

(** *** Search Task Orchestrator *)

(** Modelled from the spec: the Search Task Orchestrator (section 4.3)
    is not in the repository; only the [status] column of [search_tasks]
    is.  The transitions are those the specification lists: [pending] to
    [running], [running] to [completed], [failed] or [paused], [paused]
    to [running].  An operation whose guard does not hold is a no-op
    that returns the current state. *)
Inductive task_status := Pending | Running | Completed | Failed | Paused.

#[global] Instance task_status_eq_dec : EqDecision task_status.
Proof. solve_decision. Defined.

Definition task_status_name (s : task_status) : string :=
  match s with
  | Pending => "pending"
  | Running => "running"
  | Completed => "completed"
  | Failed => "failed"
  | Paused => "paused"
  end.

Inductive task_op := Start | Pause | Resume | Complete | Fail.

(** Modelled from the spec: the guarded transition of one Orchestrator
    operation (section 4.3). *)
Definition transition (op : task_op) (s : task_status) : option task_status :=
  match op, s with
  | Start, Pending => Some Running
  | Pause, Running => Some Paused
  | Resume, Paused => Some Running
  | Complete, Running => Some Completed
  | Fail, Running => Some Failed
  | _, _ => None
  end.

Definition orchestrate (s : task_status) (op : task_op) : task_status :=
  default s (transition op s).

(** The statuses a task goes through under a sequence of operations,
    the initial one first. *)
Fixpoint lifecycle (s : task_status) (ops : list task_op) : list task_status :=
  match ops with
  | [] => [s]
  | op :: ops' => s :: lifecycle (orchestrate s op) ops'
  end.

(** The edges of the state machine as the specification draws it. *)
Definition lifecycle_edge (s s' : task_status) : bool :=
  match s, s' with
  | Pending, Running
  | Running, Completed
  | Running, Failed
  | Running, Paused
  | Paused, Running => true
  | _, _ => false
  end.

Definition terminal (s : task_status) : bool :=
  match s with
  | Completed | Failed => true
  | _ => false
  end.

(** *** Credential Pool *)

(** Modelled from the spec: the Credential Pool (section 4.1) is not in
    the repository; the record follows the quota columns of [api_keys].
    Dates are day numbers. *)
Record APIKey := MkAPIKey {
  api_key : string;
  api_type : string;
  daily_quota : Z;
  used_quota : Z;
  last_reset_date : option Z;
  is_active : bool;
  priority : Z
}.

(** Modelled from the spec: the lazy per-day reset that runs on every
    [acquire] (section 4.1, and the invariant of APIKey in section 3). *)
Definition reset_if_new_day (today : Z) (k : APIKey) : APIKey :=
  match last_reset_date k with
  | Some d =>
      if (d <? today)%Z
      then MkAPIKey (api_key k) (api_type k) (daily_quota k) 0 (Some today)
                    (is_active k) (priority k)
      else k
  | None =>
      MkAPIKey (api_key k) (api_type k) (daily_quota k) 0 (Some today)
               (is_active k) (priority k)
  end.

(** Modelled from the spec: a key [acquire] may hand out is active and,
    after the lazy reset, has [used_quota < daily_quota]. *)
Definition eligible (today : Z) (provider : string) (k : APIKey) : bool :=
  let k' := reset_if_new_day today k in
  bool_decide (api_type k' = provider) && is_active k'
  && (used_quota k' <? daily_quota k')%Z.

(** [a] is a better choice than [b]: higher priority, then lower use. *)
Definition better (a b : APIKey) : bool :=
  (priority b <? priority a)%Z
  || ((priority a =? priority b)%Z && (used_quota a <? used_quota b)%Z).

(** Modelled from the spec: [acquire(provider)], which answers with a
    key or with [None] for [QuotaExhausted] (section 4.1). *)
Definition acquire (today : Z) (provider : string) (pool : list APIKey) : option APIKey :=
  foldl (fun best k =>
           match best with
           | None => Some k
           | Some b => if better k b then Some k else Some b
           end)
        None
        (map (reset_if_new_day today) (filter (fun k => Is_true (eligible today provider k)) pool)).

(** Modelled from the spec: [record_usage(key, units)] adds the cost of a
    served call to the ledger; it has no way to refuse (section 4.1). *)
Definition record_usage (k : APIKey) (units : Z) : APIKey :=
  MkAPIKey (api_key k) (api_type k) (daily_quota k) (used_quota k + units)
           (last_reset_date k) (is_active k) (priority k).

Inductive call_result (A : Type) :=
  | Served (response : A)
  | QuotaExhausted.
Arguments Served {A} response.
Arguments QuotaExhausted {A}.

(** Modelled from the spec: one call against a provider with one key
    (sections 4.1 and 6).  The key must be eligible; the provider then
    serves the call, and its cost is recorded afterwards. *)
Definition metered_call {A} (today : Z) (k : APIKey) (units : Z) (response : A)
    : APIKey * call_result A :=
  if eligible today (api_type k) k
  then (record_usage (reset_if_new_day today k) units, Served response)
  else (k, QuotaExhausted).

(** *** Channel Registry *)

(** Modelled from the spec: what a discovery reports about a channel
    (section 3, Channel). *)
Record channel_data := ChannelData {
  cd_channel_id : string;
  cd_title : string;
  cd_url : string;
  cd_subscriber_count : Z;
  cd_status : string;
  cd_description : string;
  cd_language : string
}.

Definition channel_known (cid : string) (db : database) : bool :=
  existsb (fun r => bool_decide (get "channel_id" r = VStr cid)) (rows_of "channels" db).

(** Modelled from the spec: [upsert_channel(data)] of the Channel
    Registry (section 4.2), which is not in the repository.  A channel
    that exists has its mutable fields merged and [last_seen_at] moved to
    the later of its value and now; a channel that does not is inserted
    with [first_discovered_at = last_seen_at = now]. *)
Definition upsert_channel (now : Z) (data : channel_data) (db : database)
    : result database :=
  if channel_known (cd_channel_id data) db then
    exec_db now
      (UPDATE_SET "channels"
         [ ("subscriber_count", Lit (VInt (cd_subscriber_count data)));
           ("status", Lit (VStr (cd_status data)));
           ("channel_title", Lit (VStr (cd_title data)));
           ("description", Lit (VStr (cd_description data)));
           ("detected_language", Lit (VStr (cd_language data)));
           ("last_seen_at", GREATEST (Col "last_seen_at") CURRENT_TIMESTAMP) ]
         "channel_id" (VStr (cd_channel_id data)))
      db
  else
    exec_db now
      (INSERT_INTO PLAIN "channels"
         [ "channel_id"; "channel_title"; "channel_url"; "subscriber_count";
           "description"; "detected_language"; "status";
           "first_discovered_at"; "last_seen_at" ]
         [ [ Lit (VStr (cd_channel_id data));
             Lit (VStr (cd_title data));
             Lit (VStr (cd_url data));
             Lit (VInt (cd_subscriber_count data));
             Lit (VStr (cd_description data));
             Lit (VStr (cd_language data));
             Lit (VStr (cd_status data));
             CURRENT_TIMESTAMP;
             CURRENT_TIMESTAMP ] ])
      db.

(** *** Analysis Coordinator *)

(** The identifier of the analysis row of a (channel, task) pair. *)
Definition find_analysis (cid tid : string) (db : database) : option value :=
  get "id" <$>
    head (filter (fun r => get "channel_id" r = VStr cid ∧ get "task_id" r = VStr tid)
                 (rows_of "ai_analysis" db)).

(** Modelled from the spec: [schedule(channel_id, task_id)] of the
    Analysis Coordinator (section 4.4), which is not in the repository,
    cut into the statements it sends.  Each statement is atomic at the
    server; between two of them another caller may run.  The caller looks
    the pair up, inserts a pending row when there is none, and on a
    duplicate-key refusal reads the row that won. *)
Inductive schedule_pc :=
  | Lookup
  | Insert
  | Refetch
  | Done (answer : result value).

Definition schedule_insert (cid tid : string) : stmt :=
  INSERT_INTO PLAIN "ai_analysis"
    ["channel_id"; "task_id"; "analysis_detail"]
    [[Lit (VStr cid); Lit (VStr tid); Lit (VStr "{}")]].

Definition schedule_step (now : Z) (cid tid : string) (pc : schedule_pc)
    (db : database) : schedule_pc * database :=
  match pc with
  | Lookup =>
      match find_analysis cid tid db with
      | Some id => (Done (Ok id), db)
      | None => (Insert, db)
      end
  | Insert =>
      match exec_db now (schedule_insert cid tid) db with
      | Ok db' => (Refetch, db')
      | Err e => (if contains "Duplicate" e then Refetch else Done (Err e), db)
      end
  | Refetch =>
      match find_analysis cid tid db with
      | Some id => (Done (Ok id), db)
      | None => (Done (Err "analysis row not found"), db)
      end
  | Done a => (Done a, db)
  end.

(** Two callers scheduling the same pair against one database; the
    interleaving says whose statement the server runs next. *)
Inductive caller := CallerA | CallerB.

Record race := Race {
  race_a : schedule_pc;
  race_b : schedule_pc;
  race_db : database;
  race_clock : Z
}.

Definition race_step (cid tid : string) (st : race) (who : caller) : race :=
  match who with
  | CallerA =>
      let '(pc, db) := schedule_step (race_clock st) cid tid (race_a st) (race_db st) in
      Race pc (race_b st) db (race_clock st + 1)
  | CallerB =>
      let '(pc, db) := schedule_step (race_clock st) cid tid (race_b st) (race_db st) in
      Race (race_a st) pc db (race_clock st + 1)
  end.

Definition run_race (cid tid : string) (interleaving : list caller)
    (now : Z) (db : database) : race :=
  foldl (race_step cid tid) (Race Lookup Lookup db now) interleaving.

(** ** Reading the schema back *)

(** The members of an ENUM column of a table of the database. *)
Definition enum_members (tbl col : string) (db : database) : option (list string) :=
  d ← lookup_table tbl db;
  c ← head (filter (fun c => col_name c = col) (tbl_columns d));
  match col_type c with
  | ENUM members => Some members
  | _ => None
  end.

(** The keys the server enforces on a table of the database. *)
Definition enforced_keys (tbl : string) (db : database) : list (list key_part) :=
  match lookup_table tbl db with
  | Some d => (unique_keys d).*2
  | None => []
  end.

(** ** Invariants of the engine *)

(** Every table satisfies the keys of its definition. *)
Definition keys_hold (db : database) : Prop :=
  ∀ name d, lookup_table name db = Some d → table_unique d (rows_of name db) = true.

(** What a data statement keeps of the schema. *)
Definition same_schema (db db' : database) : Prop :=
  db_catalog db' = db_catalog db ∧ db_constraints db' = db_constraints db.

(** Tables are never redefined. *)
Definition catalog_grows (db db' : database) : Prop :=
  ∀ name d, lookup_table name db = Some d → lookup_table name db' = Some d.

(** ** Reasoning about the script *)

(** [m] returns, and what it adds to the log and returns satisfies [Q]. *)
Definition yields {conn A} (m : py conn A)
    (Q : list (level * string) -> A -> Prop) : Prop :=
  ∀ w, ∃ w' a l, m w = (w', Return a) ∧ w_log w' = (w_log w ++ l)%list ∧ Q l a.

(** The statements of a list sent one after another: the connection at
    the end, and what each [cursor.execute] raised. *)
Fixpoint execute_all {conn} (execute : stmt -> conn -> conn * option string)
    (ss : list stmt) (c : conn) : conn * list (option string) :=
  match ss with
  | [] => (c, [])
  | s :: ss' =>
      let '(c1, r) := execute s c in
      let '(c2, rs) := execute_all execute ss' c1 in
      (c2, r :: rs)
  end.

(** What [add_foreign_keys] logs for one constraint, given what its
    statement raised. *)
Definition constraint_log (r : option string) : list (level * string) :=
  match r with
  | None => [(INFO, "✓ Foreign key constraint added")]
  | Some e =>
      if contains "Duplicate" e then []
      else [(WARNING, "⚠ Constraint warning: " ++ e)]
  end.

Definition is_constraint (s : stmt) : bool :=
  match s with
  | ALTER_TABLE_ADD_CONSTRAINT _ => true
  | _ => false
  end.

Definition success_record : level * string :=
  (INFO, nl ++ "✅ Database initialization completed successfully!").

(** A server that refuses every foreign key and accepts the rest. *)
Definition refuse_constraints (s : stmt) (c : unit) : unit * option string :=
  (c, if is_constraint s
      then Some "1215 (HY000): Cannot add foreign key constraint"
      else None).

Definition always_commit (c : unit) : unit * option string := (c, None).

Definition always_connected (c : unit) : bool := true.

(** ** The migration ledger *)

(** States in which [create_schema_version_table] finds the ledger as it
    would have left it: every table within its keys, no other table
    under the ledger's name, no foreign key on the ledger. *)
Definition ledger_ready (db : database) : Prop :=
  keys_hold db
  ∧ (lookup_table "schema_migrations" db = None
     ∨ lookup_table "schema_migrations" db = Some schema_migrations)
  ∧ Forall (fun fk => fk_table fk ≠ "schema_migrations") (db_constraints db).

(** The connection after [n] runs of [create_schema_version_table]. *)
Definition ledger_runs (n : nat) (w : world connection) : world connection :=
  Nat.iter n (fun w => (create_schema_version_table mysql_execute mysql_commit w).1) w.

Definition ledger (c : connection) : list row :=
  rows_of "schema_migrations" (current c).

(** The row the ledger INSERT builds for a version. *)
Definition ledger_row (now : Z) (v : Z) (d : string) : row :=
  new_row now 1 schema_migrations
    (given_row now ["version"; "description"] [Lit (VInt v); Lit (VStr d)]).

Definition version_recorded (v : Z) (db : database) : bool :=
  existsb (fun r => bool_decide (get "version" r = VInt v)) (rows_of "schema_migrations" db).

(** What INSERT IGNORE does with one version of the ledger. *)
Definition record_version (now : Z) (db : database) (vd : Z * string) : database :=
  if version_recorded vd.1 db then db
  else set_rows "schema_migrations"
         (rows_of "schema_migrations" db ++ [ledger_row now vd.1 vd.2]) db.

(** One run of [create_schema_version_table] on a database. *)
Definition ledger_pass (now : Z) (db : database) : database :=
  foldl (record_version now) (create_table schema_migrations db) migration_versions.

(** A bootstrapped database in which an operator has edited the
    description of version 2. *)
Definition edited_ledger : database :=
  run_history
    [(50%Z, UPDATE_SET "schema_migrations" [("description", Lit (VStr "edited by hand"))]
              "version" (VInt 2))]
    bootstrapped.

Definition edited_server : connection :=
  Connection {[ "youtube_kol_db" := edited_ledger ]} (Some "youtube_kol_db") 100.

(** ** Invariant of two racing schedulers *)

(** An answer names a row of the pair that is in the table. *)
Definition answered (cid tid : string) (pc : schedule_pc) (db : database) : Prop :=
  ∀ id, pc = Done (Ok id) →
    ∃ r, r ∈ rows_of "ai_analysis" db
         ∧ get "channel_id" r = VStr cid ∧ get "task_id" r = VStr tid
         ∧ get "id" r = id.

Definition race_inv (cid tid : string) (st : race) : Prop :=
  keys_hold (race_db st)
  ∧ lookup_table "ai_analysis" (race_db st) = Some ai_analysis
  ∧ answered cid tid (race_a st) (race_db st)
  ∧ answered cid tid (race_b st) (race_db st).

(** Statements a caller has left to send, at most. *)
Definition schedule_remaining (pc : schedule_pc) : nat :=
  match pc with
  | Lookup => 3
  | Insert => 2
  | Refetch => 1
  | Done _ => 0
  end.

#[global] Instance caller_eq_dec : EqDecision caller.
Proof. solve_decision. Defined.

(** How often a caller is given the server in an interleaving. *)
Definition turns (who : caller) (interleaving : list caller) : nat :=
  length (filter (fun w => w = who) interleaving).

(** ** Sample statements and states *)

Definition accepted (now : Z) (s : stmt) (db : database) : bool :=
  match exec_db now s db with
  | Ok _ => true
  | Err _ => false
  end.

Definition insert_channel (cid : string) : stmt :=
  INSERT_INTO PLAIN "channels"
    ["channel_id"; "channel_title"; "channel_url"; "first_discovered_at"; "last_seen_at"]
    [[Lit (VStr cid); Lit (VStr "Channel"); Lit (VStr "https://www.youtube.com/channel/");
      CURRENT_TIMESTAMP; CURRENT_TIMESTAMP]].

Definition insert_task (tid : string) (parent : value) : stmt :=
  INSERT_INTO PLAIN "search_tasks" ["task_id"; "keyword"; "parent_task_id"]
    [[Lit (VStr tid); Lit (VStr "windows cleaner"); Lit parent]].

Definition insert_stats (cid tid : string) : stmt :=
  INSERT_INTO PLAIN "channel_video_stats" ["channel_id"; "task_id"; "recent_videos"]
    [[Lit (VStr cid); Lit (VStr tid); Lit (VStr "[]")]].

(** The bootstrapped database with channel [UC1] and task [T1]. *)
Definition one_channel_one_task : database :=
  run_history [(100%Z, insert_channel "UC1"); (101%Z, insert_task "T1" VNull)] bootstrapped.

Definition from_ok (r : result database) : database :=
  match r with
  | Ok db => db
  | Err _ => empty_database
  end.

Definition sample_channel (subscribers : Z) : channel_data :=
  ChannelData "UC1" "Channel" "https://www.youtube.com/channel/UC1"
              subscribers "active" "About" "en".

(** The server after [n] runs of the script, starting from nothing. *)
Definition rerun (n : nat) : connection :=
  Nat.iter n (fun c => w_conn (bootstrap default_arguments c).1) fresh_server.

(** ** Deleting under the installed foreign keys *)

(** The schema as the script leaves it. *)
Definition schema_installed (db : database) : Prop :=
  db_catalog db = db_catalog bootstrapped ∧ db_constraints db = foreign_keys.

(** A task row after its parent [tid] is gone: the reference is NULL and
    nothing else differs. *)
Definition orphan (tid : string) (r : row) : row :=
  if bool_decide (get "parent_task_id" r = VStr tid)
  then <["parent_task_id" := VNull]> r
  else r.

(** Parent task T1 with child T2, channels UC1 and UC2, and a snapshot
    and an analysis for each of the four (channel, task) pairs. *)
Definition small_crawl : database :=
  run_history
    [ (100%Z, insert_channel "UC1");
      (101%Z, insert_channel "UC2");
      (102%Z, insert_task "T1" VNull);
      (103%Z, insert_task "T2" (VStr "T1"));
      (104%Z, insert_stats "UC1" "T1");
      (105%Z, insert_stats "UC1" "T2");
      (106%Z, insert_stats "UC2" "T1");
      (107%Z, insert_stats "UC2" "T2");
      (108%Z, schedule_insert "UC1" "T1");
      (109%Z, schedule_insert "UC1" "T2");
      (110%Z, schedule_insert "UC2" "T1");
      (111%Z, schedule_insert "UC2" "T2") ]
    bootstrapped.

(** ** The scenario of the quota ledger *)

(** A YouTube key with a daily quota of 100, of which 95 are used, that
    was reset today (day 7). *)
Definition nearly_spent : APIKey :=
  MkAPIKey "AIza-sample" "youtube" 100 95 (Some 7%Z) true 0.

(** The same key when its last reset was the day before (day 6). *)
Definition reset_yesterday : APIKey :=
  MkAPIKey "AIza-sample" "youtube" 100 95 (Some 6%Z) true 0.

(** The same key as a row of [api_keys], and the increment of a call of
    10 units as one UPDATE. *)
Definition nearly_spent_row : database :=
  run_history
    [ (10%Z, INSERT_INTO PLAIN "api_keys"
               ["api_key"; "api_type"; "daily_quota"; "used_quota"; "last_reset_date"]
               [[ Lit (VStr "AIza-sample"); Lit (VStr "youtube");
                  Lit (VInt 100); Lit (VInt 95); Lit (VInt 7) ]]) ]
    bootstrapped.

Definition charge_ten_units : stmt :=
  UPDATE_SET "api_keys" [("used_quota", PLUS (Col "used_quota") (Lit (VInt 10)))]
    "api_key" (VStr "AIza-sample").

(** ** The control flow of [main] as a flat script *)

(** What [main] logs last, and what it logs when it gives up. *)
Definition closed_record : level * string :=
  (INFO, nl ++ "✓ MySQL connection closed").

Definition failed_record (e : string) : level * string :=
  (ERROR, nl ++ "❌ Database initialization failed: " ++ e).

(** What the [finally] block of [main] logs on a connection: the closing
    record when the connection still answers, nothing when it does not. *)
Definition closing {conn} (is_connected : conn -> bool) (c : conn)
    : list (level * string) :=
  if is_connected c then [closed_record] else [].

(** [m] adds [l] to the log and ends in [r], with [Q l r]. *)
Definition behaves {conn A} (m : py conn A)
    (Q : list (level * string) -> outcome A -> Prop) : Prop :=
  ∀ w, ∃ l, w_log (m w).1 = (w_log w ++ l)%list ∧ Q l (m w).2.

(** What holds of every step of [main] before it announces success:
    neither the announcement nor the closing record is in the log, and a
    step that returns has logged no error. *)
Definition unannounced {A} (l : list (level * string)) (r : outcome A) : Prop :=
  (success_record ∉ l) ∧ (closed_record ∉ l)
  ∧ (∀ a, r = Return a → Forall (fun rec => rec.1 ≠ ERROR) l).

(** A statement whose error ends the run, a statement whose error is
    logged and passed over, and a commit. *)
Inductive step :=
  | Fatal (s : stmt)
  | Tolerated (s : stmt)
  | CommitNow.

(** The statements of [main] in the order it sends them. *)
Definition script (args : arguments) : list step :=
  [ Fatal (CREATE_DATABASE_IF_NOT_EXISTS (database_name args));
    Fatal (USE (database_name args)) ]
  ++ (Fatal <$> tables.*2)
  ++ (Tolerated <$> constraints)
  ++ [ Tolerated seed_product_config;
       CommitNow;
       Fatal (CREATE_TABLE_IF_NOT_EXISTS schema_migrations);
       Fatal seed_schema_migrations;
       CommitNow ].

(** Running a script: the connection at the end and the error that ended
    it, if one did. *)
Fixpoint run_script {conn} (execute : stmt -> conn -> conn * option string)
    (commit : conn -> conn * option string) (steps : list step) (c : conn)
    : conn * option string :=
  match steps with
  | [] => (c, None)
  | Fatal s :: rest =>
      match execute s c with
      | (c', None) => run_script execute commit rest c'
      | (c', Some e) => (c', Some e)
      end
  | Tolerated s :: rest => run_script execute commit rest (execute s c).1
  | CommitNow :: rest =>
      match commit c with
      | (c', None) => run_script execute commit rest c'
      | (c', Some e) => (c', Some e)
      end
  end.

(** [m] does to the connection what the steps do, and raises the error
    that ends them. *)
Definition implements {conn A} (execute : stmt -> conn -> conn * option string)
    (commit : conn -> conn * option string) (m : py conn A) (steps : list step) : Prop :=
  ∀ w, w_conn (m w).1 = (run_script execute commit steps (w_conn w)).1
       ∧ match (run_script execute commit steps (w_conn w)).2 with
         | None => ∃ a, (m w).2 = Return a
         | Some e => (m w).2 = Raise e
         end.

(** [main] up to the point where it announces success. *)
Definition main_steps {conn} (execute : stmt -> conn -> conn * option string)
    (commit : conn -> conn * option string) (args : arguments) : py conn unit :=
  bind (logger INFO ("Connecting to MySQL at " ++ host args ++ ":"
                     ++ pretty (port args) ++ "..."))
    (fun _ => bind (logger INFO "✓ Connected to MySQL server")
    (fun _ => bind (create_database execute (database_name args))
    (fun _ => bind (cursor_execute execute (USE (database_name args)))
    (fun _ => bind (logger INFO (nl ++ "Creating tables..."))
    (fun _ => bind (create_tables execute)
    (fun _ => bind (logger INFO (nl ++ "Adding foreign key constraints..."))
    (fun _ => bind (add_foreign_keys execute)
    (fun _ => bind (logger INFO (nl ++ "Seeding initial data..."))
    (fun _ => bind (seed_initial_data execute commit)
    (fun _ => bind (logger INFO (nl ++ "Setting up schema versioning..."))
    (fun _ => create_schema_version_table execute commit))))))))))).

(** ** What [create_tables] logs *)

Definition created_record (table_name : string) : level * string :=
  (INFO, "✓ Table '" ++ table_name ++ "' created").

Definition not_created_record (table_name e : string) : level * string :=
  (ERROR, "✗ Failed to create table '" ++ table_name ++ "': " ++ e).

(** ** The script against one database of the engine *)

(** The database the script works on: the one the arguments name, empty
    when CREATE DATABASE has to make it. *)
Definition target (args : arguments) (c : connection) : database :=
  default empty_database (conn_databases c !! database_name args).

(** What [main] sends once the database is selected: the tables, the
    foreign keys and the seed row, then the ledger. *)
Definition data_steps : list step :=
  (Fatal <$> tables.*2)
  ++ (Tolerated <$> constraints)
  ++ [ Tolerated seed_product_config; CommitNow ].

Definition ledger_steps : list step :=
  [ Fatal (CREATE_TABLE_IF_NOT_EXISTS schema_migrations);
    Fatal seed_schema_migrations;
    CommitNow ].

Definition schema_steps : list step := data_steps ++ ledger_steps.

(** Steps against the selected database: the database and the clock at
    the end, and the error that ended the steps, if one did. *)
Fixpoint run_db (steps : list step) (now : Z) (db : database)
    : database * Z * option string :=
  match steps with
  | [] => (db, now, None)
  | Fatal s :: rest =>
      match exec_db now s db with
      | Ok db' => run_db rest (now + 1) db'
      | Err e => (db, (now + 1)%Z, Some e)
      end
  | Tolerated s :: rest =>
      match exec_db now s db with
      | Ok db' => run_db rest (now + 1) db'
      | Err _ => run_db rest (now + 1) db
      end
  | CommitNow :: rest => run_db rest now db
  end.

Definition step_stmt (st : step) : option stmt :=
  match st with
  | Fatal s | Tolerated s => Some s
  | CommitNow => None
  end.

(** Statements that go to the selected database. *)
Definition on_selected (s : stmt) : bool :=
  match s with
  | CREATE_DATABASE_IF_NOT_EXISTS _ | USE _ => false
  | _ => true
  end.

(** What an INSERT into [tbl] may change: rows of [tbl] only, none of
    them removed, and none of them rewritten unless the statement says
    ON DUPLICATE KEY UPDATE. *)
Definition inserted (mode : insert_mode) (tbl : string) (db db' : database) : Prop :=
  same_schema db db'
  ∧ (∀ t, t ≠ tbl → rows_of t db' = rows_of t db)
  ∧ (length (rows_of tbl db) ≤ length (rows_of tbl db'))%nat
  ∧ match mode with
    | ON_DUPLICATE_KEY_UPDATE _ => True
    | _ => rows_of tbl db `prefix_of` rows_of tbl db'
    end.

(** What a run of the script may change in a database that was there
    before: tables and foreign keys are added, never changed or dropped;
    the rows of a table that existed are kept, with new rows after them
    in the ledger only; [product_config] loses no row. *)
Definition keeps_data (db db' : database) : Prop :=
  catalog_grows db db'
  ∧ db_constraints db `prefix_of` db_constraints db'
  ∧ ∀ t, is_Some (lookup_table t db) →
      (t ∉ ["product_config"; "schema_migrations"] → rows_of t db' = rows_of t db)
      ∧ (t ≠ "product_config" → rows_of t db `prefix_of` rows_of t db')
      ∧ (length (rows_of t db) ≤ length (rows_of t db'))%nat.

(** The ledger the script finds can take its INSERT: there is none yet,
    or it has the two columns the statement names. *)
Definition ledger_usable (db : database) : bool :=
  match lookup_table "schema_migrations" db with
  | None => true
  | Some d => forallb (known_column d) ["version"; "description"]
  end.

(** ** Running the script again *)

(** The row the seed INSERT builds. *)
Definition seed_row (now next : Z) : row :=
  new_row now next product_config
    (given_row now
       [ "product_name"; "product_url"; "product_description"; "core_features";
         "target_audience"; "keywords"; "is_active" ]
       [ Lit (VStr "WMaster Cleanup");
         Lit (VStr "https://www.wmastercleanup.com/");
         Lit (VStr "All-in-One Windows Cleaner & Optimizer for cleaning junk files, freeing disk space, and improving PC performance");
         Lit (VStr core_features);
         Lit (VStr "Windows users who want to optimize PC performance, free up disk space, and maintain system health");
         Lit (VStr keywords);
         Lit (VInt 1) ]).

(** The four versions are in the ledger. *)
Definition ledger_full (db : database) : Prop :=
  ∀ v d, (v, d) ∈ migration_versions → version_recorded v db = true.

(** The database after the seed INSERT found no row under the next
    identifier. *)
Definition seeded (now : Z) (db : database) : database :=
  bump_auto_increment product_config (seed_row now (next_id "product_config" db))
    (set_rows "product_config"
       (rows_of "product_config" db ++ [seed_row now (next_id "product_config" db)]) db).

(** Every identifier of the table is below its counter. *)
Definition counter_ahead (tbl : string) (db : database) : bool :=
  forallb (fun r => match get "id" r with
                    | VInt z => bool_decide (z < next_id tbl db)%Z
                    | _ => false
                    end) (rows_of tbl db).

(** What [n] runs of the script from nothing leave behind, for [n] at
    least one. *)
Definition after_runs (n : nat) (c : connection) : Prop :=
  conn_database c = Some "youtube_kol_db"
  ∧ ∃ db, conn_databases c !! "youtube_kol_db" = Some db
          ∧ schema_installed db
          ∧ ledger_full db
          ∧ counter_ahead "product_config" db = true
          ∧ length (rows_of "product_config" db) = n
          ∧ Forall (fun r => get "product_name" r = VStr "WMaster Cleanup")
                   (rows_of "product_config" db)
          ∧ (∀ t, t ≠ "product_config" → rows_of t db = rows_of t bootstrapped).

(** A server that holds the sample crawl. *)
Definition crawl_server : connection :=
  Connection {[ "youtube_kol_db" := small_crawl ]} (Some "youtube_kol_db") 200.

(** ** Tables that are already there *)

(** A database in which [channels] exists with another definition and
    one row, on a server that has it selected. *)
Definition drifted : database :=
  Database [TableDef "channels" [Column "name" TEXT []] []] []
           {[ "channels" := [ {[ "name" := VStr "kept" ]} ] ]} ∅.

Definition drifted_server : connection :=
  Connection {[ "youtube_kol_db" := drifted ]} (Some "youtube_kol_db") 0.

(** A server on which [schema_migrations] is the table of another tool. *)
Definition foreign_ledger : database :=
  Database [TableDef "schema_migrations" [Column "id" INT [PRIMARY_KEY]] []] [] ∅ ∅.

Definition foreign_ledger_server : connection :=
  Connection {[ "youtube_kol_db" := foreign_ledger ]} None 0.

(** Two keys of 256 characters that differ in the last one. *)
Definition long_key (last : string) : string :=
  String.concat "" (replicate 255 "k") ++ last.

Definition insert_api_key (k : string) : stmt :=
  INSERT_INTO PLAIN "api_keys" ["api_key"; "api_type"]
    [[Lit (VStr k); Lit (VStr "youtube")]].

(** ** References under the installed foreign keys *)

(** Every row of the child table has its parent, unless the reference is
    NULL. *)
Definition refers (fk : foreign_key) (db : database) : Prop :=
  ∀ r, r ∈ rows_of (fk_table fk) db →
       get (fk_column fk) r = VNull
       ∨ ∃ p, p ∈ rows_of (fk_ref_table fk) db
              ∧ get (fk_ref_column fk) p = get (fk_column fk) r.

Definition references_hold (db : database) : Prop :=
  schema_installed db ∧ ∀ fk, fk ∈ foreign_keys → refers fk db.

(** Statements that add or remove rows and rewrite none. *)
Definition adds_or_removes (s : stmt) : bool :=
  match s with
  | INSERT_INTO PLAIN _ _ _ | INSERT_INTO IGNORE _ _ _ | DELETE_FROM _ _ _ => true
  | _ => false
  end.

(** A channel, a task and its child, a snapshot for the child, and then
    the parent is deleted. *)
Definition orphaning : list (Z * stmt) :=
  [ (100%Z, insert_channel "UC1");
    (101%Z, insert_task "T1" VNull);
    (102%Z, insert_task "T2" (VStr "T1"));
    (103%Z, insert_stats "UC1" "T2");
    (104%Z, DELETE_FROM "search_tasks" "task_id" (VStr "T1")) ].

(** ** Scheduling a pair the server can take

    What the two callers of [schedule] need of the database they start
    from, and what they can rely on while they run. *)

Definition task_known (tid : string) (db : database) : bool :=
  existsb (fun r => bool_decide (get "task_id" r = VStr tid)) (rows_of "search_tasks" db).

(** The channel and the task of the pair are there, the foreign keys are
    the five of the script, and every identifier of [ai_analysis] is
    below its counter. *)
Definition schedulable (cid tid : string) (db : database) : Prop :=
  db_constraints db = foreign_keys
  ∧ channel_known cid db = true
  ∧ task_known tid db = true
  ∧ counter_ahead "ai_analysis" db = true.

(** The row [schedule_insert] builds. *)
Definition pending_row (now next : Z) (cid tid : string) : row :=
  new_row now next ai_analysis
    (given_row now ["channel_id"; "task_id"; "analysis_detail"]
       [Lit (VStr cid); Lit (VStr tid); Lit (VStr "{}")]).

(** The database after [schedule_insert] found no row of the pair. *)
Definition scheduled (now : Z) (cid tid : string) (db : database) : database :=
  bump_auto_increment ai_analysis
    (pending_row now (next_id "ai_analysis" db) cid tid)
    (set_rows "ai_analysis"
       (rows_of "ai_analysis" db
        ++ [pending_row now (next_id "ai_analysis" db) cid tid]) db).

(** What a caller of [schedule] can rely on at each point: a row of the
    pair is there once the caller is about to read it, and an answer is
    the identifier the table gives for the pair. *)
Definition settled (cid tid : string) (pc : schedule_pc) (db : database) : Prop :=
  match pc with
  | Lookup | Insert => True
  | Refetch => is_Some (find_analysis cid tid db)
  | Done a => ∃ id, a = Ok id ∧ find_analysis cid tid db = Some id
  end.

Definition race_settled (cid tid : string) (st : race) : Prop :=
  lookup_table "ai_analysis" (race_db st) = Some ai_analysis
  ∧ schedulable cid tid (race_db st)
  ∧ settled cid tid (race_a st) (race_db st)
  ∧ settled cid tid (race_b st) (race_db st).

(** ** The connectivity tests of [test_apis.py]

    The script calls four endpoints of the YouTube Data API, one chat
    completion endpoint and the [langdetect] library, and reports what it
    finds.  What the services answer is a parameter: each endpoint is
    called at most once in a run, and [detect] once for each text, so an
    answer for each call describes every run.  The answers are Python
    values as [json.loads] and the client libraries build them. *)

Module TestApis.

#[warnings="-register-all"]
Inductive json :=
  | JNull
  | JBool (b : bool)
  | JNum (z : Z)
  | JStr (s : string)
  | JArr (items : list json)
  | JObj (fields : list (string * json)).

(** The exceptions the script tells apart, each with its [str(e)]:
    [googleapiclient.errors.HttpError] with [e.resp.status] and
    [e.content], [requests.exceptions.Timeout], the other subclasses of
    [requests.exceptions.RequestException], [ImportError], and every
    other [Exception] with the name of its class. *)
Inductive exn :=
  | HttpError (status : Z) (content : string) (text : string)
  | Timeout (text : string)
  | RequestException (text : string)
  | ImportError (text : string)
  | OtherException (class : string) (text : string).

Definition str_exn (e : exn) : string :=
  match e with
  | HttpError _ _ text | Timeout text | RequestException text
  | ImportError text | OtherException _ text => text
  end.

(** *** Python's operations on values *)

Definition type_name (v : json) : string :=
  match v with
  | JNull => "NoneType"
  | JBool _ => "bool"
  | JNum _ => "int"
  | JStr _ => "str"
  | JArr _ => "list"
  | JObj _ => "dict"
  end.

(** [if v:] *)
Definition truthy (v : json) : bool :=
  match v with
  | JNull => false
  | JBool b => b
  | JNum z => negb (z =? 0)%Z
  | JStr s => negb (bool_decide (s = ""))
  | JArr items => negb (bool_decide (items = []))
  | JObj fields => negb (bool_decide (fields = []))
  end.

Fixpoint item (k : string) (fields : list (string * json)) : option json :=
  match fields with
  | [] => None
  | (k', v) :: fields' => if bool_decide (k' = k) then Some v else item k fields'
  end.

(** [v.get(k, d)]; only a dict has the method. *)
Definition get (v : json) (k : string) (d : json) : exn + json :=
  match v with
  | JObj fields => inr (default d (item k fields))
  | _ => inl (OtherException "AttributeError"
                ("'" ++ type_name v ++ "' object has no attribute 'get'"))
  end.

(** [v[k]] for a string [k]. *)
Definition subscript (v : json) (k : string) : exn + json :=
  match v with
  | JObj fields =>
      match item k fields with
      | Some x => inr x
      | None => inl (OtherException "KeyError" ("'" ++ k ++ "'"))
      end
  | JArr _ =>
      inl (OtherException "TypeError" "list indices must be integers or slices, not str")
  | JStr _ =>
      inl (OtherException "TypeError" "string indices must be integers, not 'str'")
  | _ =>
      inl (OtherException "TypeError" ("'" ++ type_name v ++ "' object is not subscriptable"))
  end.

(** [v[0]] *)
Definition first (v : json) : exn + json :=
  match v with
  | JArr (x :: _) => inr x
  | JArr [] => inl (OtherException "IndexError" "list index out of range")
  | JStr (String c _) => inr (JStr (String c ""))
  | JStr EmptyString => inl (OtherException "IndexError" "string index out of range")
  | JObj _ => inl (OtherException "KeyError" "0")
  | _ =>
      inl (OtherException "TypeError" ("'" ++ type_name v ++ "' object is not subscriptable"))
  end.

(** *** The script's control flow: what is logged, and the value returned
    or the exception raised *)

Definition io (A : Type) : Type := list (level * string) * (exn + A).

Definition pure {A} (a : A) : io A := ([], inr a).

Definition throw {A} (e : exn) : io A := ([], inl e).

Definition lift {A} (r : exn + A) : io A := ([], r).

Definition log (l : level) (msg : string) : io unit := ([(l, msg)], inr tt).

Definition and_then {A B} (m : io A) (k : A -> io B) : io B :=
  match m with
  | (l, inr a) => let '(l', r) := k a in ((l ++ l')%list, r)
  | (l, inl e) => (l, inl e)
  end.

(** [try: m  except ...: handler e]; a handler that does not take the
    exception raises it again. *)
Definition attempt {A} (m : io A) (handler : exn -> io A) : io A :=
  match m with
  | (l, inr a) => (l, inr a)
  | (l, inl e) => let '(l', r) := handler e in ((l ++ l')%list, r)
  end.

Fixpoint each {A} (l : list A) (body : A -> io unit) : io unit :=
  match l with
  | [] => pure tt
  | x :: l' => and_then (body x) (fun _ => each l' body)
  end.

#[global] Instance io_bind : MBind io := fun A B k m => and_then m k.

(** *** The services *)

(** [requests.Response]: the status, the body as text, and what
    [response.json()] gives. *)
Record response := Response {
  status_code : Z;
  text : string;
  json_body : exn + json
}.

Record services := Services {
  (** [build('youtube', 'v3', developerKey=api_key)] *)
  build : string -> option exn;
  (** [youtube.search().list(q='test', part='snippet', maxResults=1,
      type='channel').execute()] *)
  search_list : string -> exn + json;
  (** [youtube.channels().list(part='snippet,statistics', id=...).execute()] *)
  channels_list : string -> json -> exn + json;
  (** [youtube.playlistItems().list(part='contentDetails', playlistId=...,
      maxResults=1).execute()] *)
  playlist_items_list : string -> json -> exn + json;
  (** [youtube.videos().list(part='statistics,snippet', id=...).execute()] *)
  videos_list : string -> json -> exn + json;
  (** [json.loads] *)
  loads : string -> exn + json;
  (** [requests.post(url, headers=..., json=..., timeout=30)], by URL, key
      and model *)
  post : string -> string -> string -> exn + response;
  (** [from langdetect import detect] and [detect(text)] *)
  import_langdetect : option exn;
  detect : string -> exn + json;
  (** [str(v)], as an f-string formats a value *)
  str : json -> string
}.

Definition check (r : option exn) : io unit :=
  match r with
  | None => pure tt
  | Some e => throw e
  end.

Section Tests.

Variable env : services.

(** [channel] is assigned only when the channel lookup has items; reading
    it before that raises [UnboundLocalError]. *)
Definition unbound_channel : exn :=
  OtherException "UnboundLocalError"
    "cannot access local variable 'channel' where it is not associated with a value".

Definition test_youtube_api (api_key : string) : io bool :=
  log INFO (nl ++ "🔍 Testing YouTube API...") ;;
  attempt
    (check (build env api_key) ;;
     log INFO "  → Testing search endpoint..." ;;
     search_response ← lift (search_list env api_key) ;
     found ← lift (get search_response "items" JNull) ;
     (if truthy found
      then log INFO "  ✓ Search endpoint working"
      else log WARNING "  ⚠ Search returned no results (unusual)") ;;
     log INFO "  → Testing channels endpoint..." ;;
     found ← lift (get search_response "items" JNull) ;
     channel ←
       (if truthy found then
          items ← lift (subscript search_response "items") ;
          hit ← lift (first items) ;
          snippet ← lift (subscript hit "snippet") ;
          channel_id ← lift (subscript snippet "channelId") ;
          channel_response ← lift (channels_list env api_key channel_id) ;
          found ← lift (get channel_response "items" JNull) ;
          (if truthy found then
             items ← lift (subscript channel_response "items") ;
             channel ← lift (first items) ;
             log INFO "  ✓ Channels endpoint working" ;;
             snippet ← lift (subscript channel "snippet") ;
             title ← lift (subscript snippet "title") ;
             log INFO ("     Sample channel: " ++ str env title) ;;
             statistics ← lift (subscript channel "statistics") ;
             subscribers ← lift (get statistics "subscriberCount" (JStr "N/A")) ;
             log INFO ("     Subscribers: " ++ str env subscribers) ;;
             pure (Some channel)
           else pure None)
        else pure None) ;
     log INFO "  → Testing playlistItems endpoint..." ;;
     channel ← (match channel with
                | Some channel => pure channel
                | None => throw unbound_channel
                end) ;
     details ← lift (subscript channel "contentDetails") ;
     playlists ← lift (subscript details "relatedPlaylists") ;
     uploads_playlist_id ← lift (subscript playlists "uploads") ;
     playlist_response ← lift (playlist_items_list env api_key uploads_playlist_id) ;
     found ← lift (get playlist_response "items" JNull) ;
     (if truthy found then log INFO "  ✓ PlaylistItems endpoint working" else pure tt) ;;
     log INFO "  → Testing videos endpoint..." ;;
     found ← lift (get playlist_response "items" JNull) ;
     (if truthy found then
        items ← lift (subscript playlist_response "items") ;
        entry ← lift (first items) ;
        details ← lift (subscript entry "contentDetails") ;
        video_id ← lift (subscript details "videoId") ;
        video_response ← lift (videos_list env api_key video_id) ;
        found ← lift (get video_response "items" JNull) ;
        (if truthy found then
           log INFO "  ✓ Videos endpoint working" ;;
           items ← lift (subscript video_response "items") ;
           video ← lift (first items) ;
           snippet ← lift (subscript video "snippet") ;
           title ← lift (subscript snippet "title") ;
           log INFO ("     Sample video: " ++ str env title) ;;
           statistics ← lift (subscript video "statistics") ;
           views ← lift (get statistics "viewCount" (JStr "N/A")) ;
           log INFO ("     Views: " ++ str env views)
         else pure tt)
      else pure tt) ;;
     log INFO (nl ++ "✅ YouTube API: ALL TESTS PASSED") ;;
     log INFO "   Estimated quota used: ~103 units (out of 10,000 daily)" ;;
     pure true)
    (fun e =>
       match e with
       | HttpError status content _ =>
           error_details ← lift (loads env content) ;
           error ← lift (get error_details "error" (JObj [])) ;
           error_message ← lift (get error "message" (JStr (str_exn e))) ;
           (if bool_decide (status = 403%Z) then
              log ERROR (nl ++ "❌ YouTube API: AUTHENTICATION FAILED") ;;
              log ERROR ("   Error: " ++ str env error_message) ;;
              log ERROR "   Possible causes:" ;;
              log ERROR "   1. Invalid API key" ;;
              log ERROR "   2. YouTube Data API v3 not enabled in Google Cloud Console" ;;
              log ERROR "   3. Quota exceeded (check console)"
            else
              log ERROR (nl ++ "❌ YouTube API: HTTP " ++ pretty status ++ " ERROR") ;;
              log ERROR ("   " ++ str env error_message)) ;;
           pure false
       | _ =>
           log ERROR (nl ++ "❌ YouTube API: UNEXPECTED ERROR") ;;
           log ERROR ("   " ++ str_exn e) ;;
           pure false
       end).

(** [test_deepseek_api] and [test_zhipu_api] are the same function up to
    the name in the banner, the name in the verdicts, the URL and the
    model. *)
Definition test_chat_api (banner name url model api_key : string) : io bool :=
  log INFO (nl ++ "🤖 Testing " ++ banner ++ " API...") ;;
  attempt
    (log INFO "  → Sending test prompt..." ;;
     response ← lift (post env url api_key model) ;
     if bool_decide (status_code response = 200%Z) then
       result ← lift (json_body response) ;
       choices ← lift (subscript result "choices") ;
       choice ← lift (first choices) ;
       message ← lift (subscript choice "message") ;
       content ← lift (subscript message "content") ;
       log INFO "  ✓ API connection successful" ;;
       log INFO ("     Response: " ++ str env content) ;;
       model ← lift (get result "model" (JStr "N/A")) ;
       log INFO ("     Model: " ++ str env model) ;;
       usage ← lift (get result "usage" (JObj [])) ;
       tokens ← lift (get usage "total_tokens" (JStr "N/A")) ;
       log INFO ("     Tokens used: " ++ str env tokens) ;;
       log INFO (nl ++ "✅ " ++ name ++ " API: ALL TESTS PASSED") ;;
       pure true
     else
       log ERROR (nl ++ "❌ " ++ name ++ " API: HTTP " ++ pretty (status_code response)) ;;
       log ERROR ("   " ++ text response) ;;
       pure false)
    (fun e =>
       match e with
       | Timeout _ =>
           log ERROR (nl ++ "❌ " ++ name ++ " API: CONNECTION TIMEOUT") ;;
           log ERROR "   The API took too long to respond (>30s)" ;;
           pure false
       | RequestException _ =>
           log ERROR (nl ++ "❌ " ++ name ++ " API: CONNECTION ERROR") ;;
           log ERROR ("   " ++ str_exn e) ;;
           pure false
       | _ =>
           log ERROR (nl ++ "❌ " ++ name ++ " API: UNEXPECTED ERROR") ;;
           log ERROR ("   " ++ str_exn e) ;;
           pure false
       end).

Definition test_deepseek_api : string -> io bool :=
  test_chat_api "Deepseek AI" "Deepseek"
    "https://api.deepseek.com/v1/chat/completions" "deepseek-chat".

Definition test_zhipu_api : string -> io bool :=
  test_chat_api "Zhipu AI" "Zhipu AI"
    "https://open.bigmodel.cn/api/paas/v4/chat/completions" "glm-4".

Definition test_texts : list (string * string) :=
  [ ("en", "This is a test for English language detection");
    ("zh", "这是一个中文语言检测测试");
    ("ja", "これは日本語の言語検出テストです");
    ("es", "Esta es una prueba de detección de idioma español") ].

(** [detected == expected_lang or detected.startswith(expected_lang)]:
    the method is looked up only when the values differ, and only a string
    has it. *)
Definition detected_as (expected_lang : string) (detected : json) : exn + bool :=
  match detected with
  | JStr s => inr (bool_decide (s = expected_lang) || String.prefix expected_lang s)
  | _ => inl (OtherException "AttributeError"
                ("'" ++ type_name detected ++ "' object has no attribute 'startswith'"))
  end.

Definition test_language_detection : io bool :=
  log INFO (nl ++ "🌐 Testing language detection...") ;;
  attempt
    (check (import_langdetect env) ;;
     each test_texts (fun '(expected_lang, sample) =>
       detected ← lift (detect env sample) ;
       same ← lift (detected_as expected_lang detected) ;
       if same : bool
       then log INFO ("  ✓ Detected '" ++ expected_lang ++ "' correctly")
       else log WARNING ("  ⚠ Expected '" ++ expected_lang ++ "', got '"
                         ++ str env detected ++ "'")) ;;
     log INFO (nl ++ "✅ Language detection: WORKING") ;;
     pure true)
    (fun e =>
       match e with
       | ImportError _ =>
           log ERROR (nl ++ "❌ Language detection: langdetect library not installed") ;;
           log ERROR "   Install with: pip install langdetect" ;;
           pure false
       | _ =>
           log ERROR (nl ++ "❌ Language detection: ERROR") ;;
           log ERROR ("   " ++ str_exn e) ;;
           pure false
       end).

(** The command line.  [--ai-provider] takes [deepseek] or [zhipu]; an
    option given as the empty string counts as not given. *)
Inductive provider := Deepseek | Zhipu.

Record cli := Cli {
  youtube_key : option string;
  ai_provider : option provider;
  ai_key : option string;
  all : bool
}.

Definition given (o : option string) : option string :=
  match o with
  | Some s => if bool_decide (s = "") then None else Some s
  | None => None
  end.

Definition upper_char (c : Ascii.ascii) : Ascii.ascii :=
  let n := Ascii.nat_of_ascii c in
  if (97 <=? n)%nat && (n <=? 122)%nat then Ascii.ascii_of_nat (n - 32) else c.

(** [service.upper()], for the ASCII names of the services. *)
Fixpoint upper (s : string) : string :=
  match s with
  | EmptyString => EmptyString
  | String c s' => String (upper_char c) (upper s')
  end.

Definition rule : string := String.concat "" (replicate 60 "=").

(** [main]; the value is the status [sys.exit] is called with. *)
Definition main (args : cli) : io Z :=
  results ←
    (match given (youtube_key args) with
     | Some key => passed ← test_youtube_api key ; pure [("youtube", passed)]
     | None =>
         (if all args
          then log WARNING "⚠ Skipping YouTube API test (no key provided)"
          else pure tt) ;;
         pure []
     end) ;
  results ←
    (match ai_provider args, given (ai_key args) with
     | Some Deepseek, Some key =>
         passed ← test_deepseek_api key ; pure (results ++ [("ai", passed)])%list
     | Some Zhipu, Some key =>
         passed ← test_zhipu_api key ; pure (results ++ [("ai", passed)])%list
     | _, _ =>
         (if all args
          then log WARNING "⚠ Skipping AI API test (no provider/key provided)"
          else pure tt) ;;
         pure results
     end) ;
  passed ← test_language_detection ;
  let results := (results ++ [("language_detection", passed)])%list in
  log INFO (nl ++ rule) ;;
  log INFO "TEST SUMMARY" ;;
  log INFO rule ;;
  each results (fun '(service, passed) =>
    log INFO (upper service ++ ": " ++ if passed : bool then "✅ PASS" else "❌ FAIL")) ;;
  if forallb snd results
  then log INFO (nl ++ "🎉 All tests passed! System is ready to use.") ;; pure 0%Z
  else log INFO (nl ++ "⚠️  Some tests failed. Please check errors above.") ;; pure 1%Z.

End Tests.

End TestApis.

(** ** Sample services for the connectivity tests *)

Module Samples.

Import TestApis.

(** [str] on strings; other values are not formatted in the samples. *)
Definition show (v : json) : string :=
  match v with
  | JStr s => s
  | _ => "?"
  end.

Definition search_hit : json :=
  JObj [("items", JArr [JObj [("snippet", JObj [("channelId", JStr "UC1")])]])].

(** A channel as [part='snippet,statistics'] returns it. *)
Definition channel_as_requested : json :=
  JObj [ ("snippet", JObj [("title", JStr "Channel")]);
         ("statistics", JObj [("subscriberCount", JStr "10")]) ].

(** The same channel with the part the script reads next. *)
Definition channel_with_uploads : json :=
  JObj [ ("snippet", JObj [("title", JStr "Channel")]);
         ("statistics", JObj [("subscriberCount", JStr "10")]);
         ("contentDetails", JObj [("relatedPlaylists", JObj [("uploads", JStr "UU1")])]) ].

Definition playlist_hit : json :=
  JObj [("items", JArr [JObj [("contentDetails", JObj [("videoId", JStr "v1")])]])].

Definition video_hit : json :=
  JObj [("items", JArr [JObj [ ("snippet", JObj [("title", JStr "Video")]);
                               ("statistics", JObj [("viewCount", JStr "5")]) ]])].

Definition chat_reply (usage : list (string * json)) : json :=
  JObj ([ ("choices", JArr [JObj [("message", JObj [("content", JStr "OK")])]]);
          ("model", JStr "deepseek-chat") ] ++ usage).

(** Services that answer every call, with the given channel and the
    given body of the chat completion; [detect] says [xx] to every
    text. *)
Definition answering (channel body : json) : services :=
  Services
    (fun _ => None)
    (fun _ => inr search_hit)
    (fun _ _ => inr (JObj [("items", JArr [channel])]))
    (fun _ _ => inr playlist_hit)
    (fun _ _ => inr video_hit)
    (fun _ => inr (JObj []))
    (fun _ _ _ => inr (Response 200 "" (inr body)))
    None
    (fun _ => inr (JStr "xx"))
    show.

Definition healthy : services :=
  answering channel_with_uploads (chat_reply []).

(** Services whose YouTube client fails with an [HttpError] whose body
    is not JSON. *)
Definition gateway_down : services :=
  Services
    (fun _ => None)
    (fun _ => inl (HttpError 502 "<html>Bad Gateway</html>" "HttpError 502"))
    (fun _ _ => inr JNull)
    (fun _ _ => inr JNull)
    (fun _ _ => inr JNull)
    (fun _ => inl (OtherException "JSONDecodeError" "Expecting value: line 1 column 1 (char 0)"))
    (fun _ _ _ => inl (Timeout "timed out"))
    None
    (fun _ => inr (JStr "xx"))
    show.

(** Services whose search finds no channel. *)
Definition no_channel : services :=
  Services
    (fun _ => None)
    (fun _ => inr (JObj [("items", JArr [])]))
    (fun _ _ => inr JNull)
    (fun _ _ => inr JNull)
    (fun _ _ => inr JNull)
    (fun _ => inr (JObj []))
    (fun _ _ _ => inl (Timeout "timed out"))
    None
    (fun _ => inr (JStr "xx"))
    show.

End Samples.

(** ** What [main] of the connectivity tests runs *)

Module TestPlan.

Import TestApis.

(** The tests a command line selects, in the order [main] runs them,
    under the names of the summary. *)
Definition selected (env : services) (args : cli) : list (string * io bool) :=
  match given (youtube_key args) with
  | Some key => [("youtube", test_youtube_api env key)]
  | None => []
  end
  ++ match ai_provider args, given (ai_key args) with
     | Some Deepseek, Some key => [("ai", test_deepseek_api env key)]
     | Some Zhipu, Some key => [("ai", test_zhipu_api env key)]
     | _, _ => []
     end
  ++ [("language_detection", test_language_detection env)].

(** The answers of the tests, up to the first that raises. *)
Fixpoint verdicts (tests : list (string * io bool)) : exn + list bool :=
  match tests with
  | [] => inr []
  | (_, test) :: tests' =>
      match test.2 with
      | inl e => inl e
      | inr passed =>
          match verdicts tests' with
          | inl e => inl e
          | inr rest => inr (passed :: rest)
          end
      end
  end.

(** [m1] ends as [m2] does and logs no record that [m2] does not log. *)
Definition quieter {A} (m1 m2 : io A) : Prop :=
  m1.2 = m2.2 ∧ m1.1 `sublist_of` m2.1.

End TestPlan.

(** * Properties *)

(** A closed equation between decidable data, settled by evaluation. *)
Ltac by_evaluation := apply (bool_decide_unpack _); vm_compute; exact I.

(** ** Keys *)

Section KeyFacts.

Implicit Types (k : list key_part) (r : row) (rs : list row).

Lemma key_conflict_true k r1 r2 :
  key_conflict k r1 r2 = true ↔ key_of k r1 = key_of k r2 ∧ VNull ∉ key_of k r1.
Proof.
  unfold key_conflict. rewrite andb_true_iff, !bool_decide_eq_true. done.
Qed.

Lemma key_conflict_sym k r1 r2 : key_conflict k r1 r2 = key_conflict k r2 r1.
Proof.
  apply eq_true_iff_eq. rewrite !key_conflict_true.
  split; intros [E N]; split; try done; congruence.
Qed.

Lemma forallb_elem_of {A} (f : A → bool) (l : list A) :
  forallb f l = true ↔ ∀ x, x ∈ l → f x = true.
Proof.
  rewrite forallb_forall. split; intros H x Hx; apply H; by apply list_elem_of_In.
Qed.

Lemma unique_rows_snoc k rs r :
  unique_rows k (rs ++ [r])
  = unique_rows k rs && forallb (fun r' => negb (key_conflict k r r')) rs.
Proof.
  induction rs as [|a rs IH]; simpl; [done|].
  rewrite forallb_app, IH. simpl. rewrite (key_conflict_sym k a r).
  destruct (forallb _ rs), (unique_rows k rs), (key_conflict k r a); simpl;
    rewrite ?andb_true_r, ?andb_false_r; done.
Qed.

Lemma unique_rows_sublist k rs1 rs2 :
  sublist rs1 rs2 → unique_rows k rs2 = true → unique_rows k rs1 = true.
Proof.
  induction 1 as [|x l1 l2 Hs IH|x l1 l2 Hs IH]; simpl; [done| |].
  - rewrite !andb_true_iff, !forallb_elem_of. intros [Hx Hu]. split; [|by auto].
    intros y Hy. apply Hx. by eapply elem_of_sublist.
  - rewrite andb_true_iff. intros [_ Hu]. auto.
Qed.

Lemma unique_rows_filter k (P : row → Prop) `{!∀ r, Decision (P r)} rs :
  unique_rows k rs = true → unique_rows k (filter P rs) = true.
Proof. apply unique_rows_sublist, sublist_filter. Qed.

(** Rows that share a key without NULL are rare. *)
Lemma unique_rows_count k rs (vs : list value) :
  unique_rows k rs = true → VNull ∉ vs →
  (length (filter (fun r => key_of k r = vs) rs) ≤ 1)%nat.
Proof.
  intros Hu Hn. induction rs as [|a rs IH]; simpl; [lia|].
  simpl in Hu. apply andb_true_iff in Hu as [Ha Hu].
  rewrite filter_cons. case_decide as Hk; [|by auto].
  assert (filter (fun r => key_of k r = vs) rs = []) as ->; [|simpl; lia].
  destruct (filter _ rs) as [|b l] eqn:Hf; [done|exfalso].
  assert (b ∈ filter (fun r => key_of k r = vs) rs) as Hb by (rewrite Hf; left).
  apply list_elem_of_filter in Hb as [Hb1 Hb2].
  rewrite forallb_elem_of in Ha. specialize (Ha b Hb2).
  apply negb_true_iff in Ha.
  assert (key_conflict k a b = true) as Hc; [|congruence].
  apply key_conflict_true. split; congruence.
Qed.

(** Writing NULL into a column cannot create a collision. *)
Lemma part_value_set_null (p : key_part) c r :
  part_value p (<[c := VNull]> r) = if decide (part_column p = c) then VNull else part_value p r.
Proof.
  unfold part_value, get. destruct p as [c'|c'|c' n]; simpl;
    case_decide; subst; rewrite ?lookup_insert_eq, ?lookup_insert_ne by done; done.
Qed.

Lemma key_of_set_null k c r :
  VNull ∉ key_of k (<[c := VNull]> r) → key_of k (<[c := VNull]> r) = key_of k r.
Proof.
  unfold key_of. induction k as [|p k IH]; simpl; [done|].
  rewrite not_elem_of_cons, part_value_set_null. intros [Hp Hk].
  case_decide; [done|]. f_equal. auto.
Qed.

Lemma key_conflict_set_null k victims fk r1 r2 :
  key_conflict k (set_null victims fk r1) (set_null victims fk r2) = true →
  key_conflict k r1 r2 = true.
Proof.
  rewrite !key_conflict_true. intros [E N].
  assert (VNull ∉ key_of k (set_null victims fk r2)) as N2 by congruence.
  assert (∀ r, VNull ∉ key_of k (set_null victims fk r) →
               key_of k (set_null victims fk r) = key_of k r) as Hs.
  { intros r. unfold set_null. destruct (references _ _ _); [|done].
    apply key_of_set_null. }
  rewrite <- (Hs r1 N), <- (Hs r2 N2). done.
Qed.

Lemma unique_rows_set_null k victims fk rs :
  unique_rows k rs = true → unique_rows k (map (set_null victims fk) rs) = true.
Proof.
  induction rs as [|a rs IH]; simpl; [done|].
  rewrite !andb_true_iff, !forallb_elem_of. intros [Ha Hu]. split; [|auto].
  intros y Hy. apply list_elem_of_fmap in Hy as [b [-> Hb]].
  apply negb_true_iff. apply not_true_is_false. intros Hc.
  apply key_conflict_set_null in Hc. specialize (Ha b Hb).
  apply negb_true_iff in Ha. congruence.
Qed.

(** No collision found means the new row can join. *)
Lemma find_conflict_None keys rs r :
  find_conflict keys rs r = None →
  ∀ nk, nk ∈ keys → forallb (fun r' => negb (key_conflict nk.2 r r')) rs = true.
Proof.
  induction keys as [|[n k] keys IH]; simpl; intros Hf nk Hnk.
  - by apply elem_of_nil in Hnk.
  - destruct (list_find _ rs) as [[i x]|] eqn:Hl; [done|].
    apply elem_of_cons in Hnk as [->|Hnk]; [|by auto].
    simpl. apply forallb_elem_of. intros y Hy.
    rewrite list_find_None in Hl. rewrite Forall_forall in Hl.
    specialize (Hl y Hy). by destruct (key_conflict k r y).
Qed.

Lemma table_unique_true d rs :
  table_unique d rs = true ↔ ∀ nk, nk ∈ unique_keys d → unique_rows nk.2 rs = true.
Proof. unfold table_unique. apply forallb_elem_of. Qed.

Lemma table_unique_snoc d rs r :
  table_unique d rs = true → find_conflict (unique_keys d) rs r = None →
  table_unique d (rs ++ [r]) = true.
Proof.
  rewrite !table_unique_true. intros Hu Hf nk Hnk.
  rewrite unique_rows_snoc, (Hu nk Hnk). simpl.
  by eapply find_conflict_None.
Qed.

End KeyFacts.

(** ** The engine keeps every table within its keys *)

Section EngineInvariant.

Implicit Types (db : database) (d : table_def) (rs : list row).

Lemma find_table_Some name cat d :
  find_table name cat = Some d → tbl_name d = name ∧ d ∈ cat.
Proof.
  induction cat as [|a cat IH]; simpl; [done|].
  case_bool_decide.
  - intros [= ->]. split; [done|left].
  - intros [? ?]%IH. split; [done|by right].
Qed.

Lemma find_table_app name cat1 cat2 :
  find_table name (cat1 ++ cat2)
  = match find_table name cat1 with
    | Some d => Some d
    | None => find_table name cat2
    end.
Proof.
  induction cat1 as [|a cat1 IH]; simpl; [done|]. by case_bool_decide.
Qed.

Lemma lookup_table_Some name db d :
  lookup_table name db = Some d → tbl_name d = name ∧ d ∈ db_catalog db.
Proof. apply find_table_Some. Qed.

Lemma rows_of_set_rows name name' rs db :
  rows_of name (set_rows name' rs db)
  = if decide (name' = name) then rs else rows_of name db.
Proof.
  unfold rows_of, set_rows. simpl. rewrite lookup_insert. by case_decide.
Qed.

Lemma keys_hold_set_rows tbl rs db :
  keys_hold db →
  (∀ d, lookup_table tbl db = Some d → table_unique d rs = true) →
  keys_hold (set_rows tbl rs db).
Proof.
  intros Hk Hrs name d Hl. rewrite rows_of_set_rows.
  case_decide; subst; [by apply Hrs|by apply Hk].
Qed.

Lemma keys_hold_bump d r db : keys_hold db → keys_hold (bump_auto_increment d r db).
Proof.
  unfold bump_auto_increment. destruct (auto_column d); [|done].
  by destruct (get _ r).
Qed.

Lemma same_schema_refl db : same_schema db db.
Proof. done. Qed.

Lemma same_schema_trans db1 db2 db3 :
  same_schema db1 db2 → same_schema db2 db3 → same_schema db1 db3.
Proof. intros [? ?] [? ?]. split; congruence. Qed.

Lemma same_schema_lookup db db' name :
  same_schema db db' → lookup_table name db' = lookup_table name db.
Proof. intros [H _]. unfold lookup_table. by rewrite H. Qed.

Lemma same_schema_bump d r db : same_schema db (bump_auto_increment d r db).
Proof.
  unfold bump_auto_increment. destruct (auto_column d); [|done].
  by destruct (get _ r).
Qed.

Lemma update_at_keeps now d sets i db db' :
  lookup_table (tbl_name d) db = Some d →
  update_at now d sets i db = Ok db' →
  keys_hold db → keys_hold db' ∧ same_schema db db'.
Proof.
  intros Hd. unfold update_at. destruct (_ !! i); [|by intros [= <-]].
  destruct (check_row _ _); [done|].
  destruct (table_unique _ _) eqn:Hu; [|done]. intros [= <-] Hk.
  split; [|done]. apply keys_hold_set_rows; [done|]. congruence.
Qed.

Lemma insert_row_keeps now mode d given db db' :
  lookup_table (tbl_name d) db = Some d →
  insert_row now mode d given db = Ok db' →
  keys_hold db → keys_hold db' ∧ same_schema db db'.
Proof.
  intros Hd. unfold insert_row. destruct (check_row _ _); [done|].
  destruct (find_conflict _ _ _) as [[key i]|] eqn:Hf.
  - destruct mode as [| |sets]; try done.
    destruct (forallb _ sets); [|done]. by apply update_at_keeps.
  - destruct (check_parents _ _ _); [done|]. intros [= <-] Hk. split.
    + apply keys_hold_bump, keys_hold_set_rows; [done|].
      intros d' Hd'. assert (d' = d) as -> by congruence.
      apply table_unique_snoc; [by apply Hk|done].
    + apply (same_schema_bump d _ (set_rows _ _ db)).
Qed.

Lemma insert_tuples_keeps now mode d cols tuples db db' :
  lookup_table (tbl_name d) db = Some d →
  insert_tuples now mode d cols tuples db = Ok db' →
  keys_hold db → keys_hold db' ∧ same_schema db db'.
Proof.
  revert db. induction tuples as [|t ts IH]; simpl; intros db Hd.
  - by intros [= <-].
  - case_bool_decide; [|done].
    destruct (insert_row _ _ _ _ _) as [db1|e] eqn:Hi.
    + intros Ht Hk. destruct (insert_row_keeps _ _ _ _ _ _ Hd Hi Hk) as [Hk1 Hs1].
      destruct (IH db1) as [Hk' Hs']; [by rewrite (same_schema_lookup _ _ _ Hs1)|done|done|].
      split; [done|]. by eapply same_schema_trans.
    + destruct mode; try done. by apply IH.
Qed.

Lemma update_where_keeps now d sets col v db db' :
  lookup_table (tbl_name d) db = Some d →
  update_where now d sets col v db = Ok db' →
  keys_hold db → keys_hold db' ∧ same_schema db db'.
Proof.
  intros Hd. unfold update_where. destruct (first_error _); [done|].
  destruct (table_unique _ _) eqn:Hu; [|done]. intros [= <-] Hk.
  split; [|done]. apply keys_hold_set_rows; [done|]. congruence.
Qed.

Lemma on_parent_delete_keeps rec tbl victims acc fk db' :
  (∀ t p db1 db2, rec t p db1 = Ok db2 → keys_hold db1 → keys_hold db2 ∧ same_schema db1 db2) →
  on_parent_delete rec tbl victims acc fk = Ok db' →
  ∃ db, acc = Ok db ∧ (keys_hold db → keys_hold db' ∧ same_schema db db').
Proof.
  intros Hrec. unfold on_parent_delete. destruct acc as [db|e]; [|done].
  intros Hres. exists db. split; [done|]. revert Hres.
  case_bool_decide; [|by intros [= <-]].
  destruct (fk_on_delete fk).
  - intros [= <-] Hk. split; [|done]. apply keys_hold_set_rows; [done|].
    intros d Hd. apply table_unique_true. intros nk Hnk.
    apply unique_rows_set_null. specialize (Hk _ _ Hd).
    rewrite table_unique_true in Hk. by apply Hk.
  - apply Hrec.
  - destruct (existsb _ _); [done|]. by intros [= <-].
Qed.

Lemma foldl_on_parent_delete_keeps rec tbl victims fks acc db' :
  (∀ t p db1 db2, rec t p db1 = Ok db2 → keys_hold db1 → keys_hold db2 ∧ same_schema db1 db2) →
  foldl (on_parent_delete rec tbl victims) acc fks = Ok db' →
  ∃ db, acc = Ok db ∧ (keys_hold db → keys_hold db' ∧ same_schema db db').
Proof.
  intros Hrec. revert acc. induction fks as [|fk fks IH]; simpl; intros acc H.
  - exists db'. done.
  - apply IH in H as (db1 & H1 & Hk1).
    apply (on_parent_delete_keeps _ _ _ _ _ _ Hrec) in H1 as (db & -> & Hk).
    exists db. split; [done|]. intros Hdb. destruct (Hk Hdb) as [? ?].
    destruct (Hk1 ltac:(done)) as [? ?]. split; [done|]. by eapply same_schema_trans.
Qed.

Lemma delete_where_keeps fuel tbl p db db' :
  delete_where fuel tbl p db = Ok db' →
  keys_hold db → keys_hold db' ∧ same_schema db db'.
Proof.
  revert tbl p db db'. induction fuel as [|fuel IH]; simpl; intros tbl p db db'; [done|].
  case_bool_decide as Hv; [by intros [= <-]|].
  intros Hres Hk.
  apply (foldl_on_parent_delete_keeps _ _ _ _ _ _ IH) in Hres as (db1 & [= <-] & Hres).
  apply Hres. apply keys_hold_set_rows; [done|].
  intros d Hd. apply table_unique_true. intros nk Hnk.
  apply unique_rows_filter. specialize (Hk _ _ Hd).
  rewrite table_unique_true in Hk. by apply Hk.
Qed.

Lemma same_schema_grows db db' : same_schema db db' → catalog_grows db db'.
Proof. intros Hs name d. by rewrite (same_schema_lookup _ _ _ Hs). Qed.

Lemma table_unique_nil d : table_unique d [] = true.
Proof. apply table_unique_true. done. Qed.

Lemma create_table_keeps d db :
  keys_hold db → keys_hold (create_table d db) ∧ catalog_grows db (create_table d db).
Proof.
  intros Hk. unfold create_table.
  destruct (lookup_table (tbl_name d) db) eqn:Hn; [split; [done|by intros ??]|]. split.
  - intros name d'. unfold lookup_table, rows_of. simpl.
    rewrite find_table_app, lookup_insert. simpl.
    destruct (find_table name (db_catalog db)) eqn:Hold.
    + intros [= <-]. case_decide as Hc.
      * subst name. unfold lookup_table in Hn. congruence.
      * by apply Hk.
    + case_bool_decide; [|done]. intros [= <-].
      rewrite decide_True by done. apply table_unique_nil.
  - intros name d'. unfold lookup_table. simpl. rewrite find_table_app.
    by intros ->.
Qed.

Lemma add_constraint_keeps fk db db' :
  add_constraint fk db = Ok db' →
  keys_hold db → keys_hold db' ∧ catalog_grows db db'.
Proof.
  unfold add_constraint. intros H Hk.
  repeat (match type of H with
          | match ?x with _ => _ end = _ => destruct x; try done
          | (if ?x then _ else _) = _ => destruct x; try done
          end).
  all: injection H as <-; split; [done|by intros ??].
Qed.

(** Every statement the server accepts leaves every table within its
    keys, and leaves the definitions of the tables as they were. *)
Lemma exec_db_keeps now s db db' :
  exec_db now s db = Ok db' →
  keys_hold db → keys_hold db' ∧ catalog_grows db db'.
Proof.
  destruct s as [n|n|d|fk|mode tbl cols tuples|tbl sets col v|tbl col v];
    cbn [exec_db].
  - destruct (unquoted_identifier n); [|done].
    intros [= <-]. split; [done|by intros ??].
  - intros [= <-]. split; [done|by intros ??].
  - intros [= <-]. apply create_table_keeps.
  - apply add_constraint_keeps.
  - destruct (lookup_table tbl db) as [d|] eqn:Hd; [|done].
    destruct (forallb _ cols); [|done]. intros H Hk.
    pose proof (lookup_table_Some _ _ _ Hd) as [<- _].
    destruct (insert_tuples_keeps _ _ _ _ _ _ _ Hd H Hk) as [? ?].
    split; [done|by apply same_schema_grows].
  - destruct (lookup_table tbl db) as [d|] eqn:Hd; [|done].
    destruct (forallb _ _); [|done]. intros H Hk.
    pose proof (lookup_table_Some _ _ _ Hd) as [<- _].
    destruct (update_where_keeps _ _ _ _ _ _ _ Hd H Hk) as [? ?].
    split; [done|by apply same_schema_grows].
  - destruct (lookup_table tbl db) as [d|] eqn:Hd; [|done].
    destruct (known_column d col); [|done]. intros H Hk.
    destruct (delete_where_keeps _ _ _ _ _ H Hk) as [? ?].
    split; [done|by apply same_schema_grows].
Qed.

Lemma apply_stmt_keeps db ts :
  keys_hold db →
  keys_hold (apply_stmt db ts) ∧ catalog_grows db (apply_stmt db ts).
Proof.
  intros Hk. unfold apply_stmt.
  destruct (exec_db ts.1 ts.2 db) as [db1|e] eqn:He.
  - by eapply exec_db_keeps.
  - split; [done|by intros ??].
Qed.

Lemma run_history_keeps h db :
  keys_hold db →
  keys_hold (run_history h db) ∧ catalog_grows db (run_history h db).
Proof.
  revert db. induction h as [|ts h IH]; intros db Hk.
  - split; [done|by intros ??].
  - destruct (apply_stmt_keeps db ts Hk) as [Hk1 Hg1].
    destruct (IH _ Hk1) as [Hk2 Hg2]. split; [done|].
    intros name d Hd. by apply Hg2, Hg1.
Qed.

(** The decidable form of the invariant, for concrete databases. *)
Lemma keys_hold_check db :
  forallb (fun d => table_unique d (rows_of (tbl_name d) db)) (db_catalog db) = true →
  keys_hold db.
Proof.
  rewrite forallb_elem_of. intros H name d [<- Hd]%lookup_table_Some. by apply H.
Qed.

End EngineInvariant.

(** ** Counting rows under a key *)

Section Counting.

Implicit Types (db : database) (d : table_def) (rs : list row).

Lemma cond_as_key (cond : list (string * value)) (r : row) :
  Forall (fun cv => get cv.1 r = cv.2) cond ↔ key_of (Asc <$> cond.*1) r = cond.*2.
Proof.
  induction cond as [|[c v] cond IH]; [done|].
  rewrite Forall_cons, IH.
  change (key_of (Asc <$> ((c, v) :: cond).*1) r)
    with (get c r :: key_of (Asc <$> cond.*1) r).
  simpl. split; [by intros [-> ->]|by intros [= -> ->]].
Qed.

(** At most one row carries given non-NULL values in the columns of an
    enforced key. *)
Lemma count_where_unique tbl cond db :
  keys_hold db →
  Asc <$> cond.*1 ∈ enforced_keys tbl db →
  VNull ∉ cond.*2 →
  (count_where tbl cond db ≤ 1)%nat.
Proof.
  intros Hk He Hn. unfold enforced_keys in He.
  destruct (lookup_table tbl db) as [d|] eqn:Hd; [|by apply elem_of_nil in He].
  apply list_elem_of_fmap in He as ([n k] & Hkk & Hin). simpl in Hkk. subst k.
  specialize (Hk _ _ Hd). rewrite table_unique_true in Hk. specialize (Hk _ Hin).
  unfold count_where.
  rewrite (list_filter_iff _ (fun r => key_of (Asc <$> cond.*1) r = cond.*2)).
  - by apply unique_rows_count.
  - intros r. apply cond_as_key.
Qed.

Lemma count_where_snoc tbl cond db r rs :
  rows_of tbl db = (rs ++ [r])%list →
  count_where tbl cond db
  = (length (filter (fun r => Forall (fun cv => get cv.1 r = cv.2) cond) rs)
     + if decide (Forall (fun cv => get cv.1 r = cv.2) cond) then 1 else 0)%nat.
Proof.
  unfold count_where. intros ->. rewrite filter_app, length_app, filter_cons, filter_nil.
  by case_decide.
Qed.

Lemma enforced_keys_grow tbl db db' k :
  catalog_grows db db' → k ∈ enforced_keys tbl db → k ∈ enforced_keys tbl db'.
Proof.
  unfold enforced_keys. intros Hg.
  destruct (lookup_table tbl db) as [d|] eqn:Hd; [|by intros ?%elem_of_nil].
  by rewrite (Hg _ _ Hd).
Qed.

End Counting.

Section Bootstrapped.

Lemma bootstrapped_keys_hold : keys_hold bootstrapped.
Proof. apply keys_hold_check. vm_compute. done. Qed.

Lemma history_keys_hold h : keys_hold (run_history h bootstrapped).
Proof. apply run_history_keeps, bootstrapped_keys_hold. Qed.

Lemma history_enforced_keys h tbl k :
  k ∈ enforced_keys tbl bootstrapped → k ∈ enforced_keys tbl (run_history h bootstrapped).
Proof.
  apply enforced_keys_grow. apply run_history_keeps, bootstrapped_keys_hold.
Qed.

Lemma analysis_key_enforced :
  [Asc "channel_id"; Asc "task_id"] ∈ enforced_keys "ai_analysis" bootstrapped.
Proof. vm_compute. apply list_elem_of_In. simpl. tauto. Qed.

Lemma channel_key_enforced :
  [Asc "channel_id"] ∈ enforced_keys "channels" bootstrapped.
Proof. vm_compute. apply list_elem_of_In. simpl. tauto. Qed.

End Bootstrapped.

Section Inserted.

Implicit Types (db : database) (d : table_def).

Lemma rows_of_bump name d r db :
  rows_of name (bump_auto_increment d r db) = rows_of name db.
Proof.
  unfold bump_auto_increment. destruct (auto_column d); [|done].
  by destruct (get _ r).
Qed.

(** A plain INSERT that is accepted appends exactly the row it built. *)
Lemma insert_row_plain_rows now d given db db' :
  insert_row now PLAIN d given db = Ok db' →
  rows_of (tbl_name d) db'
  = (rows_of (tbl_name d) db ++ [new_row now (next_id (tbl_name d) db) d given])%list.
Proof.
  unfold insert_row. destruct (check_row _ _); [done|].
  destruct (find_conflict _ _ _) as [[key i]|]; [done|].
  destruct (check_parents _ _ _); [done|]. intros [= <-].
  rewrite rows_of_bump, rows_of_set_rows. by rewrite decide_True.
Qed.

Lemma exec_insert_plain_rows now tbl cols t db db' d :
  lookup_table tbl db = Some d →
  exec_db now (INSERT_INTO PLAIN tbl cols [t]) db = Ok db' →
  rows_of tbl db'
  = (rows_of tbl db ++ [new_row now (next_id tbl db) d (given_row now cols t)])%list.
Proof.
  intros Hd. cbn [exec_db]. rewrite Hd.
  pose proof (lookup_table_Some _ _ _ Hd) as [<- _].
  destruct (forallb _ cols); [|done]. cbn [insert_tuples].
  case_bool_decide; [|done].
  destruct (insert_row _ _ _ _ _) as [db1|e] eqn:Hi; [|done].
  intros [= <-]. by apply insert_row_plain_rows.
Qed.

End Inserted.

Section Race.

Variables cid tid : string.

Let pair_cond : list (string * value) :=
  [("channel_id", VStr cid); ("task_id", VStr tid)].

Local Abbreviation answered := (answered cid tid).
Local Abbreviation race_inv := (race_inv cid tid).

Lemma find_analysis_Some db id :
  find_analysis cid tid db = Some id →
  ∃ r, r ∈ rows_of "ai_analysis" db
       ∧ get "channel_id" r = VStr cid ∧ get "task_id" r = VStr tid
       ∧ get "id" r = id.
Proof.
  unfold find_analysis. destruct (filter _ _) as [|r l] eqn:Hf; [done|].
  simpl. intros [= <-]. exists r.
  assert (r ∈ filter (fun r => get "channel_id" r = VStr cid ∧ get "task_id" r = VStr tid)
                     (rows_of "ai_analysis" db)) as Hr by (rewrite Hf; left).
  apply list_elem_of_filter in Hr as [[? ?] ?]. done.
Qed.

Lemma answered_mono pc db db' :
  (∀ r, r ∈ rows_of "ai_analysis" db → r ∈ rows_of "ai_analysis" db') →
  answered pc db → answered pc db'.
Proof.
  intros Hsub Ha id Hid. destruct (Ha id Hid) as (r & Hr & ?). exists r. auto.
Qed.

(** One statement of one caller: the table stays within its keys, rows
    stay, and an answer given names a row of the pair. *)
Lemma schedule_step_inv now pc db pc' db' :
  schedule_step now cid tid pc db = (pc', db') →
  keys_hold db → lookup_table "ai_analysis" db = Some ai_analysis →
  answered pc db →
  keys_hold db' ∧ lookup_table "ai_analysis" db' = Some ai_analysis
  ∧ answered pc' db'
  ∧ (∀ r, r ∈ rows_of "ai_analysis" db → r ∈ rows_of "ai_analysis" db').
Proof.
  intros Hs Hk Hd Ha. destruct pc as [| | |a]; cbn [schedule_step] in Hs.
  - destruct (find_analysis cid tid db) as [id|] eqn:Hf; injection Hs as <- <-;
      (split; [done|split; [done|split; [|done]]]).
    + intros id' [= <-]. by apply find_analysis_Some.
    + by intros id' ?.
  - destruct (exec_db now _ db) as [db1|e] eqn:He; injection Hs as <- <-.
    + destruct (exec_db_keeps _ _ _ _ He Hk) as [Hk1 Hg1].
      split; [done|]. split; [by apply Hg1|]. split; [by intros id' ?|].
      intros r Hr. rewrite (exec_insert_plain_rows _ _ _ _ _ _ _ Hd He).
      apply elem_of_app. by left.
    + split; [done|]. split; [done|]. split; [|done].
      intros id'. by destruct (contains _ _).
  - destruct (find_analysis cid tid db) as [id|] eqn:Hf; injection Hs as <- <-;
      (split; [done|split; [done|split; [|done]]]).
    + intros id' [= <-]. by apply find_analysis_Some.
    + by intros id' ?.
  - injection Hs as <- <-. done.
Qed.

Lemma race_step_inv st who : race_inv st → race_inv (race_step cid tid st who).
Proof.
  intros (Hk & Hd & Ha & Hb). unfold race_step. destruct who.
  - destruct (schedule_step _ _ _ (race_a st) _) as [pc db] eqn:Hs.
    destruct (schedule_step_inv _ _ _ _ _ Hs Hk Hd Ha) as (? & ? & ? & Hsub).
    repeat split; simpl; try done. by eapply answered_mono.
  - destruct (schedule_step _ _ _ (race_b st) _) as [pc db] eqn:Hs.
    destruct (schedule_step_inv _ _ _ _ _ Hs Hk Hd Hb) as (? & ? & ? & Hsub).
    repeat split; simpl; try done. by eapply answered_mono.
Qed.

Lemma run_race_inv interleaving now db :
  keys_hold db → lookup_table "ai_analysis" db = Some ai_analysis →
  race_inv (run_race cid tid interleaving now db).
Proof.
  intros Hk Hd. unfold run_race.
  assert (race_inv (Race Lookup Lookup db now)) as Hinit.
  { repeat split; simpl; try done; by intros id ?. }
  revert Hinit. generalize (Race Lookup Lookup db now).
  induction interleaving as [|who l IH]; simpl; intros st Hst; [done|].
  apply IH. by apply race_step_inv.
Qed.

(** Two answers are the same answer. *)
Lemma race_inv_agree st a b :
  race_inv st → race_a st = Done (Ok a) → race_b st = Done (Ok b) →
  a = b ∧ count_where "ai_analysis" pair_cond (race_db st) = 1%nat.
Proof.
  intros (Hk & Hd & Ha & Hb) Ea Eb.
  destruct (Ha a Ea) as (ra & Hra & Hra1 & Hra2 & Hra3).
  destruct (Hb b Eb) as (rb & Hrb & Hrb1 & Hrb2 & Hrb3).
  assert (count_where "ai_analysis" pair_cond (race_db st) ≤ 1)%nat as Hle.
  { apply count_where_unique; [done| |].
    - unfold enforced_keys. rewrite Hd. vm_compute. apply list_elem_of_In. simpl. tauto.
    - subst pair_cond. simpl. rewrite !not_elem_of_cons. split_and!; try done. apply not_elem_of_nil. }
  unfold count_where in *.
  set (P := fun r : row => Forall (fun cv : string * value => get cv.1 r = cv.2) pair_cond) in *.
  assert (P ra) as Pa by (subst P pair_cond; simpl; repeat constructor; done).
  assert (P rb) as Pb by (subst P pair_cond; simpl; repeat constructor; done).
  assert (ra ∈ filter P (rows_of "ai_analysis" (race_db st))) as Fa
    by (by apply list_elem_of_filter).
  assert (rb ∈ filter P (rows_of "ai_analysis" (race_db st))) as Fb
    by (by apply list_elem_of_filter).
  destruct (filter P _) as [|x [|y l]]; simpl in Hle.
  - by apply elem_of_nil in Fa.
  - apply list_elem_of_singleton in Fa, Fb. split; [congruence|done].
  - lia.
Qed.

End Race.

(** ** The channel registry on the engine *)

Section Upsert.

Implicit Types (db : database) (d : table_def).

Lemma length_filter_fmap_stable {A} (P : A → Prop) `{!∀ x, Decision (P x)}
    (f : A → A) (l : list A) :
  (∀ x, P (f x) ↔ P x) → length (filter P (f <$> l)) = length (filter P l).
Proof.
  intros Hf. induction l as [|x l IH]; [done|].
  rewrite fmap_cons, !filter_cons.
  destruct (decide (P (f x))) as [H1|H1], (decide (P x)) as [H2|H2]; simpl.
  - by rewrite IH.
  - exfalso. by apply H2, Hf.
  - exfalso. by apply H1, Hf.
  - done.
Qed.

Lemma get_insert_ne c c' v (r : row) : c ≠ c' → get c' (<[c := v]> r) = get c' r.
Proof. intros. unfold get. by rewrite lookup_insert_ne. Qed.

(** The merge of [upsert_channel] leaves the identifier of a row alone. *)
Lemma upsert_update_keeps_id now data (r : row) :
  let sets :=
    [ ("subscriber_count", Lit (VInt (cd_subscriber_count data)));
      ("status", Lit (VStr (cd_status data)));
      ("channel_title", Lit (VStr (cd_title data)));
      ("description", Lit (VStr (cd_description data)));
      ("detected_language", Lit (VStr (cd_language data)));
      ("last_seen_at", GREATEST (Col "last_seen_at") CURRENT_TIMESTAMP) ] in
  get "channel_id" (update_row now channels sets r) = get "channel_id" r.
Proof.
  intros sets. unfold update_row, touch.
  assert (get "channel_id" (apply_sets now sets r) = get "channel_id" r) as Ha.
  { unfold apply_sets. simpl. rewrite !get_insert_ne by done. done. }
  case_bool_decide; [done|]. simpl.
  rewrite get_insert_ne by done. done.
Qed.

Lemma channel_known_count cid db :
  channel_known cid db = true ↔
  (0 < count_where "channels" [("channel_id", VStr cid)] db)%nat.
Proof.
  unfold channel_known, count_where. induction (rows_of "channels" db) as [|r rs IH];
    simpl; [split; [done|lia]|].
  rewrite filter_cons, orb_true_iff, IH, bool_decide_eq_true.
  case_decide as Hc; simpl.
  - split; [lia|]. intros _. left. by inversion Hc.
  - split; [|by right]. intros [Hr|?]; [|done]. destruct Hc. by repeat constructor.
Qed.

Lemma upsert_inserted_id now next data :
  get "channel_id"
    (new_row now next channels
       (given_row now
          [ "channel_id"; "channel_title"; "channel_url"; "subscriber_count";
            "description"; "detected_language"; "status";
            "first_discovered_at"; "last_seen_at" ]
          [ Lit (VStr (cd_channel_id data));
            Lit (VStr (cd_title data));
            Lit (VStr (cd_url data));
            Lit (VInt (cd_subscriber_count data));
            Lit (VStr (cd_description data));
            Lit (VStr (cd_language data));
            Lit (VStr (cd_status data));
            CURRENT_TIMESTAMP;
            CURRENT_TIMESTAMP ]))
  = VStr (cd_channel_id data).
Proof. vm_compute. reflexivity. Qed.

(** After [upsert_channel] there is exactly one row of the channel, and a
    channel that was known got no second row. *)
Lemma upsert_channel_one_row now data db db' :
  keys_hold db → lookup_table "channels" db = Some channels →
  upsert_channel now data db = Ok db' →
  count_where "channels" [("channel_id", VStr (cd_channel_id data))] db' = 1%nat
  ∧ (channel_known (cd_channel_id data) db = true →
     length (rows_of "channels" db') = length (rows_of "channels" db)).
Proof.
  intros Hk Hd. unfold upsert_channel.
  destruct (channel_known _ db) eqn:Hkn.
  - cbn [exec_db]. rewrite Hd. destruct (forallb _ _); [|done].
    unfold update_where. destruct (first_error _); [done|].
    destruct (table_unique _ _); [|done]. intros [= <-].
    change (tbl_name channels) with "channels".
    unfold count_where. rewrite rows_of_set_rows, decide_True by done.
    split; [|by rewrite length_map].
    rewrite length_filter_fmap_stable.
    + apply channel_known_count in Hkn.
      assert (count_where "channels" [("channel_id", VStr (cd_channel_id data))] db ≤ 1)%nat.
      { apply count_where_unique; [done| |].
        - unfold enforced_keys. rewrite Hd. vm_compute. apply list_elem_of_In. simpl. tauto.
        - simpl. rewrite not_elem_of_cons. split; [done|apply not_elem_of_nil]. }
      unfold count_where in *. lia.
    + intros r. destruct (matches _ _ r); [|done].
      rewrite !Forall_singleton. simpl. by rewrite upsert_update_keeps_id.
  - intros He. split; [|done].
    erewrite count_where_snoc; [|by apply (exec_insert_plain_rows _ _ _ _ _ _ _ Hd He)].
    rewrite decide_True.
    + assert (count_where "channels" [("channel_id", VStr (cd_channel_id data))] db = 0)%nat.
      { destruct (count_where _ _ db) eqn:Hc; [done|].
        assert (channel_known (cd_channel_id data) db = true); [|congruence].
        apply channel_known_count. lia. }
      unfold count_where in *. lia.
    + apply Forall_singleton. simpl. apply upsert_inserted_id.
Qed.

Lemma upsert_channel_keeps now data db db' :
  keys_hold db → lookup_table "channels" db = Some channels →
  upsert_channel now data db = Ok db' →
  keys_hold db' ∧ lookup_table "channels" db' = Some channels.
Proof.
  intros Hk Hd. unfold upsert_channel.
  destruct (channel_known _ db); intros He;
    destruct (exec_db_keeps _ _ _ _ He Hk) as [? Hg]; (split; [done|by apply Hg]).
Qed.

End Upsert.

(** ** Schedulers finish *)

Section Progress.

Implicit Types (cid tid : string).

Lemma schedule_step_progress cid tid now pc db :
  (schedule_remaining (schedule_step now cid tid pc db).1
   ≤ schedule_remaining pc - 1)%nat.
Proof.
  destruct pc as [| | |a]; cbn [schedule_step].
  - destruct (find_analysis _ _ _); simpl; lia.
  - destruct (exec_db _ _ _); simpl; [lia|].
    destruct (contains _ _); simpl; lia.
  - destruct (find_analysis _ _ _); simpl; lia.
  - simpl. lia.
Qed.

Lemma race_step_remaining cid tid st who :
  (schedule_remaining (race_a (race_step cid tid st who))
   ≤ schedule_remaining (race_a st) - (if who is CallerA then 1 else 0))%nat
  ∧ (schedule_remaining (race_b (race_step cid tid st who))
     ≤ schedule_remaining (race_b st) - (if who is CallerB then 1 else 0))%nat.
Proof.
  unfold race_step. destruct who.
  - pose proof (schedule_step_progress cid tid (race_clock st) (race_a st) (race_db st)) as Hp.
    destruct (schedule_step _ _ _ (race_a st) _) as [pc db]. simpl in *. lia.
  - pose proof (schedule_step_progress cid tid (race_clock st) (race_b st) (race_db st)) as Hp.
    destruct (schedule_step _ _ _ (race_b st) _) as [pc db]. simpl in *. lia.
Qed.

Lemma foldl_race_remaining cid tid interleaving st :
  (schedule_remaining (race_a (foldl (race_step cid tid) st interleaving))
   ≤ schedule_remaining (race_a st) - turns CallerA interleaving)%nat
  ∧ (schedule_remaining (race_b (foldl (race_step cid tid) st interleaving))
     ≤ schedule_remaining (race_b st) - turns CallerB interleaving)%nat.
Proof.
  revert st. induction interleaving as [|who l IH]; intros st.
  { unfold turns. rewrite !filter_nil. simpl. lia. }
  cbn [foldl]. destruct (IH (race_step cid tid st who)) as [Ha Hb].
  destruct (race_step_remaining cid tid st who) as [Ha1 Hb1].
  unfold turns in *. rewrite !filter_cons.
  destruct who; repeat case_decide; try done; simpl in *; lia.
Qed.

Lemma schedule_remaining_0 pc : schedule_remaining pc = 0%nat → ∃ a, pc = Done a.
Proof. destruct pc; try done. by eexists. Qed.

(** A caller that got three turns has its answer. *)
Lemma run_race_finishes cid tid interleaving now db :
  ((3 ≤ turns CallerA interleaving)%nat →
   ∃ a, race_a (run_race cid tid interleaving now db) = Done a)
  ∧ ((3 ≤ turns CallerB interleaving)%nat →
     ∃ b, race_b (run_race cid tid interleaving now db) = Done b).
Proof.
  unfold run_race.
  destruct (foldl_race_remaining cid tid interleaving (Race Lookup Lookup db now)) as [Ha Hb].
  simpl in Ha, Hb. split; intros Ht; apply schedule_remaining_0; lia.
Qed.

End Progress.

(** ** Schedulers converge *)

Section Converge.

Variables cid tid : string.

Implicit Types (db : database) (r : row) (pc : schedule_pc).

Lemma pending_row_id now next : get "id" (pending_row now next cid tid) = VInt next.
Proof. vm_compute. reflexivity. Qed.

Lemma pending_row_channel now next :
  get "channel_id" (pending_row now next cid tid) = VStr cid.
Proof. vm_compute. reflexivity. Qed.

Lemma pending_row_task now next :
  get "task_id" (pending_row now next cid tid) = VStr tid.
Proof. vm_compute. reflexivity. Qed.

Lemma pending_row_checks now next :
  check_row (tbl_columns ai_analysis) (pending_row now next cid tid) = None.
Proof. vm_compute. reflexivity. Qed.

Lemma contains_duplicate_entry tbl key : contains "Duplicate" (duplicate_entry tbl key) = true.
Proof. reflexivity. Qed.

(** The statement is one INSERT of one row. *)
Lemma exec_schedule_insert now db :
  lookup_table "ai_analysis" db = Some ai_analysis →
  exec_db now (schedule_insert cid tid) db
  = insert_row now PLAIN ai_analysis
      (given_row now ["channel_id"; "task_id"; "analysis_detail"]
         [Lit (VStr cid); Lit (VStr tid); Lit (VStr "{}")]) db.
Proof.
  intros Hd. unfold schedule_insert. cbn [exec_db]. rewrite Hd.
  match goal with |- context [forallb ?f ?l] => change (forallb f l) with true end.
  cbv iota. cbn [insert_tuples]. rewrite bool_decide_eq_true_2 by done.
  by destruct (insert_row _ _ _ _ _).
Qed.

Lemma find_analysis_None db r :
  find_analysis cid tid db = None → r ∈ rows_of "ai_analysis" db →
  ¬ (get "channel_id" r = VStr cid ∧ get "task_id" r = VStr tid).
Proof.
  unfold find_analysis. intros Hf Hr Hp.
  destruct (filter _ _) as [|x l] eqn:Hl; [|done].
  assert (r ∈ filter (fun r => get "channel_id" r = VStr cid ∧ get "task_id" r = VStr tid)
                     (rows_of "ai_analysis" db)) as Hin by (by apply list_elem_of_filter).
  rewrite Hl in Hin. by apply elem_of_nil in Hin.
Qed.

Lemma find_analysis_is_Some db r :
  r ∈ rows_of "ai_analysis" db →
  get "channel_id" r = VStr cid → get "task_id" r = VStr tid →
  is_Some (find_analysis cid tid db).
Proof.
  intros Hr Hc Ht. destruct (find_analysis cid tid db) as [id|] eqn:Hf; [by eexists|].
  by destruct (find_analysis_None db r Hf Hr).
Qed.


Lemma counter_ahead_free tbl db :
  counter_ahead tbl db = true →
  Forall (fun r => get "id" r ≠ VInt (next_id tbl db)) (rows_of tbl db).
Proof.
  unfold counter_ahead. rewrite forallb_elem_of, Forall_forall. intros H r Hr.
  specialize (H r Hr). destruct (get "id" r) as [|z|]; try done.
  apply bool_decide_eq_true in H. intros [= ->]. lia.
Qed.

(** The channel and the task are the parents the row needs. *)
Lemma pending_row_parents now next db :
  schedulable cid tid db →
  check_parents db "ai_analysis" (pending_row now next cid tid) = None.
Proof.
  intros (Hf & Hc & Ht & _). unfold check_parents. rewrite Hf.
  destruct (list_find _ _) as [[i fk]|] eqn:Hl; [exfalso|done].
  apply list_find_Some in Hl as (Hi & [Htbl Hp] & _).
  apply list_elem_of_lookup_2 in Hi. apply Hp. apply Is_true_true.
  unfold parent_exists.
  repeat (apply elem_of_cons in Hi as [->|Hi]; [try discriminate Htbl|]).
  - cbn [fk_column fk_ref_column fk_ref_table fk_analysis_channel].
    rewrite pending_row_channel, existsb_app. unfold channel_known in Hc.
    rewrite Hc. by rewrite orb_true_r.
  - cbn [fk_column fk_ref_column fk_ref_table fk_analysis_task].
    rewrite pending_row_task, existsb_app. unfold task_known in Ht.
    rewrite Ht. by rewrite orb_true_r.
  - by apply elem_of_nil in Hi.
Qed.

(** With no row of the pair, the INSERT goes through and appends the
    pending row under the next identifier. *)
Lemma schedule_insert_fresh now db :
  lookup_table "ai_analysis" db = Some ai_analysis →
  schedulable cid tid db →
  find_analysis cid tid db = None →
  exec_db now (schedule_insert cid tid) db = Ok (scheduled now cid tid db).
Proof.
  intros Hd Hs Hnone. rewrite exec_schedule_insert by done. unfold insert_row.
  change (tbl_name ai_analysis) with "ai_analysis".
  fold (pending_row now (next_id "ai_analysis" db) cid tid).
  rewrite pending_row_checks.
  change (unique_keys ai_analysis)
    with [("PRIMARY", [Asc "id"]);
          ("uk_channel_task", [Asc "channel_id"; Asc "task_id"])].
  cbn [find_conflict].
  destruct (list_find _ _) as [[i x]|] eqn:Hl.
  { exfalso. apply list_find_Some in Hl as (Hi & Hc & _).
    apply Is_true_true, key_conflict_true in Hc as [Hc _].
    unfold key_of in Hc. cbn [map part_value] in Hc. rewrite pending_row_id in Hc.
    destruct Hs as (_ & _ & _ & Hn). apply counter_ahead_free in Hn.
    rewrite Forall_forall in Hn. destruct (Hn x); [by eapply list_elem_of_lookup_2|].
    congruence. }
  match goal with
  | |- context [list_find ?P ?l] => destruct (list_find P l) as [[i x]|] eqn:Hl2
  end.
  { exfalso. apply list_find_Some in Hl2 as (Hi & Hc & _).
    apply Is_true_true, key_conflict_true in Hc as [Hc _].
    unfold key_of in Hc. cbn [map part_value] in Hc.
    rewrite pending_row_channel, pending_row_task in Hc. injection Hc as Hc1 Hc2.
    apply (find_analysis_None db x Hnone); [by eapply list_elem_of_lookup_2|done]. }
  by rewrite pending_row_parents.
Qed.

(** With a row of the pair in the table, the INSERT is refused as a
    duplicate. *)
Lemma schedule_insert_duplicate now db :
  lookup_table "ai_analysis" db = Some ai_analysis →
  is_Some (find_analysis cid tid db) →
  ∃ key, exec_db now (schedule_insert cid tid) db
         = Err (duplicate_entry "ai_analysis" key).
Proof.
  intros Hd [id Hid]. rewrite exec_schedule_insert by done. unfold insert_row.
  change (tbl_name ai_analysis) with "ai_analysis".
  fold (pending_row now (next_id "ai_analysis" db) cid tid).
  rewrite pending_row_checks.
  destruct (find_conflict _ _ _) as [[key i]|] eqn:Hf; [by exists key|exfalso].
  pose proof (find_conflict_None _ _ _ Hf
                ("uk_channel_task", [Asc "channel_id"; Asc "task_id"])) as Hno.
  rewrite forallb_elem_of in Hno.
  destruct (find_analysis_Some cid tid db id Hid) as (r & Hr & Hc & Ht & _).
  specialize (Hno ltac:(vm_compute; apply list_elem_of_In; simpl; tauto) r Hr).
  apply negb_true_iff in Hno.
  assert (key_conflict [Asc "channel_id"; Asc "task_id"]
            (pending_row now (next_id "ai_analysis" db) cid tid) r = true) as Hyes;
    [|cbn [snd] in Hno; congruence].
  apply key_conflict_true. unfold key_of. cbn [map part_value].
  rewrite pending_row_channel, pending_row_task, Hc, Ht. split; [done|].
  rewrite !not_elem_of_cons. split_and!; try done. apply not_elem_of_nil.
Qed.


Lemma scheduled_rows now db t :
  rows_of t (scheduled now cid tid db)
  = if decide (t = "ai_analysis")
    then (rows_of "ai_analysis" db
          ++ [pending_row now (next_id "ai_analysis" db) cid tid])%list
    else rows_of t db.
Proof.
  unfold scheduled. rewrite rows_of_bump, rows_of_set_rows.
  destruct (decide (t = "ai_analysis")) as [->|Ht]; [by rewrite decide_True|].
  by rewrite decide_False.
Qed.

Lemma scheduled_schema now db : same_schema db (scheduled now cid tid db).
Proof. apply (same_schema_bump ai_analysis _ (set_rows _ _ db)). Qed.

Lemma scheduled_next_id now db :
  next_id "ai_analysis" (scheduled now cid tid db) = (next_id "ai_analysis" db + 1)%Z.
Proof.
  unfold scheduled, bump_auto_increment.
  change (auto_column ai_analysis) with (Some "id"). cbv iota.
  rewrite pending_row_id. change (tbl_name ai_analysis) with "ai_analysis".
  unfold next_id at 1, set_next_id. cbn [db_auto_increment].
  rewrite lookup_insert_eq. cbn [default]. unfold next_id, set_rows.
  cbn [db_auto_increment]. unfold id. lia.
Qed.

Lemma scheduled_schedulable now db :
  schedulable cid tid db → schedulable cid tid (scheduled now cid tid db).
Proof.
  intros (Hf & Hc & Ht & Hn). split_and!.
  - destruct (scheduled_schema now db) as [_ ->]. done.
  - unfold channel_known. by rewrite scheduled_rows, decide_False.
  - unfold task_known. by rewrite scheduled_rows, decide_False.
  - unfold counter_ahead in *. rewrite scheduled_next_id, scheduled_rows, decide_True by done.
    rewrite !forallb_elem_of in *. intros r [Hr|Hr]%elem_of_app.
    + specialize (Hn r Hr). destruct (get "id" r) as [|z|]; try done.
      apply bool_decide_eq_true in Hn. apply bool_decide_eq_true. lia.
    + apply list_elem_of_singleton in Hr as ->. rewrite pending_row_id.
      apply bool_decide_eq_true. lia.
Qed.

Lemma scheduled_find now db :
  find_analysis cid tid db = None →
  find_analysis cid tid (scheduled now cid tid db)
  = Some (VInt (next_id "ai_analysis" db)).
Proof.
  unfold find_analysis. rewrite scheduled_rows, decide_True by done.
  rewrite filter_app. destruct (filter _ (rows_of "ai_analysis" db)); [|done].
  intros _. rewrite filter_cons, decide_True
    by (split; [apply pending_row_channel|apply pending_row_task]).
  rewrite app_nil_l. cbn [head fmap option_fmap option_map]. by rewrite pending_row_id.
Qed.

(** One statement of one caller keeps what both callers rely on. *)
Lemma schedule_step_settled now pc other db :
  lookup_table "ai_analysis" db = Some ai_analysis →
  schedulable cid tid db →
  settled cid tid pc db → settled cid tid other db →
  lookup_table "ai_analysis" (schedule_step now cid tid pc db).2 = Some ai_analysis
  ∧ schedulable cid tid (schedule_step now cid tid pc db).2
  ∧ settled cid tid (schedule_step now cid tid pc db).1 (schedule_step now cid tid pc db).2
  ∧ settled cid tid other (schedule_step now cid tid pc db).2.
Proof.
  intros Hd Hs Hpc Hother. destruct pc as [| | |a]; cbn [schedule_step].
  - destruct (find_analysis cid tid db) as [id|] eqn:Hf; cbn [fst snd settled];
      split_and!; try done; by exists id.
  - destruct (find_analysis cid tid db) as [id|] eqn:Hf.
    + destruct (schedule_insert_duplicate now db Hd) as [key ->]; [by rewrite Hf|].
      rewrite contains_duplicate_entry. cbn [fst snd settled]. by split_and!.
    + rewrite schedule_insert_fresh by done. cbn [fst snd settled]. split_and!.
      * destruct (scheduled_schema now db) as [Hc _]. unfold lookup_table in *.
        by rewrite Hc.
      * by apply scheduled_schedulable.
      * by rewrite scheduled_find.
      * destruct other as [| | |b]; try done.
        -- cbn [settled] in Hother. rewrite Hf in Hother. by destruct Hother.
        -- destruct Hother as (id & _ & Hid). congruence.
  - cbn [settled] in Hpc. destruct Hpc as [id Hid]. rewrite Hid.
    cbn [fst snd settled]. split_and!; try done; by exists id.
  - cbn [fst snd]. by split_and!.
Qed.

Lemma race_step_settled st who :
  race_settled cid tid st → race_settled cid tid (race_step cid tid st who).
Proof.
  intros (Hd & Hs & Ha & Hb). unfold race_step. destruct who.
  - pose proof (schedule_step_settled (race_clock st) (race_a st) (race_b st)
                  (race_db st) Hd Hs Ha Hb) as H.
    destruct (schedule_step _ _ _ (race_a st) _) as [pc db]. cbn [fst snd] in H.
    destruct H as (? & ? & ? & ?). by split_and!.
  - pose proof (schedule_step_settled (race_clock st) (race_b st) (race_a st)
                  (race_db st) Hd Hs Hb Ha) as H.
    destruct (schedule_step _ _ _ (race_b st) _) as [pc db]. cbn [fst snd] in H.
    destruct H as (? & ? & ? & ?). by split_and!.
Qed.

Lemma run_race_settled interleaving now db :
  lookup_table "ai_analysis" db = Some ai_analysis →
  schedulable cid tid db →
  race_settled cid tid (run_race cid tid interleaving now db).
Proof.
  intros Hd Hs. unfold run_race.
  assert (race_settled cid tid (Race Lookup Lookup db now)) as Hinit by (by split_and!).
  revert Hinit. generalize (Race Lookup Lookup db now).
  induction interleaving as [|who l IH]; simpl; intros st Hst; [done|].
  apply IH. by apply race_step_settled.
Qed.

(** Two callers that both got three turns hold the same identifier, the
    one the table gives for the pair. *)
Lemma run_race_converges interleaving now db :
  lookup_table "ai_analysis" db = Some ai_analysis →
  schedulable cid tid db →
  (3 ≤ turns CallerA interleaving)%nat → (3 ≤ turns CallerB interleaving)%nat →
  ∃ id, race_a (run_race cid tid interleaving now db) = Done (Ok id)
        ∧ race_b (run_race cid tid interleaving now db) = Done (Ok id)
        ∧ find_analysis cid tid (race_db (run_race cid tid interleaving now db)) = Some id.
Proof.
  intros Hd Hs Ha Hb.
  destruct (run_race_settled interleaving now db Hd Hs) as (_ & _ & Sa & Sb).
  destruct (run_race_finishes cid tid interleaving now db) as [Fa Fb].
  destruct (Fa Ha) as [a Ea]. destruct (Fb Hb) as [b Eb].
  rewrite Ea in Sa. rewrite Eb in Sb. cbn [settled] in Sa, Sb.
  destruct Sa as (id & -> & Hid). destruct Sb as (id' & -> & Hid').
  exists id. rewrite Ea, Eb. split_and!; [done| |done]. congruence.
Qed.

End Converge.

(** * The schema against its specification *)

(** ** Status columns *)

(** C6. In the schema the script creates, the members of the three
    status enums are exactly those of the data model: task status is
    pending, running, completed, failed, paused; channel status is
    active, disappeared, deleted, private; analysis status is pending,
    processing, completed, failed. *)
Theorem status_enums_exact :
  enum_members "search_tasks" "status" bootstrapped
    = Some ["pending"; "running"; "completed"; "failed"; "paused"]
  ∧ enum_members "channels" "status" bootstrapped
    = Some ["active"; "disappeared"; "deleted"; "private"]
  ∧ enum_members "ai_analysis" "analysis_status" bootstrapped
    = Some ["pending"; "processing"; "completed"; "failed"].
Proof. vm_compute. done. Qed.

(** ** Video statistics *)

(** C1. The schema does not enforce (channel_id, task_id) on
    [channel_video_stats]: the only key the server checks there is the
    primary key [id], while [ai_analysis] has the composite key.  With
    channel UC1 and task T1 in place, a snapshot for the pair is
    accepted, a second one is accepted as well, and the table then holds
    two rows for the pair; the second analysis for the pair is refused. *)
Theorem second_snapshot_is_inserted :
  enforced_keys "channel_video_stats" bootstrapped = [[Asc "id"]]
  ∧ enforced_keys "ai_analysis" bootstrapped
    = [[Asc "id"]; [Asc "channel_id"; Asc "task_id"]]
  ∧ accepted 102 (insert_stats "UC1" "T1") one_channel_one_task = true
  ∧ accepted 103 (insert_stats "UC1" "T1")
      (apply_stmt one_channel_one_task (102%Z, insert_stats "UC1" "T1")) = true
  ∧ count_where "channel_video_stats"
      [("channel_id", VStr "UC1"); ("task_id", VStr "T1")]
      (run_history [(102%Z, insert_stats "UC1" "T1"); (103%Z, insert_stats "UC1" "T1")]
         one_channel_one_task) = 2%nat
  ∧ accepted 102 (schedule_insert "UC1" "T1") one_channel_one_task = true
  ∧ accepted 103 (schedule_insert "UC1" "T1")
      (apply_stmt one_channel_one_task (102%Z, schedule_insert "UC1" "T1")) = false.
Proof. vm_compute. done. Qed.

(** ** Re-running the script *)

(** C3. The seed row is inserted again by every run.  [product_config]
    has no key besides the generated [id], so ON DUPLICATE KEY UPDATE
    never finds a duplicate: one run leaves one seed row, the second run
    succeeds and leaves two, the third three.  Tables, constraints and
    the ledger are the same after the second run. *)
Theorem seed_row_inserted_again :
  enforced_keys "product_config" (current (rerun 1)) = [[Asc "id"]]
  ∧ count_where "product_config" [("product_name", VStr "WMaster Cleanup")]
      (current (rerun 1)) = 1%nat
  ∧ (bootstrap default_arguments (rerun 1)).2 = Return 0%Z
  ∧ count_where "product_config" [("product_name", VStr "WMaster Cleanup")]
      (current (rerun 2)) = 2%nat
  ∧ count_where "product_config" [("product_name", VStr "WMaster Cleanup")]
      (current (rerun 3)) = 3%nat
  ∧ db_catalog (current (rerun 2)) = db_catalog (current (rerun 1))
  ∧ db_constraints (current (rerun 2)) = db_constraints (current (rerun 1))
  ∧ ledger (rerun 2) = ledger (rerun 1).
Proof. split_and!; by_evaluation. Qed.

(** ** Analyses *)

(** C2. [ai_analysis] carries the unique key (channel_id, task_id).  In
    every state reached from the bootstrapped schema by any statements,
    at most one row exists per pair.  When two callers schedule the same
    pair under any interleaving of their statements, a caller has its
    answer after three turns, and two answers that are rows are the same
    row identifier, with exactly one row for the pair in the table.
    When the channel and the task of the pair exist, the foreign keys
    are those of the script and the identifiers of [ai_analysis] are
    below its counter, both callers are answered with a row, the same
    one: the table then has exactly one row of the pair, and each caller
    holds the identifier of that row. *)
Theorem analysis_unique_per_pair (h : list (Z * stmt)) (cid tid : string)
    (interleaving : list caller) (now : Z) (a b : value) :
  [Asc "channel_id"; Asc "task_id"]
    ∈ enforced_keys "ai_analysis" (run_history h bootstrapped)
  ∧ (count_where "ai_analysis" [("channel_id", VStr cid); ("task_id", VStr tid)]
       (run_history h bootstrapped) ≤ 1)%nat
  ∧ ((3 ≤ turns CallerA interleaving)%nat →
     ∃ answer,
       race_a (run_race cid tid interleaving now (run_history h bootstrapped))
       = Done answer)
  ∧ ((3 ≤ turns CallerB interleaving)%nat →
     ∃ answer,
       race_b (run_race cid tid interleaving now (run_history h bootstrapped))
       = Done answer)
  ∧ (race_a (run_race cid tid interleaving now (run_history h bootstrapped))
     = Done (Ok a) →
     race_b (run_race cid tid interleaving now (run_history h bootstrapped))
     = Done (Ok b) →
     a = b
     ∧ count_where "ai_analysis" [("channel_id", VStr cid); ("task_id", VStr tid)]
         (race_db (run_race cid tid interleaving now (run_history h bootstrapped)))
       = 1%nat)
  ∧ (schedulable cid tid (run_history h bootstrapped) →
     (3 ≤ turns CallerA interleaving)%nat →
     (3 ≤ turns CallerB interleaving)%nat →
     ∃ r,
       r ∈ rows_of "ai_analysis"
             (race_db (run_race cid tid interleaving now (run_history h bootstrapped)))
       ∧ get "channel_id" r = VStr cid
       ∧ get "task_id" r = VStr tid
       ∧ race_a (run_race cid tid interleaving now (run_history h bootstrapped))
         = Done (Ok (get "id" r))
       ∧ race_b (run_race cid tid interleaving now (run_history h bootstrapped))
         = Done (Ok (get "id" r))
       ∧ count_where "ai_analysis" [("channel_id", VStr cid); ("task_id", VStr tid)]
           (race_db (run_race cid tid interleaving now (run_history h bootstrapped)))
         = 1%nat).
Proof.
  pose proof (history_keys_hold h) as Hk.
  pose proof (history_enforced_keys h _ _ analysis_key_enforced) as He.
  assert (lookup_table "ai_analysis" (run_history h bootstrapped) = Some ai_analysis)
    as Hd.
  { destruct (run_history_keeps h bootstrapped bootstrapped_keys_hold) as [_ Hg].
    apply Hg. vm_compute. reflexivity. }
  assert (∀ a b,
    race_a (run_race cid tid interleaving now (run_history h bootstrapped))
    = Done (Ok a) →
    race_b (run_race cid tid interleaving now (run_history h bootstrapped))
    = Done (Ok b) →
    a = b
    ∧ count_where "ai_analysis" [("channel_id", VStr cid); ("task_id", VStr tid)]
        (race_db (run_race cid tid interleaving now (run_history h bootstrapped)))
      = 1%nat) as Hagree.
  { intros a' b' Ha Hb. eapply race_inv_agree; [|done|done]. by apply run_race_inv. }
  split; [done|]. split.
  { apply count_where_unique; [done|done|].
    simpl. rewrite !not_elem_of_cons. split_and!; try done. apply not_elem_of_nil. }
  split; [apply run_race_finishes|]. split; [apply run_race_finishes|].
  split; [apply Hagree|].
  intros Hs Hta Htb.
  destruct (run_race_converges cid tid interleaving now _ Hd Hs Hta Htb)
    as (id & Ea & Eb & Hid).
  destruct (find_analysis_Some cid tid _ id Hid) as (r & Hr & Hc & Ht & <-).
  exists r. split_and!; try done. by destruct (Hagree _ _ Ea Eb).
Qed.

(** Channel UC1 and task T1 exist and the callers alternate: both are
    answered with row 1, the one row of the pair. *)
Lemma analysis_unique_per_pair_witness :
  race_a (run_race "UC1" "T1" [CallerA; CallerB; CallerB; CallerA; CallerA; CallerB] 200
            one_channel_one_task)
  = Done (Ok (VInt 1))
  ∧ race_b (run_race "UC1" "T1" [CallerA; CallerB; CallerB; CallerA; CallerA; CallerB] 200
              one_channel_one_task)
    = Done (Ok (VInt 1))
  ∧ count_where "ai_analysis" [("channel_id", VStr "UC1"); ("task_id", VStr "T1")]
      (race_db (run_race "UC1" "T1"
                  [CallerA; CallerB; CallerB; CallerA; CallerA; CallerB] 200
                  one_channel_one_task))
    = 1%nat.
Proof.
  destruct (analysis_unique_per_pair
              [(100%Z, insert_channel "UC1"); (101%Z, insert_task "T1" VNull)]
              "UC1" "T1" [CallerA; CallerB; CallerB; CallerA; CallerA; CallerB]
              200 (VInt 1) (VInt 1)) as (_ & _ & _ & _ & _ & H).
  destruct H as (r & _ & _ & _ & Ha & Hb & Hn).
  - split_and!; vm_compute; reflexivity.
  - vm_compute. lia.
  - vm_compute. lia.
  - assert (race_a (run_race "UC1" "T1"
                      [CallerA; CallerB; CallerB; CallerA; CallerA; CallerB] 200
                      (run_history
                         [(100%Z, insert_channel "UC1"); (101%Z, insert_task "T1" VNull)]
                         bootstrapped))
            = Done (Ok (VInt 1))) as E by (vm_compute; reflexivity).
    pose proof (eq_trans (eq_sym Ha) E) as Hid. injection Hid as Hid.
    rewrite <- Hid. split_and!; [exact Ha|exact Hb|exact Hn].
Defined.

(** ** Channels *)

(** C5. [channel_id] is a unique key of [channels]: in every state
    reached from the bootstrapped schema no two rows share a channel
    identifier.  After [upsert_channel] there is exactly one row of the
    channel, and a second encounter of the channel updates that row: the
    table does not grow. *)
Theorem channel_id_globally_unique (h : list (Z * stmt)) (cid : string)
    (now now' : Z) (data data' : channel_data) (db' db'' : database) :
  [Asc "channel_id"] ∈ enforced_keys "channels" (run_history h bootstrapped)
  ∧ (count_where "channels" [("channel_id", VStr cid)] (run_history h bootstrapped)
     ≤ 1)%nat
  ∧ (upsert_channel now data (run_history h bootstrapped) = Ok db' →
     count_where "channels" [("channel_id", VStr (cd_channel_id data))] db' = 1%nat
     ∧ (cd_channel_id data' = cd_channel_id data →
        upsert_channel now' data' db' = Ok db'' →
        count_where "channels" [("channel_id", VStr (cd_channel_id data))] db'' = 1%nat
        ∧ length (rows_of "channels" db'') = length (rows_of "channels" db'))).
Proof.
  pose proof (history_keys_hold h) as Hk.
  pose proof (history_enforced_keys h _ _ channel_key_enforced) as He.
  assert (lookup_table "channels" (run_history h bootstrapped) = Some channels) as Hd.
  { destruct (run_history_keeps h bootstrapped bootstrapped_keys_hold) as [_ Hg].
    apply Hg. vm_compute. reflexivity. }
  split; [done|]. split.
  { apply count_where_unique; [done|done|].
    simpl. rewrite not_elem_of_cons. split; [done|apply not_elem_of_nil]. }
  intros H1. destruct (upsert_channel_one_row _ _ _ _ Hk Hd H1) as [Hc1 _].
  split; [done|]. intros Hid H2.
  destruct (upsert_channel_keeps _ _ _ _ Hk Hd H1) as [Hk' Hd'].
  destruct (upsert_channel_one_row _ _ _ _ Hk' Hd' H2) as [Hc2 Hlen].
  rewrite Hid in *. split; [done|]. apply Hlen.
  apply channel_known_count. lia.
Qed.

(** Channel UC1 is found by one task at time 100 and by another at time
    200: one row, and the table has the size it had. *)
Lemma channel_id_globally_unique_witness :
  count_where "channels" [("channel_id", VStr "UC1")]
    (from_ok (upsert_channel 200 (sample_channel 20)
                (from_ok (upsert_channel 100 (sample_channel 10) bootstrapped))))
  = 1%nat
  ∧ length (rows_of "channels"
              (from_ok (upsert_channel 200 (sample_channel 20)
                          (from_ok (upsert_channel 100 (sample_channel 10) bootstrapped)))))
    = length (rows_of "channels"
                (from_ok (upsert_channel 100 (sample_channel 10) bootstrapped))).
Proof.
  destruct (channel_id_globally_unique [] "UC1" 100 200
              (sample_channel 10) (sample_channel 20)
              (from_ok (upsert_channel 100 (sample_channel 10) bootstrapped))
              (from_ok (upsert_channel 200 (sample_channel 20)
                          (from_ok (upsert_channel 100 (sample_channel 10) bootstrapped)))))
    as (_ & _ & H).
  destruct H as [_ H]; [by_evaluation|].
  apply H; [reflexivity|by_evaluation].
Defined.

(** * The script *)

(** ** Rules for Python's control flow *)

Section ScriptLogic.

Context {conn : Type}.
Variable execute : stmt → conn → conn * option string.
Variable commit : conn → conn * option string.

Implicit Types (w : world conn).

Lemma yields_ret {A} (a : A) (Q : list (level * string) → A → Prop) :
  Q [] a → yields (ret (conn := conn) a) Q.
Proof. intros HQ w. exists w, a, []. by rewrite app_nil_r. Qed.

Lemma yields_logger l msg (Q : list (level * string) → unit → Prop) :
  Q [(l, msg)] tt → yields (logger (conn := conn) l msg) Q.
Proof. intros HQ w. by eexists _, tt, _. Qed.

Lemma yields_bind {A B} (m : py conn A) (k : A → py conn B) Q1 Q2
    (Q : list (level * string) → B → Prop) :
  yields m Q1 → (∀ a, yields (k a) Q2) →
  (∀ l1 a l2 b, Q1 l1 a → Q2 l2 b → Q (l1 ++ l2)%list b) →
  yields (bind m k) Q.
Proof.
  intros Hm Hk HQ w. destruct (Hm w) as (w1 & a & l1 & E1 & L1 & HQ1).
  destruct (Hk a w1) as (w2 & b & l2 & E2 & L2 & HQ2).
  exists w2, b, (l1 ++ l2)%list. unfold bind. rewrite E1, E2, L2, L1, app_assoc.
  eauto.
Qed.

Lemma yields_weaken {A} (m : py conn A) (Q Q' : list (level * string) → A → Prop) :
  yields m Q → (∀ l a, Q l a → Q' l a) → yields m Q'.
Proof.
  intros Hm HQ w. destruct (Hm w) as (w1 & a & l1 & E1 & L1 & HQ1). eauto 10.
Qed.

(** Past a step that returns. *)
Lemma yields_skip {A B} (m : py conn A) (k : A → py conn B) Q0
    (Q : list (level * string) → B → Prop) :
  yields m Q0 → (∀ a, yields (k a) Q) →
  (∀ l1 l2 b, Q l2 b → Q (l1 ++ l2)%list b) →
  yields (bind m k) Q.
Proof. intros Hm Hk HQ. eapply yields_bind; eauto. Qed.

Lemma yields_try_except {A} (m : py conn A) handler
    (Q : list (level * string) → A → Prop) :
  yields m Q → yields (try_except m handler) Q.
Proof.
  intros Hm w. destruct (Hm w) as (w1 & a & l1 & E1 & L1 & HQ1).
  exists w1, a, l1. unfold try_except. by rewrite E1.
Qed.

Lemma yields_try_finally {A} (m : py conn A) cleanup
    (Q Q' : list (level * string) → A → Prop) :
  yields m Q → yields cleanup (fun _ _ => True) →
  (∀ l1 l2 a, Q l1 a → Q' (l1 ++ l2)%list a) →
  yields (try_finally m cleanup) Q'.
Proof.
  intros Hm Hc HQ w. destruct (Hm w) as (w1 & a & l1 & E1 & L1 & HQ1).
  destruct (Hc w1) as (w2 & [] & l2 & E2 & L2 & _).
  exists w2, a, (l1 ++ l2)%list. unfold try_finally.
  rewrite E1, E2, L2, L1, app_assoc. eauto.
Qed.

Lemma yields_for_each {A} (l : list A) (body : A → py conn unit) :
  (∀ x, x ∈ l → yields (body x) (fun _ _ => True)) →
  yields (for_each l body) (fun _ _ => True).
Proof.
  induction l as [|x l IH]; intros Hb; simpl.
  - by apply yields_ret.
  - eapply yields_bind; [apply Hb; left| |done].
    intros _. apply IH. intros y Hy. apply Hb. by right.
Qed.

Lemma yields_cursor_execute s :
  (∀ c, (execute s c).2 = None) →
  yields (cursor_execute execute s) (fun _ _ => True).
Proof.
  intros Hs w. specialize (Hs (w_conn w)). unfold cursor_execute.
  destruct (execute s (w_conn w)) as [c r]. simpl in Hs. subst r.
  eexists _, tt, []. simpl. by rewrite app_nil_r.
Qed.

Lemma yields_connection_commit :
  (∀ c, (commit c).2 = None) →
  yields (connection_commit commit) (fun _ _ => True).
Proof.
  intros Hs w. specialize (Hs (w_conn w)). unfold connection_commit.
  destruct (commit (w_conn w)) as [c r]. simpl in Hs. subst r.
  eexists _, tt, []. simpl. by rewrite app_nil_r.
Qed.

(** [add_foreign_keys], statement by statement: nothing is raised, and
    the log tells a duplicate from any other refusal. *)
Lemma for_each_constraint ss w :
  for_each ss (fun constraint_sql =>
    try_except
      (bind (cursor_execute execute constraint_sql)
            (fun _ => logger INFO "✓ Foreign key constraint added"))
      (fun e =>
         if negb (contains "Duplicate" e)
         then logger WARNING ("⚠ Constraint warning: " ++ e)
         else ret tt)) w
  = (World (execute_all execute ss (w_conn w)).1
           (w_log w ++ concat (constraint_log <$> (execute_all execute ss (w_conn w)).2)),
     Return tt).
Proof.
  revert w. induction ss as [|s ss IH]; intros w; simpl.
  - unfold ret. destruct w. simpl. by rewrite app_nil_r.
  - unfold bind at 1, try_except, bind, cursor_execute.
    destruct (execute s (w_conn w)) as [c1 [e|]] eqn:He; simpl.
    + destruct (contains "Duplicate" e) eqn:Hc; simpl; rewrite IH; simpl;
        destruct (execute_all execute ss c1) as [c2 rs]; simpl; rewrite ?Hc; simpl.
      * done.
      * by rewrite <- app_assoc.
    + rewrite IH. simpl. destruct (execute_all execute ss c1) as [c2 rs]; simpl.
      by rewrite <- app_assoc.
Qed.

Lemma add_foreign_keys_run w :
  add_foreign_keys execute w
  = (World (execute_all execute constraints (w_conn w)).1
           (w_log w ++ concat (constraint_log <$> (execute_all execute constraints (w_conn w)).2)),
     Return tt).
Proof. apply for_each_constraint. Qed.

Lemma yields_add_foreign_keys : yields (add_foreign_keys execute) (fun _ _ => True).
Proof. intros w. rewrite add_foreign_keys_run. by eexists _, tt, _. Qed.

Hypothesis others_succeed : ∀ s c, is_constraint s = false → (execute s c).2 = None.
Hypothesis commit_succeeds : ∀ c, (commit c).2 = None.

Local Ltac step :=
  first
    [ apply yields_ret; done
    | apply yields_logger; done
    | apply yields_cursor_execute; intros; by apply others_succeed
    | apply yields_connection_commit; by apply commit_succeeds
    | apply yields_add_foreign_keys
    | apply yields_try_except
    | eapply (yields_bind _ _ (fun _ _ => True) (fun _ _ => True));
      [| intros ? | done ] ].

Lemma yields_create_database name :
  yields (create_database execute name) (fun _ _ => True).
Proof. unfold create_database. repeat step. Qed.

Lemma yields_create_tables : yields (create_tables execute) (fun _ _ => True).
Proof.
  unfold create_tables. apply yields_for_each. intros [name sql] Hin.
  assert (is_constraint sql = false) as Hsql.
  { assert (Forall (fun p => is_constraint p.2 = false) tables) as Hall
      by (repeat constructor).
    rewrite Forall_forall in Hall. apply (Hall _ Hin). }
  apply yields_try_except.
  eapply (yields_bind _ _ (fun _ _ => True) (fun _ _ => True)); [|intros ?|done].
  - apply yields_cursor_execute. intros. by apply others_succeed.
  - by apply yields_logger.
Qed.

Lemma yields_seed_initial_data :
  yields (seed_initial_data execute commit) (fun _ _ => True).
Proof. unfold seed_initial_data. repeat step. Qed.

Lemma yields_create_schema_version_table :
  yields (create_schema_version_table execute commit) (fun _ _ => True).
Proof. unfold create_schema_version_table. repeat step. Qed.

(** With everything but the foreign keys accepted, [main] announces
    success and exits with status 0. *)
Lemma yields_close (is_connected : conn → bool) msg :
  yields (fun w => if is_connected (w_conn w) then logger INFO msg w else ret tt w)
         (fun _ _ => True).
Proof.
  intros w. destruct (is_connected (w_conn w)).
  - by eexists _, tt, _.
  - exists w, tt, []. by rewrite app_nil_r.
Qed.

Lemma yields_main is_connected args :
  yields (main execute commit is_connected args)
         (fun l code => success_record ∈ l ∧ code = 0%Z).
Proof.
  unfold main.
  eapply yields_try_finally with (Q := fun l code => success_record ∈ l ∧ code = 0%Z);
    [|by apply yields_close|].
  2:{ intros l1 l2 a [? ?]. split; [|done]. apply elem_of_app. by left. }
  apply yields_try_except.
  assert (∀ l1 l2 (b : Z), success_record ∈ l2 ∧ b = 0%Z
                           → success_record ∈ (l1 ++ l2)%list ∧ b = 0%Z) as Hmono.
  { intros l1 l2 b [? ?]. split; [|done]. apply elem_of_app. by right. }
  do 12 (eapply (yields_skip _ _ (fun _ _ => True));
         [ first
             [ by apply yields_logger
             | apply yields_create_database
             | apply yields_create_tables
             | apply yields_add_foreign_keys
             | apply yields_seed_initial_data
             | apply yields_create_schema_version_table
             | apply yields_cursor_execute; intros; by apply others_succeed ]
         | intros ?
         | exact Hmono ]).
  eapply yields_bind with (Q1 := fun l _ => success_record ∈ l)
                          (Q2 := fun _ code => code = 0%Z).
  - apply yields_logger. by apply list_elem_of_singleton.
  - intros _.
    repeat (eapply (yields_skip _ _ (fun _ _ => True));
            [ by apply yields_logger | intros ? | done ]).
    by apply yields_ret.
  - intros l1 u l2 code ? ?. split; [|done]. apply elem_of_app. by left.
Qed.

End ScriptLogic.

(** ** Foreign keys that fail *)

(** C9. [add_foreign_keys] never propagates an error of a constraint
    statement, whatever the server answers: it returns normally, and for
    each constraint the log has the confirmation when the statement went
    through, nothing when the error text contains Duplicate, and a
    warning with the error text otherwise.  So when every other
    statement and the commits succeed, [main] announces success and
    exits with status 0, however many constraints were refused. *)
Theorem add_foreign_keys_swallows_errors {conn : Type}
    (execute : stmt → conn → conn * option string)
    (commit : conn → conn * option string)
    (is_connected : conn → bool)
    (args : arguments) (w : world conn) :
  (add_foreign_keys execute w).2 = Return tt
  ∧ w_log (add_foreign_keys execute w).1
    = (w_log w
       ++ concat (constraint_log <$> (execute_all execute constraints (w_conn w)).2))%list
  ∧ ((∀ s c, is_constraint s = false → (execute s c).2 = None) →
     (∀ c, (commit c).2 = None) →
     (main execute commit is_connected args w).2 = Return 0%Z
     ∧ success_record ∈ w_log (main execute commit is_connected args w).1).
Proof.
  rewrite add_foreign_keys_run. split; [done|]. split; [done|].
  intros He Hc. destruct (yields_main execute commit He Hc is_connected args w)
    as (w' & code & l & -> & Hl & Hin & ->).
  split; [done|]. simpl. rewrite Hl. apply elem_of_app. by right.
Qed.

(** A server that refuses all five constraints: the run still ends in
    success. *)
Lemma add_foreign_keys_swallows_errors_witness :
  (main refuse_constraints always_commit always_connected default_arguments
     (World tt [])).2 = Return 0%Z
  ∧ success_record
    ∈ w_log (main refuse_constraints always_commit always_connected default_arguments
               (World tt [])).1.
Proof.
  destruct (add_foreign_keys_swallows_errors refuse_constraints always_commit
              always_connected default_arguments (World tt [])) as (_ & _ & H).
  apply H.
  - intros s c Hs. unfold refuse_constraints. simpl. rewrite Hs. reflexivity.
  - intros c. reflexivity.
Defined.

(** ** The migration ledger *)

Section Ledger.

Implicit Types (db : database) (c : connection) (rs : list row).

Lemma mysql_execute_selected s c name db :
  match s with
  | CREATE_DATABASE_IF_NOT_EXISTS _ | USE _ => False
  | _ => True
  end →
  conn_database c = Some name → conn_databases c !! name = Some db →
  mysql_execute s c
  = match exec_db (conn_clock c) s db with
    | Ok db' => (Connection (<[name := db']> (conn_databases c)) (Some name)
                            (conn_clock c + 1), None)
    | Err e => (Connection (conn_databases c) (Some name) (conn_clock c + 1), Some e)
    end.
Proof.
  intros Hs Hn Hdb. destruct s; try done; unfold mysql_execute; by rewrite Hn, Hdb.
Qed.

Lemma ledger_row_next now next v d :
  new_row now next schema_migrations
    (given_row now ["version"; "description"] [Lit (VInt v); Lit (VStr d)])
  = ledger_row now v d.
Proof. vm_compute. reflexivity. Qed.

Lemma ledger_row_version now v d : get "version" (ledger_row now v d) = VInt v.
Proof. vm_compute. reflexivity. Qed.

Lemma ledger_row_checks now v d :
  check_row (tbl_columns schema_migrations) (ledger_row now v d) = None.
Proof. vm_compute. reflexivity. Qed.

Lemma version_recorded_true v db :
  version_recorded v db = true ↔
  ∃ r, r ∈ rows_of "schema_migrations" db ∧ get "version" r = VInt v.
Proof.
  unfold version_recorded. rewrite existsb_exists. split.
  - intros (r & Hr & Hv). exists r. split; [by apply list_elem_of_In|].
    by apply bool_decide_eq_true in Hv.
  - intros (r & Hr & Hv). exists r. split; [by apply list_elem_of_In|].
    by apply bool_decide_eq_true.
Qed.

Lemma no_ledger_parents db r :
  Forall (fun fk => fk_table fk ≠ "schema_migrations") (db_constraints db) →
  check_parents db "schema_migrations" r = None.
Proof.
  intros Hf. unfold check_parents.
  destruct (list_find _ _) as [[i fk]|] eqn:Hl; [|done].
  apply list_find_Some in Hl as (Hi & [Ht _] & _).
  rewrite Forall_forall in Hf. destruct (Hf fk); [|done].
  by eapply list_elem_of_lookup_2.
Qed.

(** One tuple of the ledger INSERT: refused when the version is there,
    appended when it is not. *)
Lemma ledger_insert_row now mode v d db :
  Forall (fun fk => fk_table fk ≠ "schema_migrations") (db_constraints db) →
  insert_row now mode schema_migrations
    (given_row now ["version"; "description"] [Lit (VInt v); Lit (VStr d)]) db
  = if version_recorded v db
    then match mode with
         | ON_DUPLICATE_KEY_UPDATE sets =>
             insert_row now mode schema_migrations
               (given_row now ["version"; "description"] [Lit (VInt v); Lit (VStr d)]) db
         | _ => Err (duplicate_entry "schema_migrations" "PRIMARY")
         end
    else Ok (record_version now db (v, d)).
Proof.
  intros Hf. unfold record_version. simpl.
  destruct (version_recorded v db) eqn:Hv.
  - destruct mode; [|
    |done]; unfold insert_row; rewrite ledger_row_next, ledger_row_checks;
      change (unique_keys schema_migrations) with [("PRIMARY", [Asc "version"])];
      cbn [find_conflict];
      apply version_recorded_true in Hv as (r & Hr & Hrv);
      (destruct (list_find _ _) as [[i x]|] eqn:Hl; [done|]);
      rewrite list_find_None, Forall_forall in Hl; destruct (Hl r Hr);
      apply Is_true_true, key_conflict_true; unfold key_of; simpl;
      rewrite ledger_row_version, Hrv; (split; [done|]);
      rewrite not_elem_of_cons; (split; [done|apply not_elem_of_nil]).
  - unfold insert_row. rewrite ledger_row_next, ledger_row_checks.
    change (unique_keys schema_migrations) with [("PRIMARY", [Asc "version"])].
    cbn [find_conflict].
    destruct (list_find _ _) as [[i x]|] eqn:Hl.
    + apply list_find_Some in Hl as (Hi & Hc & _).
      apply Is_true_true, key_conflict_true in Hc as [Hc _].
      unfold key_of in Hc. simpl in Hc. rewrite ledger_row_version in Hc.
      assert (version_recorded v db = true); [|congruence].
      apply version_recorded_true. exists x. split; [by eapply list_elem_of_lookup_2|].
      congruence.
    + rewrite no_ledger_parents by done. done.
Qed.

Lemma record_version_schema now db vd :
  same_schema db (record_version now db vd).
Proof. unfold record_version. by destruct (version_recorded _ _). Qed.

Lemma foldl_record_version_schema now vds db :
  same_schema db (foldl (record_version now) db vds).
Proof.
  revert db. induction vds as [|vd vds IH]; intros db; [done|].
  simpl. eapply same_schema_trans; [apply record_version_schema|apply IH].
Qed.

Lemma ledger_insert_tuples now vds db :
  Forall (fun fk => fk_table fk ≠ "schema_migrations") (db_constraints db) →
  insert_tuples now IGNORE schema_migrations ["version"; "description"]
    (map (fun vd => [Lit (VInt vd.1); Lit (VStr vd.2)]) vds) db
  = Ok (foldl (record_version now) db vds).
Proof.
  revert db. induction vds as [|[v d] vds IH]; intros db Hf; [done|].
  cbn [map insert_tuples foldl]. rewrite bool_decide_eq_true_2 by done.
  rewrite ledger_insert_row by done. cbn [fst snd].
  destruct (version_recorded v db) eqn:Hv.
  - assert (record_version now db (v, d) = db) as ->
      by (unfold record_version; simpl; by rewrite Hv).
    by apply IH.
  - apply IH. by destruct (record_version_schema now db (v, d)) as [_ ->].
Qed.

Lemma ledger_exec_seed now db :
  lookup_table "schema_migrations" db = Some schema_migrations →
  Forall (fun fk => fk_table fk ≠ "schema_migrations") (db_constraints db) →
  exec_db now seed_schema_migrations db
  = Ok (foldl (record_version now) db migration_versions).
Proof.
  intros Hd Hf. unfold seed_schema_migrations. cbn [exec_db]. rewrite Hd.
  change (forallb (known_column schema_migrations) ["version"; "description"]) with true.
  cbn iota. by apply ledger_insert_tuples.
Qed.

Lemma ledger_created db :
  lookup_table "schema_migrations" db = None
  ∨ lookup_table "schema_migrations" db = Some schema_migrations →
  lookup_table "schema_migrations" (create_table schema_migrations db)
  = Some schema_migrations.
Proof.
  intros [Hn|Hs]; unfold create_table;
    change (tbl_name schema_migrations) with "schema_migrations".
  - rewrite Hn. unfold lookup_table in *. simpl. rewrite find_table_app, Hn. done.
  - by rewrite Hs.
Qed.

Lemma create_table_constraints d db :
  db_constraints (create_table d db) = db_constraints db.
Proof. unfold create_table. by destruct (lookup_table _ _). Qed.

(** Rows of the ledger only ever join at the end. *)
Lemma record_version_prefix now db vd :
  rows_of "schema_migrations" db
  `prefix_of` rows_of "schema_migrations" (record_version now db vd).
Proof.
  unfold record_version. destruct (version_recorded _ _); [done|].
  rewrite rows_of_set_rows, decide_True by done. by apply prefix_app_r.
Qed.

Lemma foldl_record_version_prefix now vds db :
  rows_of "schema_migrations" db
  `prefix_of` rows_of "schema_migrations" (foldl (record_version now) db vds).
Proof.
  revert db. induction vds as [|vd vds IH]; intros db; [done|].
  simpl. etrans; [apply record_version_prefix|apply IH].
Qed.

Lemma version_recorded_prefix v db db' :
  rows_of "schema_migrations" db `prefix_of` rows_of "schema_migrations" db' →
  version_recorded v db = true → version_recorded v db' = true.
Proof.
  intros [k Hk]. rewrite !version_recorded_true. intros (r & Hr & Hv).
  exists r. split; [|done]. rewrite Hk. apply elem_of_app. by left.
Qed.

Lemma record_version_recorded now db v d :
  version_recorded v (record_version now db (v, d)) = true.
Proof.
  unfold record_version. simpl. destruct (version_recorded v db) eqn:Hv; [done|].
  apply version_recorded_true. exists (ledger_row now v d).
  rewrite rows_of_set_rows, decide_True by done.
  split; [|apply ledger_row_version]. apply elem_of_app. right. left.
Qed.

Lemma foldl_record_version_recorded now vds db v d :
  (v, d) ∈ vds → version_recorded v (foldl (record_version now) db vds) = true.
Proof.
  revert db. induction vds as [|vd vds IH]; intros db Hin.
  - by apply elem_of_nil in Hin.
  - simpl. apply elem_of_cons in Hin as [<-|Hin]; [|by apply IH].
    eapply version_recorded_prefix; [apply foldl_record_version_prefix|].
    apply record_version_recorded.
Qed.

(** With every version recorded, the INSERT changes nothing. *)
Lemma foldl_record_version_id now vds db :
  (∀ v d, (v, d) ∈ vds → version_recorded v db = true) →
  foldl (record_version now) db vds = db.
Proof.
  induction vds as [|[v d] vds IH]; intros Hall; [done|].
  simpl.
  assert (record_version now db (v, d) = db) as ->
    by (unfold record_version; simpl; rewrite (Hall v d) by left; done).
  apply IH. intros v' d' Hin. apply (Hall v' d'). by right.
Qed.

Lemma ledger_pass_recorded now db v d :
  (v, d) ∈ migration_versions → version_recorded v (ledger_pass now db) = true.
Proof. unfold ledger_pass. apply foldl_record_version_recorded. Qed.

Lemma ledger_pass_lookup now db :
  lookup_table "schema_migrations" db = None
  ∨ lookup_table "schema_migrations" db = Some schema_migrations →
  lookup_table "schema_migrations" (ledger_pass now db) = Some schema_migrations.
Proof.
  intros H. unfold ledger_pass.
  rewrite (same_schema_lookup _ _ _ (foldl_record_version_schema now _ _)).
  by apply ledger_created.
Qed.

Lemma ledger_pass_ready now db : ledger_ready db → ledger_ready (ledger_pass now db).
Proof.
  intros (Hk & Hl & Hf). split; [|split].
  - destruct (create_table_keeps schema_migrations db Hk) as [Hk1 _].
    assert (exec_db now seed_schema_migrations (create_table schema_migrations db)
            = Ok (ledger_pass now db)) as He.
    { apply ledger_exec_seed; [by apply ledger_created|].
      by rewrite create_table_constraints. }
    by destruct (exec_db_keeps _ _ _ _ He Hk1).
  - right. by apply ledger_pass_lookup.
  - unfold ledger_pass.
    destruct (foldl_record_version_schema now migration_versions
                (create_table schema_migrations db)) as [_ ->].
    by rewrite create_table_constraints.
Qed.

Lemma ledger_pass_again now now' db :
  lookup_table "schema_migrations" db = None
  ∨ lookup_table "schema_migrations" db = Some schema_migrations →
  ledger_pass now' (ledger_pass now db) = ledger_pass now db.
Proof.
  intros H. unfold ledger_pass at 1.
  assert (create_table schema_migrations (ledger_pass now db) = ledger_pass now db) as ->.
  { unfold create_table. change (tbl_name schema_migrations) with "schema_migrations".
    by rewrite ledger_pass_lookup. }
  apply foldl_record_version_id. intros v d. apply ledger_pass_recorded.
Qed.

Lemma ledger_pass_prefix now db :
  lookup_table "schema_migrations" db = Some schema_migrations →
  rows_of "schema_migrations" db `prefix_of` rows_of "schema_migrations" (ledger_pass now db).
Proof.
  intros Hs. unfold ledger_pass.
  assert (create_table schema_migrations db = db) as ->.
  { unfold create_table. change (tbl_name schema_migrations) with "schema_migrations".
    by rewrite Hs. }
  apply foldl_record_version_prefix.
Qed.

Lemma ledger_pass_count now db v d :
  ledger_ready db → (v, d) ∈ migration_versions →
  count_where "schema_migrations" [("version", VInt v)] (ledger_pass now db) = 1%nat.
Proof.
  intros Hr Hin. destruct (ledger_pass_ready now db Hr) as (Hk & _ & _).
  destruct Hr as (_ & Hl & _).
  assert (count_where "schema_migrations" [("version", VInt v)] (ledger_pass now db) ≤ 1)%nat.
  { apply count_where_unique; [done| |].
    - unfold enforced_keys. rewrite ledger_pass_lookup by done.
      vm_compute. left.
    - simpl. rewrite not_elem_of_cons. split; [done|apply not_elem_of_nil]. }
  pose proof (ledger_pass_recorded now db v d Hin) as Hrec.
  apply version_recorded_true in Hrec as (r & Hr & Hv).
  assert (r ∈ filter (fun r => Forall (fun cv : string * value => get cv.1 r = cv.2)
                                      [("version", VInt v)])
                     (rows_of "schema_migrations" (ledger_pass now db))) as Hf.
  { apply list_elem_of_filter. split; [|done]. by apply Forall_singleton. }
  unfold count_where in *. destruct (filter _ _) as [|x l]; [by apply elem_of_nil in Hf|].
  simpl in *. lia.
Qed.

(** One run of the script's function on a connection with a database
    selected. *)
Lemma create_schema_version_table_run c log name db :
  conn_database c = Some name → conn_databases c !! name = Some db →
  lookup_table "schema_migrations" db = None
  ∨ lookup_table "schema_migrations" db = Some schema_migrations →
  Forall (fun fk => fk_table fk ≠ "schema_migrations") (db_constraints db) →
  create_schema_version_table mysql_execute mysql_commit (World c log)
  = (World (Connection (<[name := ledger_pass (conn_clock c + 1) db]> (conn_databases c))
                       (Some name) (conn_clock c + 1 + 1))
           (log ++ [(INFO, "✓ Schema version tracking ready")]),
     Return tt).
Proof.
  intros Hn Hdb Hl Hf. unfold create_schema_version_table, bind, cursor_execute.
  cbn [w_conn w_log].
  rewrite (mysql_execute_selected _ _ name db) by done. cbn [exec_db w_conn w_log].
  rewrite (mysql_execute_selected _ _ name (create_table schema_migrations db));
    [|done|done|simpl; by rewrite lookup_insert_eq].
  cbn [conn_clock conn_databases].
  rewrite ledger_exec_seed;
    [|by apply ledger_created|by rewrite create_table_constraints].
  cbn. rewrite insert_insert_eq. done.
Qed.

Lemma ledger_runs_state c log name db n :
  conn_database c = Some name → conn_databases c !! name = Some db →
  ledger_ready db →
  ∃ c' log',
    ledger_runs n (World c log) = World c' log'
    ∧ conn_database c' = Some name
    ∧ match n with
      | O => c' = c
      | S _ => conn_databases c' !! name = Some (ledger_pass (conn_clock c + 1) db)
      end.
Proof.
  intros Hn Hdb Hr. induction n as [|n IH].
  - by exists c, log.
  - destruct IH as (c' & log' & Hw & Hn' & Hst).
    change (ledger_runs (S n) (World c log))
      with ((create_schema_version_table mysql_execute mysql_commit
               (ledger_runs n (World c log))).1).
    rewrite Hw. destruct n as [|n].
    + subst c'. destruct Hr as (Hk & Hl & Hf).
      rewrite (create_schema_version_table_run _ _ name db) by done.
      eexists _, _. split; [done|]. split; [done|]. simpl. by rewrite lookup_insert_eq.
    + pose proof (ledger_pass_ready (conn_clock c + 1) db Hr) as (Hk & Hl & Hf).
      rewrite (create_schema_version_table_run _ _ name _ Hn' Hst Hl Hf).
      eexists _, _. split; [done|]. split; [done|]. simpl.
      rewrite lookup_insert_eq, ledger_pass_again; [done|]. by destruct Hr as (_ & ? & _).
Qed.

Lemma ledger_runs_current c log name db n :
  conn_database c = Some name → conn_databases c !! name = Some db →
  ledger_ready db →
  current (w_conn (ledger_runs (S n) (World c log))) = ledger_pass (conn_clock c + 1) db.
Proof.
  intros Hn Hdb Hr.
  destruct (ledger_runs_state c log name db (S n) Hn Hdb Hr) as (c' & log' & -> & Hn' & Hst).
  unfold current. simpl. rewrite Hn'. simpl. by rewrite Hst.
Qed.

Lemma ledger_runs_return c log name db n :
  conn_database c = Some name → conn_databases c !! name = Some db →
  ledger_ready db →
  (create_schema_version_table mysql_execute mysql_commit
     (ledger_runs n (World c log))).2 = Return tt.
Proof.
  intros Hn Hdb Hr.
  destruct (ledger_runs_state c log name db n Hn Hdb Hr) as (c' & log' & -> & Hn' & Hst).
  destruct n as [|n].
  - subst c'. destruct Hr as (Hk & Hl & Hf).
    by rewrite (create_schema_version_table_run _ _ name db).
  - pose proof (ledger_pass_ready (conn_clock c + 1) db Hr) as (Hk & Hl & Hf).
    by rewrite (create_schema_version_table_run _ _ name _ Hn' Hst Hl Hf).
Qed.

End Ledger.

(** C10. [create_schema_version_table] is idempotent on the ledger.
    [version] is the primary key of [schema_migrations] and the INSERT
    ignores duplicates: every run returns; after one run or more each of
    the versions 1 to 4 is there exactly once; the rows that were there
    before, descriptions included, are still there as they were; and one
    more run leaves the database as it is. *)
Theorem schema_migrations_idempotent (c : connection) (log : list (level * string))
    (name : string) (db : database) (n k : nat) :
  conn_database c = Some name → conn_databases c !! name = Some db →
  ledger_ready db → (1 ≤ n)%nat →
  (create_schema_version_table mysql_execute mysql_commit
     (ledger_runs k (World c log))).2 = Return tt
  ∧ enforced_keys "schema_migrations" (current (w_conn (ledger_runs n (World c log))))
    = [[Asc "version"]]
  ∧ (∀ v d, (v, d) ∈ migration_versions →
       count_where "schema_migrations" [("version", VInt v)]
         (current (w_conn (ledger_runs n (World c log)))) = 1%nat)
  ∧ (lookup_table "schema_migrations" db = Some schema_migrations →
     rows_of "schema_migrations" db
     `prefix_of` ledger (w_conn (ledger_runs n (World c log))))
  ∧ current (w_conn (ledger_runs (S n) (World c log)))
    = current (w_conn (ledger_runs n (World c log))).
Proof.
  intros Hn Hdb Hr Hle. destruct n as [|n]; [lia|].
  split; [by eapply ledger_runs_return|].
  unfold ledger. rewrite !(ledger_runs_current c log name db) by done.
  split; [|split; [|split]].
  - unfold enforced_keys. rewrite ledger_pass_lookup by (by destruct Hr as (_ & ? & _)).
    vm_compute. reflexivity.
  - intros v d Hin. by eapply ledger_pass_count.
  - apply ledger_pass_prefix.
  - done.
Qed.


(** The edited ledger is in the states the function expects. *)
Lemma edited_ledger_ready : ledger_ready edited_ledger.
Proof.
  split; [|split].
  - apply keys_hold_check. vm_compute. reflexivity.
  - right. vm_compute. reflexivity.
  - vm_compute. repeat constructor; discriminate.
Qed.

(** Three runs over the edited ledger. *)
Lemma schema_migrations_idempotent_witness :
  (create_schema_version_table mysql_execute mysql_commit
     (ledger_runs 1 (World edited_server []))).2 = Return tt
  ∧ enforced_keys "schema_migrations" (current (w_conn (ledger_runs 2 (World edited_server []))))
    = [[Asc "version"]]
  ∧ (∀ v d, (v, d) ∈ migration_versions →
       count_where "schema_migrations" [("version", VInt v)]
         (current (w_conn (ledger_runs 2 (World edited_server [])))) = 1%nat)
  ∧ (lookup_table "schema_migrations" edited_ledger = Some schema_migrations →
     rows_of "schema_migrations" edited_ledger
     `prefix_of` ledger (w_conn (ledger_runs 2 (World edited_server []))))
  ∧ current (w_conn (ledger_runs 3 (World edited_server [])))
    = current (w_conn (ledger_runs 2 (World edited_server []))).
Proof.
  apply (schema_migrations_idempotent edited_server [] "youtube_kol_db" edited_ledger 2 1).
  - reflexivity.
  - by_evaluation.
  - apply edited_ledger_ready.
  - lia.
Defined.

(** The description edited by hand is still there after two runs. *)
Example edited_description_survives :
  map (fun r => (get "version" r, get "description" r))
      (ledger (w_conn (ledger_runs 2 (World edited_server []))))
  = [ (VInt 1, VStr "Initial schema");
      (VInt 2, VStr "edited by hand");
      (VInt 3, VStr "Add AI provider field");
      (VInt 4, VStr "Add language detection confidence") ].
Proof. vm_compute. reflexivity. Qed.

(** ** Foreign keys on deletion *)

Section Cascade.

Implicit Types (db : database) (fk : foreign_key) (rs victims : list row).

Lemma on_parent_delete_skip rec tbl victims db fk :
  fk_ref_table fk ≠ tbl → on_parent_delete rec tbl victims (Ok db) fk = Ok db.
Proof. intros H. unfold on_parent_delete. by rewrite bool_decide_eq_false_2. Qed.

Lemma on_parent_delete_set_null rec tbl victims db fk :
  fk_ref_table fk = tbl → fk_on_delete fk = ON_DELETE_SET_NULL →
  on_parent_delete rec tbl victims (Ok db) fk
  = Ok (set_rows (fk_table fk) (map (set_null victims fk) (rows_of (fk_table fk) db)) db).
Proof.
  intros H1 H2. unfold on_parent_delete. by rewrite bool_decide_eq_true_2, H2.
Qed.

Lemma on_parent_delete_cascade rec tbl victims db fk :
  fk_ref_table fk = tbl → fk_on_delete fk = ON_DELETE_CASCADE →
  on_parent_delete rec tbl victims (Ok db) fk
  = rec (fk_table fk) (references victims fk) db.
Proof.
  intros H1 H2. unfold on_parent_delete. by rewrite bool_decide_eq_true_2, H2.
Qed.

Lemma foldl_on_parent_delete_skip rec tbl victims fks db :
  Forall (fun fk => fk_ref_table fk ≠ tbl) fks →
  foldl (on_parent_delete rec tbl victims) (Ok db) fks = Ok db.
Proof.
  induction 1 as [|fk fks Hfk _ IH]; [done|].
  cbn [foldl]. by rewrite on_parent_delete_skip.
Qed.

Lemma filter_none {A} (P : A → Prop) `{!∀ x, Decision (P x)} (l : list A) :
  filter P l = [] → filter (fun x => ¬ P x) l = l.
Proof.
  induction l as [|x l IH]; [done|]. rewrite !filter_cons.
  destruct (decide (P x)); [done|]. intros Hl.
  rewrite decide_True by done. by rewrite IH.
Qed.

Lemma delete_where_S fuel tbl p db :
  delete_where (S fuel) tbl p db
  = if bool_decide (filter (fun r => Is_true (p r)) (rows_of tbl db) = []) then Ok db
    else foldl (on_parent_delete (delete_where fuel) tbl
                  (filter (fun r => Is_true (p r)) (rows_of tbl db)))
           (Ok (set_rows tbl (filter (fun r => ¬ Is_true (p r)) (rows_of tbl db)) db))
           (db_constraints db).
Proof. reflexivity. Qed.

(** Deleting from a table nothing refers to removes the rows and stops. *)
Lemma delete_leaf fuel tbl p db :
  Forall (fun fk => fk_ref_table fk ≠ tbl) (db_constraints db) →
  ∃ db', delete_where (S fuel) tbl p db = Ok db'
         ∧ same_schema db db'
         ∧ ∀ name, rows_of name db'
                   = if decide (tbl = name)
                     then filter (fun r => ¬ Is_true (p r)) (rows_of tbl db)
                     else rows_of name db.
Proof.
  intros Hf. rewrite delete_where_S. case_bool_decide as Hv.
  - exists db. split; [done|]. split; [done|]. intros name.
    case_decide; [|done]. subst name. by rewrite filter_none.
  - rewrite foldl_on_parent_delete_skip by done. eexists. split; [done|].
    split; [done|]. intros name. apply rows_of_set_rows.
Qed.

Lemma references_victims victims fk child (x : value) :
  victims ≠ [] → x ≠ VNull →
  (∀ v, v ∈ victims → get (fk_ref_column fk) v = x) →
  Is_true (references victims fk child) ↔ get (fk_column fk) child = x.
Proof.
  intros Hne Hx Hall. unfold references. split.
  - intros [_ H2]%andb_prop_elim. apply Is_true_true, existsb_exists in H2.
    destruct H2 as (v & Hv%list_elem_of_In & Heq%bool_decide_eq_true).
    rewrite <- Heq. by apply Hall.
  - intros Hc. apply andb_prop_intro. split.
    + apply Is_true_true, negb_true_iff, bool_decide_eq_false_2. congruence.
    + apply Is_true_true, existsb_exists.
      destruct victims as [|v victims]; [done|]. exists v.
      split; [by left|]. apply bool_decide_eq_true. rewrite Hc. apply Hall. left.
Qed.

Lemma matches_str col (x : string) (r : row) :
  Is_true (matches col (VStr x) r) ↔ get col r = VStr x.
Proof.
  unfold matches. split.
  - intros [_ H2]%andb_prop_elim. by apply bool_decide_unpack in H2.
  - intros Hc. apply andb_prop_intro. split.
    + apply Is_true_true, negb_true_iff. by apply bool_decide_eq_false_2.
    + by apply bool_decide_pack.
Qed.

Lemma count_where_victims tbl col (x : string) db :
  (0 < count_where tbl [(col, VStr x)] db)%nat →
  filter (fun r => Is_true (matches col (VStr x) r)) (rows_of tbl db) ≠ []
  ∧ ∀ v, v ∈ filter (fun r => Is_true (matches col (VStr x) r)) (rows_of tbl db) →
         get col v = VStr x.
Proof.
  intros Hc. split.
  - unfold count_where in Hc.
    rewrite (list_filter_iff _ (fun r => Is_true (matches col (VStr x) r))) in Hc.
    + intros Hn. rewrite Hn in Hc. simpl in Hc. lia.
    + intros r. rewrite Forall_singleton. simpl. symmetry. apply matches_str.
  - intros v [Hv _]%list_elem_of_filter. by apply matches_str.
Qed.

Lemma installed_lookup db name d :
  schema_installed db → lookup_table name bootstrapped = Some d →
  lookup_table name db = Some d.
Proof. intros [Hcat _]. unfold lookup_table. by rewrite Hcat. Qed.

Local Ltac no_reference := repeat constructor; discriminate.

(** Deleting a task: the row goes, its children are orphaned, and the
    statistics and analyses of the task go with it. *)
Lemma delete_task_rows now tid db :
  schema_installed db →
  (0 < count_where "search_tasks" [("task_id", VStr tid)] db)%nat →
  ∃ db',
    exec_db now (DELETE_FROM "search_tasks" "task_id" (VStr tid)) db = Ok db'
    ∧ rows_of "search_tasks" db'
      = orphan tid <$> filter (fun r => get "task_id" r ≠ VStr tid)
                              (rows_of "search_tasks" db)
    ∧ rows_of "channel_video_stats" db'
      = filter (fun r => get "task_id" r ≠ VStr tid) (rows_of "channel_video_stats" db)
    ∧ rows_of "ai_analysis" db'
      = filter (fun r => get "task_id" r ≠ VStr tid) (rows_of "ai_analysis" db)
    ∧ ∀ name, name ∉ ["search_tasks"; "channel_video_stats"; "ai_analysis"] →
              rows_of name db' = rows_of name db.
Proof.
  intros Hs Hex. pose proof Hs as [_ Hfk].
  destruct (count_where_victims _ _ _ _ Hex) as [Hne Hall].
  cbn [exec_db].
  rewrite (installed_lookup db "search_tasks" search_tasks Hs) by (vm_compute; reflexivity).
  assert (known_column search_tasks "task_id" = true) as -> by (vm_compute; reflexivity).
  change max_cascade_depth with (S 14). rewrite delete_where_S.
  set (victims := filter (fun r => Is_true (matches "task_id" (VStr tid) r))
                         (rows_of "search_tasks" db)) in *.
  rewrite bool_decide_eq_false_2 by done.
  rewrite Hfk. unfold foreign_keys. cbn [foldl].
  rewrite on_parent_delete_set_null by done.
  rewrite on_parent_delete_skip by done.
  rewrite on_parent_delete_cascade by done.
  match goal with
  | |- context [delete_where 14 ?t ?p ?d] =>
      destruct (delete_leaf 13 t p d) as (db3 & -> & Hs3 & Hr3);
        [simpl; rewrite Hfk; no_reference|]
  end.
  rewrite on_parent_delete_skip by done.
  rewrite on_parent_delete_cascade by done.
  match goal with
  | |- context [delete_where 14 ?t ?p ?d] =>
      destruct (delete_leaf 13 t p d) as (db4 & -> & Hs4 & Hr4);
        [destruct Hs3 as [_ ->]; simpl; rewrite Hfk; no_reference|]
  end.
  exists db4. split; [done|].
  assert (∀ fk child, fk_ref_column fk = "task_id" →
            (Is_true (references victims fk child)
             ↔ get (fk_column fk) child = VStr tid)) as Href.
  { intros fk child Hc. apply references_victims; [done|done|].
    intros v Hv. rewrite Hc. by apply Hall. }
  split; [|split; [|split]].
  - rewrite Hr4, decide_False by done. rewrite Hr3, decide_False by done.
    simpl. rewrite !rows_of_set_rows, !decide_True by done.
    rewrite (list_filter_iff _ (fun r => get "task_id" r ≠ VStr tid)).
    + apply list_fmap_ext. intros i r _. unfold set_null, orphan.
      destruct (references _ _ r) eqn:Hrf.
      * rewrite bool_decide_eq_true_2; [done|]. by apply (Href fk_parent_task), Is_true_true.
      * rewrite bool_decide_eq_false_2; [done|]. intros Hc.
        apply (Href fk_parent_task) in Hc; [|done]. apply Is_true_true in Hc. congruence.
    + intros r. by rewrite matches_str.
  - rewrite Hr4, decide_False by done. rewrite Hr3, decide_True by done.
    simpl. rewrite !rows_of_set_rows, !decide_False by done.
    apply list_filter_iff. intros r. by rewrite (Href fk_stats_task).
  - rewrite Hr4, decide_True by done. rewrite Hr3, decide_False by done.
    simpl. rewrite !rows_of_set_rows, !decide_False by done.
    apply list_filter_iff. intros r. by rewrite (Href fk_analysis_task).
  - intros name Hname. rewrite !not_elem_of_cons in Hname.
    destruct Hname as (? & ? & ? & _).
    rewrite Hr4, decide_False by done. rewrite Hr3, decide_False by done.
    simpl. by rewrite !rows_of_set_rows, !decide_False by done.
Qed.

(** Deleting a channel: the row goes, and with it the statistics and
    analyses that refer to it; nothing else is touched. *)
Lemma delete_channel_rows now cid db :
  schema_installed db →
  (0 < count_where "channels" [("channel_id", VStr cid)] db)%nat →
  ∃ db',
    exec_db now (DELETE_FROM "channels" "channel_id" (VStr cid)) db = Ok db'
    ∧ rows_of "channels" db'
      = filter (fun r => get "channel_id" r ≠ VStr cid) (rows_of "channels" db)
    ∧ rows_of "channel_video_stats" db'
      = filter (fun r => get "channel_id" r ≠ VStr cid) (rows_of "channel_video_stats" db)
    ∧ rows_of "ai_analysis" db'
      = filter (fun r => get "channel_id" r ≠ VStr cid) (rows_of "ai_analysis" db)
    ∧ ∀ name, name ∉ ["channels"; "channel_video_stats"; "ai_analysis"] →
              rows_of name db' = rows_of name db.
Proof.
  intros Hs Hex. pose proof Hs as [_ Hfk].
  destruct (count_where_victims _ _ _ _ Hex) as [Hne Hall].
  cbn [exec_db].
  rewrite (installed_lookup db "channels" channels Hs) by (vm_compute; reflexivity).
  assert (known_column channels "channel_id" = true) as -> by (vm_compute; reflexivity).
  change max_cascade_depth with (S 14). rewrite delete_where_S.
  set (victims := filter (fun r => Is_true (matches "channel_id" (VStr cid) r))
                         (rows_of "channels" db)) in *.
  rewrite bool_decide_eq_false_2 by done.
  rewrite Hfk. unfold foreign_keys. cbn [foldl].
  rewrite on_parent_delete_skip by done.
  rewrite on_parent_delete_cascade by done.
  match goal with
  | |- context [delete_where 14 ?t ?p ?d] =>
      destruct (delete_leaf 13 t p d) as (db3 & -> & Hs3 & Hr3);
        [simpl; rewrite Hfk; no_reference|]
  end.
  rewrite on_parent_delete_skip by done.
  rewrite on_parent_delete_cascade by done.
  match goal with
  | |- context [delete_where 14 ?t ?p ?d] =>
      destruct (delete_leaf 13 t p d) as (db4 & -> & Hs4 & Hr4);
        [destruct Hs3 as [_ ->]; simpl; rewrite Hfk; no_reference|]
  end.
  rewrite on_parent_delete_skip by done.
  exists db4. split; [done|].
  assert (∀ fk child, fk_ref_column fk = "channel_id" →
            (Is_true (references victims fk child)
             ↔ get (fk_column fk) child = VStr cid)) as Href.
  { intros fk child Hc. apply references_victims; [done|done|].
    intros v Hv. rewrite Hc. by apply Hall. }
  split; [|split; [|split]].
  - rewrite Hr4, decide_False by done. rewrite Hr3, decide_False by done.
    rewrite rows_of_set_rows, decide_True by done.
    apply list_filter_iff. intros r. by rewrite matches_str.
  - rewrite Hr4, decide_False by done. rewrite Hr3, decide_True by done.
    rewrite rows_of_set_rows, decide_False by done.
    apply list_filter_iff. intros r. by rewrite (Href fk_stats_channel).
  - rewrite Hr4, decide_True by done. rewrite Hr3, decide_False by done.
    rewrite rows_of_set_rows, decide_False by done.
    apply list_filter_iff. intros r. by rewrite (Href fk_analysis_channel).
  - intros name Hname. rewrite !not_elem_of_cons in Hname.
    destruct Hname as (? & ? & ? & _).
    rewrite Hr4, decide_False by done. rewrite Hr3, decide_False by done.
    by rewrite rows_of_set_rows, decide_False by done.
Qed.

End Cascade.

(** C4. Under the foreign keys the script installs, deleting a task that
    is the parent of another sets the child's [parent_task_id] to NULL
    and changes no other field of the child, and deleting a channel
    deletes the statistics and analysis rows that refer to it and no
    other rows.  (The statistics and analyses of a deleted task go with
    the task.) *)
Theorem foreign_keys_on_delete (now : Z) (tid cid : string) (db : database) :
  schema_installed db →
  (0 < count_where "search_tasks" [("task_id", VStr tid)] db)%nat →
  (0 < count_where "channels" [("channel_id", VStr cid)] db)%nat →
  (∃ db',
     exec_db now (DELETE_FROM "search_tasks" "task_id" (VStr tid)) db = Ok db'
     ∧ rows_of "search_tasks" db'
       = orphan tid <$> filter (fun r => get "task_id" r ≠ VStr tid)
                               (rows_of "search_tasks" db)
     ∧ rows_of "channel_video_stats" db'
       = filter (fun r => get "task_id" r ≠ VStr tid) (rows_of "channel_video_stats" db)
     ∧ rows_of "ai_analysis" db'
       = filter (fun r => get "task_id" r ≠ VStr tid) (rows_of "ai_analysis" db)
     ∧ (∀ name, name ∉ ["search_tasks"; "channel_video_stats"; "ai_analysis"] →
                rows_of name db' = rows_of name db)
     ∧ (∀ child, child ∈ rows_of "search_tasks" db →
                 get "task_id" child ≠ VStr tid →
                 get "parent_task_id" child = VStr tid →
                 <["parent_task_id" := VNull]> child ∈ rows_of "search_tasks" db'))
  ∧ (∃ db',
       exec_db now (DELETE_FROM "channels" "channel_id" (VStr cid)) db = Ok db'
       ∧ rows_of "channels" db'
         = filter (fun r => get "channel_id" r ≠ VStr cid) (rows_of "channels" db)
       ∧ rows_of "channel_video_stats" db'
         = filter (fun r => get "channel_id" r ≠ VStr cid)
                  (rows_of "channel_video_stats" db)
       ∧ rows_of "ai_analysis" db'
         = filter (fun r => get "channel_id" r ≠ VStr cid) (rows_of "ai_analysis" db)
       ∧ ∀ name, name ∉ ["channels"; "channel_video_stats"; "ai_analysis"] →
                 rows_of name db' = rows_of name db).
Proof.
  intros Hs Ht Hc. split; [|by apply delete_channel_rows].
  destruct (delete_task_rows now tid db Hs Ht) as (db' & He & Ht' & Hst & Han & Hrest).
  exists db'. split_and!; try done.
  intros child Hin Hid Hpar. rewrite Ht'. apply list_elem_of_fmap.
  exists child. split.
  - unfold orphan. by rewrite bool_decide_eq_true_2.
  - by apply list_elem_of_filter.
Qed.

(** The sample crawl has the schema of the script. *)
Lemma small_crawl_installed : schema_installed small_crawl.
Proof. split; vm_compute; reflexivity. Qed.


(** Task T1, the parent of T2, and channel UC1 of the sample crawl. *)
Lemma foreign_keys_on_delete_witness :
  (∃ db',
     exec_db 200 (DELETE_FROM "search_tasks" "task_id" (VStr "T1")) small_crawl = Ok db'
     ∧ rows_of "search_tasks" db'
       = orphan "T1" <$> filter (fun r => get "task_id" r ≠ VStr "T1")
                                (rows_of "search_tasks" small_crawl)
     ∧ rows_of "channel_video_stats" db'
       = filter (fun r => get "task_id" r ≠ VStr "T1")
                (rows_of "channel_video_stats" small_crawl)
     ∧ rows_of "ai_analysis" db'
       = filter (fun r => get "task_id" r ≠ VStr "T1") (rows_of "ai_analysis" small_crawl)
     ∧ (∀ name, name ∉ ["search_tasks"; "channel_video_stats"; "ai_analysis"] →
                rows_of name db' = rows_of name small_crawl)
     ∧ (∀ child, child ∈ rows_of "search_tasks" small_crawl →
                 get "task_id" child ≠ VStr "T1" →
                 get "parent_task_id" child = VStr "T1" →
                 <["parent_task_id" := VNull]> child ∈ rows_of "search_tasks" db'))
  ∧ (∃ db',
       exec_db 200 (DELETE_FROM "channels" "channel_id" (VStr "UC1")) small_crawl = Ok db'
       ∧ rows_of "channels" db'
         = filter (fun r => get "channel_id" r ≠ VStr "UC1") (rows_of "channels" small_crawl)
       ∧ rows_of "channel_video_stats" db'
         = filter (fun r => get "channel_id" r ≠ VStr "UC1")
                  (rows_of "channel_video_stats" small_crawl)
       ∧ rows_of "ai_analysis" db'
         = filter (fun r => get "channel_id" r ≠ VStr "UC1")
                  (rows_of "ai_analysis" small_crawl)
       ∧ ∀ name, name ∉ ["channels"; "channel_video_stats"; "ai_analysis"] →
                 rows_of name db' = rows_of name small_crawl).
Proof.
  apply (foreign_keys_on_delete 200 "T1" "UC1" small_crawl).
  - apply small_crawl_installed.
  - vm_compute. lia.
  - vm_compute. lia.
Defined.

(** In the sample crawl, what is left after task T1 is deleted: task T2
    without a parent, and the rows of T2 only. *)
Example delete_parent_of_sample :
  (fun db => ( map (fun r => (get "task_id" r, get "parent_task_id" r, get "keyword" r))
                   (rows_of "search_tasks" db),
               map (fun r => (get "channel_id" r, get "task_id" r))
                   (rows_of "channel_video_stats" db),
               length (rows_of "channels" db) ))
    (from_ok (exec_db 200 (DELETE_FROM "search_tasks" "task_id" (VStr "T1")) small_crawl))
  = ( [(VStr "T2", VNull, VStr "windows cleaner")],
      [(VStr "UC1", VStr "T2"); (VStr "UC2", VStr "T2")],
      2%nat ).
Proof. vm_compute. reflexivity. Qed.

(** * The components on top of the schema *)

(** ** Task lifecycle *)

Section Lifecycle.

Implicit Types (s a b : task_status) (ops : list task_op).

Lemma orchestrate_edge s op :
  orchestrate s op = s ∨ lifecycle_edge s (orchestrate s op) = true.
Proof. destruct s, op; simpl; auto. Qed.

Lemma orchestrate_terminal s op : terminal s = true → orchestrate s op = s.
Proof. by destruct s, op. Qed.

Lemma lifecycle_step s ops i a b :
  lifecycle s ops !! i = Some a → lifecycle s ops !! S i = Some b →
  a = b ∨ lifecycle_edge a b = true.
Proof.
  revert s i. induction ops as [|op ops IH]; intros s i; [by destruct i|].
  destruct i as [|i]; simpl.
  - intros [= <-]. destruct ops; simpl; intros [= <-];
      destruct (orchestrate_edge s op); auto.
  - apply IH.
Qed.

Lemma lifecycle_terminal s ops j b :
  terminal s = true → lifecycle s ops !! j = Some b → b = s.
Proof.
  intros Ht. revert s j Ht. induction ops as [|op ops IH]; intros s j Ht.
  - destruct j; [by intros [= <-]|done].
  - destruct j as [|j]; simpl; [by intros [= <-]|].
    rewrite (orchestrate_terminal s op Ht). by apply IH.
Qed.

Lemma lifecycle_drop s ops i a :
  lifecycle s ops !! i = Some a → drop i (lifecycle s ops) = lifecycle a (drop i ops).
Proof.
  revert s i. induction ops as [|op ops IH]; intros s i.
  - destruct i; [by intros [= <-]|done].
  - destruct i as [|i]; simpl; [by intros [= <-]|]. apply IH.
Qed.

End Lifecycle.

(** C7. The lifecycle of a search task is the state machine pending to
    running to completed or failed, with running to paused and paused to
    running on the side.  Under any sequence of Orchestrator operations
    each step leaves the status as it is or follows one of these five
    edges, each edge is taken by some operation, completed and failed
    are the terminal statuses, and a task that is completed or failed
    keeps its status for good.  The statuses are those of the [status]
    column of [search_tasks]. *)
Theorem task_lifecycle_state_machine (s : task_status) (ops : list task_op)
    (i j : nat) (a b : task_status) :
  enum_members "search_tasks" "status" bootstrapped
    = Some (task_status_name <$> [Pending; Running; Completed; Failed; Paused])
  ∧ (lifecycle_edge a b = true ↔
     (a, b) ∈ [ (Pending, Running); (Running, Completed); (Running, Failed);
                (Running, Paused); (Paused, Running) ])
  ∧ (terminal a = true ↔ a = Completed ∨ a = Failed)
  ∧ (lifecycle_edge a b = true → ∃ op, orchestrate a op = b)
  ∧ (lifecycle s ops !! i = Some a → lifecycle s ops !! S i = Some b →
     a = b ∨ lifecycle_edge a b = true)
  ∧ (lifecycle s ops !! i = Some a → terminal a = true → (i ≤ j)%nat →
     lifecycle s ops !! j = Some b → b = a).
Proof.
  split; [vm_compute; reflexivity|]. split.
  { rewrite !elem_of_cons, elem_of_nil.
    destruct a, b; simpl; split; intros H; try done;
      try (repeat (destruct H as [H|H]; try discriminate H); done);
      repeat (first [left; reflexivity|right]). }
  split; [destruct a; simpl; split; intros H; try done; auto; by destruct H|].
  split.
  { destruct a, b; try done; intros _;
      first [by exists Start|by exists Pause|by exists Resume
            |by exists Complete|by exists Fail]. }
  split; [apply lifecycle_step|].
  intros Ha Ht Hij Hb.
  apply (lifecycle_terminal a (drop i ops) (j - i)); [done|].
  rewrite <- (lifecycle_drop s ops i a Ha), lookup_drop.
  by replace (i + (j - i))%nat with j by lia.
Qed.

(** A task that is started, paused, resumed and completed, and then
    asked to start and to fail: it stays completed. *)
Lemma task_lifecycle_state_machine_witness :
  Completed = Completed.
Proof.
  destruct (task_lifecycle_state_machine Pending
              [Start; Pause; Resume; Complete; Start; Fail] 4 6 Completed Completed)
    as (_ & _ & _ & _ & _ & H).
  apply H; [reflexivity|reflexivity|lia|reflexivity].
Defined.

(** ** Quota *)

Section Quota.

Implicit Types (k : APIKey) (units today : Z).

Lemma reset_same_day today k :
  last_reset_date k = Some today → reset_if_new_day today k = k.
Proof. intros H. unfold reset_if_new_day. rewrite H. by rewrite Z.ltb_irrefl. Qed.

Lemma reset_not_earlier today k d :
  last_reset_date k = Some d → (today ≤ d)%Z → reset_if_new_day today k = k.
Proof.
  intros H Hd. unfold reset_if_new_day. rewrite H.
  by rewrite (proj2 (Z.ltb_ge d today)).
Qed.

Lemma reset_earlier today k :
  last_reset_date k = None ∨ (∃ d, last_reset_date k = Some d ∧ (d < today)%Z) →
  reset_if_new_day today k
  = MkAPIKey (api_key k) (api_type k) (daily_quota k) 0 (Some today)
             (is_active k) (priority k).
Proof.
  unfold reset_if_new_day. intros [->|(d & -> & Hd)]; [done|].
  by rewrite (proj2 (Z.ltb_lt d today)).
Qed.

(** After the lazy reset the last reset of a key is not before today. *)
Lemma reset_date_after today k :
  ∃ d, last_reset_date (reset_if_new_day today k) = Some d ∧ (today ≤ d)%Z.
Proof.
  unfold reset_if_new_day. destruct (last_reset_date k) as [d|] eqn:Hd.
  - destruct (d <? today)%Z eqn:Hlt; simpl.
    + exists today. split; [done|lia].
    + exists d. split; [done|]. by apply Z.ltb_ge.
  - exists today. simpl. split; [done|lia].
Qed.

Lemma record_usage_later k (later : list Z) :
  Forall (fun u => 0 ≤ u)%Z later →
  (used_quota k ≤ used_quota (foldl record_usage k later))%Z
  ∧ daily_quota (foldl record_usage k later) = daily_quota k
  ∧ last_reset_date (foldl record_usage k later) = last_reset_date k.
Proof.
  intros Hl. revert k. induction Hl as [|u later Hu _ IH]; intros k; [done|].
  simpl. destruct (IH (record_usage k u)) as (H1 & H2 & H3). simpl in *.
  split; [lia|]. by rewrite H2, H3.
Qed.

Lemma foldl_better_pick (l : list APIKey) (acc : option APIKey) x :
  foldl (fun best k =>
           match best with
           | None => Some k
           | Some b => if better k b then Some k else Some b
           end) acc l = Some x →
  acc = Some x ∨ x ∈ l.
Proof.
  revert acc. induction l as [|k l IH]; intros acc; simpl; [by left|].
  intros [Hacc|Hin]%IH; [|right; by right].
  destruct acc as [b|]; [|injection Hacc as <-; right; left].
  destruct (better k b); injection Hacc as <-; [right; left|by left].
Qed.

(** An overage on a key whose last reset is not before today keeps the
    key out of [acquire], whatever is recorded on it afterwards. *)
Lemma overage_ineligible today provider k units (later : list Z) d :
  (daily_quota k < used_quota k + units)%Z →
  last_reset_date k = Some d → (today ≤ d)%Z →
  Forall (fun u => 0 ≤ u)%Z later →
  eligible today provider (foldl record_usage (record_usage k units) later) = false
  ∧ acquire today provider [foldl record_usage (record_usage k units) later] = None.
Proof.
  intros Hover Hday Hd Hlater.
  assert (eligible today provider (foldl record_usage (record_usage k units) later) = false)
    as Hel.
  { destruct (record_usage_later (record_usage k units) later Hlater) as (H1 & H2 & H3).
    simpl in *. unfold eligible. rewrite (reset_not_earlier today _ d) by congruence.
    rewrite H2. apply andb_false_intro2. apply Z.ltb_ge. lia. }
  split; [done|]. unfold acquire. rewrite filter_cons, filter_nil.
  rewrite decide_False; [done|]. rewrite Hel. simpl. tauto.
Qed.

(** [acquire] only hands out keys that are eligible, as they are after
    the lazy reset. *)
Lemma acquire_eligible today provider (pool : list APIKey) x :
  acquire today provider pool = Some x →
  ∃ k, k ∈ pool ∧ eligible today provider k = true ∧ x = reset_if_new_day today k.
Proof.
  unfold acquire. intros [?|Hin]%foldl_better_pick; [done|].
  apply list_elem_of_fmap in Hin as (k & -> & Hk).
  apply list_elem_of_filter in Hk as [He Hk]. exists k.
  split; [done|]. split; [by apply Is_true_true|done].
Qed.

End Quota.




(** * More of the script *)

(** ** How [main] ends *)

Section Protocol.

Context {conn : Type}.
Variable execute : stmt → conn → conn * option string.
Variable commit : conn → conn * option string.

Lemma behaves_seq {A B} (m : py conn A) (k : A → py conn B) :
  behaves m unannounced → (∀ a, behaves (k a) unannounced) →
  behaves (bind m k) unannounced.
Proof.
  intros Hm Hk w. destruct (Hm w) as (l1 & L1 & Q1 & R1 & C1). unfold bind.
  destruct (m w) as [w1 [a|e]] eqn:E; simpl in *.
  - destruct (Hk a w1) as (l2 & L2 & Q2 & R2 & C2). exists (l1 ++ l2)%list.
    rewrite L2, L1, app_assoc. split; [done|]. split; [|split].
    + rewrite elem_of_app. tauto.
    + rewrite elem_of_app. tauto.
    + intros b Hb. apply Forall_app. split; [by eapply C1|by eapply C2].
  - exists l1. split; [done|]. split; [done|]. split; [done|]. by intros b.
Qed.

Lemma behaves_logger (l : level) msg :
  (l, msg) ≠ success_record → (l, msg) ≠ closed_record → l ≠ ERROR →
  behaves (logger (conn := conn) l msg) unannounced.
Proof.
  intros Hs Hc He w. exists [(l, msg)]. split; [done|]. split; [|split].
  - intros H%list_elem_of_singleton. congruence.
  - intros H%list_elem_of_singleton. congruence.
  - intros _ _. by repeat constructor.
Qed.

Lemma behaves_ret {A} (a : A) : behaves (ret (conn := conn) a) unannounced.
Proof.
  intros w. exists []. simpl. rewrite app_nil_r. split; [done|].
  split; [apply not_elem_of_nil|]. split; [apply not_elem_of_nil|by intros _ _].
Qed.

Lemma behaves_cursor_execute s : behaves (cursor_execute execute s) unannounced.
Proof.
  intros w. exists []. unfold cursor_execute.
  destruct (execute s (w_conn w)) as [c [e|]]; simpl; rewrite app_nil_r;
    (split; [done|]); (split; [apply not_elem_of_nil|]);
    (split; [apply not_elem_of_nil|by intros _ _]).
Qed.

Lemma behaves_connection_commit : behaves (connection_commit commit) unannounced.
Proof.
  intros w. exists []. unfold connection_commit.
  destruct (commit (w_conn w)) as [c [e|]]; simpl; rewrite app_nil_r;
    (split; [done|]); (split; [apply not_elem_of_nil|]);
    (split; [apply not_elem_of_nil|by intros _ _]).
Qed.

(** A handler that logs an error and raises again. *)
Lemma behaves_reraise {A} (m : py conn A) (msg : string → string) :
  behaves m unannounced →
  behaves (try_except m (fun e => bind (logger ERROR (msg e)) (fun _ => raise e)))
          unannounced.
Proof.
  intros Hm w. destruct (Hm w) as (l1 & L1 & Q1 & R1 & C1). unfold try_except.
  destruct (m w) as [w1 [a|e]] eqn:E; simpl in *.
  - exists l1. done.
  - exists (l1 ++ [(ERROR, msg e)])%list. rewrite L1, app_assoc. split; [done|].
    split; [|split; [|by intros a]]; rewrite elem_of_app, list_elem_of_singleton;
      (intros [?|?]; [done|discriminate]).
Qed.

(** A handler that logs a warning, or nothing, and goes on. *)
Lemma behaves_swallow (m : py conn unit) (h : string → py conn unit) :
  behaves m unannounced → (∀ e, behaves (h e) unannounced) →
  (∀ e w, (h e w).2 = Return tt) →
  (∀ w e, (m w).2 = Raise e → ∃ l, w_log (m w).1 = (w_log w ++ l)%list
                                   ∧ Forall (fun rec => rec.1 ≠ ERROR) l) →
  behaves (try_except m h) unannounced.
Proof.
  intros Hm Hh Hret Hcalm w. destruct (Hm w) as (l1 & L1 & Q1 & R1 & C1).
  unfold try_except. destruct (m w) as [w1 [a|e]] eqn:E; simpl in *.
  - exists l1. done.
  - destruct (Hh e w1) as (l2 & L2 & Q2 & R2 & C2). exists (l1 ++ l2)%list.
    rewrite L2, L1, app_assoc. split; [done|]. split; [|split].
    + rewrite elem_of_app. tauto.
    + rewrite elem_of_app. tauto.
    + intros b _. apply Forall_app. split; [|by eapply C2, Hret].
      destruct (Hcalm w e) as (l & Hl & Hc); [by rewrite E|].
      rewrite E in Hl. simpl in Hl. rewrite L1 in Hl.
      by apply app_inv_head in Hl as ->.
Qed.

Lemma behaves_for_each {A} (l : list A) (body : A → py conn unit) :
  (∀ x, behaves (body x) unannounced) → behaves (for_each l body) unannounced.
Proof.
  intros Hb. induction l as [|x l IH]; simpl; [apply behaves_ret|].
  apply behaves_seq; [apply Hb|by intros _].
Qed.

(** A statement followed by its confirmation raises before it logs. *)
Lemma execute_then_log_raise s (l : level) msg w e :
  (bind (cursor_execute execute s) (fun _ => logger l msg) w).2 = Raise e →
  ∃ l', w_log (bind (cursor_execute execute s) (fun _ => logger l msg) w).1
        = (w_log w ++ l')%list
        ∧ Forall (fun rec => rec.1 ≠ ERROR) l'.
Proof.
  unfold bind, cursor_execute. destruct (execute s (w_conn w)) as [c [e'|]]; simpl.
  - intros _. exists []. by rewrite app_nil_r.
  - done.
Qed.

Lemma behaves_execute_then_log s msg :
  (INFO, msg) ≠ success_record → (INFO, msg) ≠ closed_record →
  behaves (bind (cursor_execute execute s) (fun _ => logger INFO msg)) unannounced.
Proof.
  intros H H'. apply behaves_seq; [apply behaves_cursor_execute|].
  intros _. by apply behaves_logger.
Qed.

Lemma behaves_create_database name :
  behaves (create_database execute name) unannounced.
Proof.
  unfold create_database.
  apply (behaves_reraise _ (fun e => "✗ Failed to create database: " ++ e)).
  by apply behaves_execute_then_log.
Qed.

Lemma behaves_create_tables : behaves (create_tables execute) unannounced.
Proof.
  unfold create_tables. apply behaves_for_each. intros [name sql].
  apply (behaves_reraise _ (fun e => "✗ Failed to create table '" ++ name ++ "': " ++ e)).
  by apply behaves_execute_then_log.
Qed.

Lemma behaves_add_foreign_keys : behaves (add_foreign_keys execute) unannounced.
Proof.
  unfold add_foreign_keys. apply behaves_for_each. intros sql.
  apply behaves_swallow.
  - by apply behaves_execute_then_log.
  - intros e. destruct (contains _ e); simpl; [apply behaves_ret|by apply behaves_logger].
  - intros e w. by destruct (contains _ e).
  - intros w e. apply execute_then_log_raise.
Qed.

Lemma behaves_seed_initial_data :
  behaves (seed_initial_data execute commit) unannounced.
Proof.
  unfold seed_initial_data. apply behaves_seq; [|intros _; apply behaves_connection_commit].
  apply behaves_swallow.
  - by apply behaves_execute_then_log.
  - intros e. by apply behaves_logger.
  - done.
  - intros w e. apply execute_then_log_raise.
Qed.

Lemma behaves_create_schema_version_table :
  behaves (create_schema_version_table execute commit) unannounced.
Proof.
  unfold create_schema_version_table.
  repeat (apply behaves_seq; [first [apply behaves_cursor_execute|by apply behaves_logger]
                             |intros _]).
  apply behaves_connection_commit.
Qed.

End Protocol.

Lemma bind_assoc {conn A B C} (m : py conn A) (k : A → py conn B) (h : B → py conn C) w :
  bind (bind m k) h w = bind m (fun a => bind (k a) h) w.
Proof. unfold bind. by destruct (m w) as [w1 [a|e]]. Qed.

Lemma bind_ext {conn A B} (m : py conn A) (k k' : A → py conn B) w :
  (∀ a w', k a w' = k' a w') → bind m k w = bind m k' w.
Proof. intros H. unfold bind. destruct (m w) as [w1 [a|e]]; [apply H|done]. Qed.

(** The steps of [main] before it announces success. *)
Lemma main_unfold {conn : Type}
    (execute : stmt → conn → conn * option string)
    (commit : conn → conn * option string)
    (is_connected : conn → bool)
    (args : arguments) (w : world conn) :
  main execute commit is_connected args w
  = match main_steps execute commit args w with
    | (w1, Return _) =>
        (World (w_conn w1)
           (w_log w1
            ++ [ success_record;
                 (INFO, nl ++ "Database: " ++ database_name args);
                 (INFO, "Next steps:");
                 (INFO, "1. Copy .env.example to .env");
                 (INFO, "2. Add your API keys via the web interface");
                 (INFO, "3. Start the application with: docker-compose up -d") ]
            ++ closing is_connected (w_conn w1)),
         Return 0%Z)
    | (w1, Raise e) =>
        (World (w_conn w1)
           (w_log w1 ++ [failed_record e] ++ closing is_connected (w_conn w1)),
         Return 1%Z)
    end.
Proof.
  set (tail := fun _ : unit =>
    bind (logger (conn := conn) INFO (nl ++ "✅ Database initialization completed successfully!"))
      (fun _ => bind (logger INFO (nl ++ "Database: " ++ database_name args))
      (fun _ => bind (logger INFO "Next steps:")
      (fun _ => bind (logger INFO "1. Copy .env.example to .env")
      (fun _ => bind (logger INFO "2. Add your API keys via the web interface")
      (fun _ => bind (logger INFO "3. Start the application with: docker-compose up -d")
      (fun _ => ret 0%Z))))))).
  unfold main, try_finally, try_except.
  match goal with
  | |- context [match ?c w with _ => _ end] =>
      assert (c w = bind (main_steps execute commit args) tail w) as ->
  end.
  { symmetry. unfold main_steps.
    do 11 (rewrite bind_assoc; apply bind_ext; intros [] ?).
    reflexivity. }
  unfold bind at 1, closing.
  destruct (main_steps execute commit args w) as [w1 [[]|e]]; subst tail;
    cbn; destruct (is_connected (w_conn w1)); cbn;
    rewrite <- ?app_assoc, ?app_nil_r; reflexivity.
Qed.

(** X1. [main] never lets an error out, and says that it closed the
    connection exactly when the connection still answers at the end:
    whatever the server answers, the run ends with exit status 0 or 1,
    and the closing message is the last log record if [is_connected()]
    holds of the connection then, and is not logged if it does not.
    Status 0 comes with the success message and without any ERROR
    record; status 1 comes without the success message and with the
    failure message (carrying the text of the error) logged last before
    the [finally] block. *)
Theorem main_exit_protocol {conn : Type}
    (execute : stmt → conn → conn * option string)
    (commit : conn → conn * option string)
    (is_connected : conn → bool)
    (args : arguments) (w : world conn) :
  ∃ l code,
    (main execute commit is_connected args w).2 = Return code
    ∧ w_log (main execute commit is_connected args w).1
      = (w_log w ++ l
         ++ (if is_connected (w_conn (main execute commit is_connected args w).1)
             then [closed_record] else []))%list
    ∧ (closed_record ∉ l)
    ∧ ((code = 0%Z ∧ success_record ∈ l ∧ Forall (fun rec => rec.1 ≠ ERROR) l)
       ∨ (code = 1%Z ∧ (success_record ∉ l)
          ∧ ∃ l' e, l = (l' ++ [failed_record e])%list)).
Proof.
  assert (behaves (main_steps execute commit args) unannounced) as Hsteps.
  { unfold main_steps.
    do 11 (apply behaves_seq;
            [first [by apply behaves_logger
                   |apply behaves_create_database
                   |apply behaves_cursor_execute
                   |apply behaves_create_tables
                   |apply behaves_add_foreign_keys
                   |apply behaves_seed_initial_data]
            |intros _]).
    apply behaves_create_schema_version_table. }
  destruct (Hsteps w) as (l & Hl & Hq & Hr & Hc). rewrite main_unfold.
  unfold closing.
  destruct (main_steps execute commit args w) as [w1 [[]|e]]; simpl in *.
  - exists (l ++ [ success_record;
                   (INFO, (nl ++ "Database: " ++ database_name args)%string);
                   (INFO, "Next steps:");
                   (INFO, "1. Copy .env.example to .env");
                   (INFO, "2. Add your API keys via the web interface");
                   (INFO, "3. Start the application with: docker-compose up -d") ])%list,
           0%Z.
    split; [done|]. split; [by rewrite Hl, <- !app_assoc|]. split.
    { rewrite elem_of_app. intros [?|Hin]; [done|].
      repeat (apply elem_of_cons in Hin as [Heq|Hin]; [discriminate Heq|]).
      by apply elem_of_nil in Hin. }
    left. split; [done|]. split.
    + apply elem_of_app. right. left.
    + apply Forall_app. split; [by eapply Hc|]. by repeat constructor.
  - exists (l ++ [failed_record e])%list, 1%Z.
    split; [done|]. split; [by rewrite Hl, <- !app_assoc|]. split.
    { rewrite elem_of_app, list_elem_of_singleton. intros [?|?]; [done|discriminate]. }
    right. split; [done|]. split; [|by eexists _, _].
    rewrite elem_of_app, list_elem_of_singleton. intros [?|?]; [done|discriminate].
Qed.

Section AsScript.

Context {conn : Type}.
Variable execute : stmt → conn → conn * option string.
Variable commit : conn → conn * option string.

Local Abbreviation run := (run_script execute commit).
Local Abbreviation implements := (implements execute commit).

Lemma run_script_app s1 s2 (c : conn) :
  run (s1 ++ s2) c
  = match run s1 c with
    | (c1, None) => run s2 c1
    | (c1, Some e) => (c1, Some e)
    end.
Proof.
  revert c. induction s1 as [|[s|s|] s1 IH]; intros c; simpl.
  - done.
  - destruct (execute s c) as [c' [e|]]; [done|apply IH].
  - apply IH.
  - destruct (commit c) as [c' [e|]]; [done|apply IH].
Qed.

Lemma implements_bind {A B} (m : py conn A) (k : A → py conn B) s1 s2 :
  implements m s1 → (∀ a, implements (k a) s2) → implements (bind m k) (s1 ++ s2).
Proof.
  intros Hm Hk w. destruct (Hm w) as [Hc Ho]. rewrite run_script_app. unfold bind.
  destruct (m w) as [w1 [a|e]]; simpl in *;
    destruct (run s1 (w_conn w)) as [c1 [e1|]]; simpl in *; subst.
  - done.
  - apply Hk.
  - by injection Ho as ->.
  - by destruct Ho.
Qed.

Lemma implements_logger (l : level) msg : implements (logger l msg) [].
Proof. intros w. split; [done|by exists tt]. Qed.

Lemma implements_fatal s : implements (cursor_execute execute s) [Fatal s].
Proof.
  intros w. unfold cursor_execute. simpl.
  destruct (execute s (w_conn w)) as [c [e|]]; simpl; [done|]. split; [done|by exists tt].
Qed.

Lemma implements_commit : implements (connection_commit commit) [CommitNow].
Proof.
  intros w. unfold connection_commit. simpl.
  destruct (commit (w_conn w)) as [c [e|]]; simpl; [done|]. split; [done|by exists tt].
Qed.

Lemma implements_fatal_logged s msg (err : string → string) :
  implements
    (try_except (bind (cursor_execute execute s) (fun _ => logger INFO msg))
                (fun e => bind (logger ERROR (err e)) (fun _ => raise e)))
    [Fatal s].
Proof.
  intros w. unfold try_except, bind, cursor_execute. simpl.
  destruct (execute s (w_conn w)) as [c [e|]]; simpl; [done|]. split; [done|by exists tt].
Qed.

Lemma implements_tolerated s msg (h : string → py conn unit) :
  (∀ e w, w_conn (h e w).1 = w_conn w ∧ (h e w).2 = Return tt) →
  implements
    (try_except (bind (cursor_execute execute s) (fun _ => logger INFO msg)) h)
    [Tolerated s].
Proof.
  intros Hh w. unfold try_except, bind, cursor_execute. simpl.
  destruct (execute s (w_conn w)) as [c [e|]]; simpl.
  - destruct (Hh e (World c (w_log w))) as [Hc Hr]. split; [done|]. exists tt.
    by destruct (h e _) as [? ?].
  - split; [done|by exists tt].
Qed.

Lemma implements_for_each {A} (l : list A) (body : A → py conn unit) (f : A → step) :
  (∀ x, implements (body x) [f x]) → implements (for_each l body) (f <$> l).
Proof.
  intros Hb. induction l as [|x l IH]; simpl.
  - intros w. split; [done|by exists tt].
  - apply (implements_bind _ _ [f x]); [apply Hb|by intros _].
Qed.

Lemma implements_create_tables : implements (create_tables execute) (Fatal <$> tables.*2).
Proof.
  unfold create_tables. rewrite <- list_fmap_compose.
  apply implements_for_each. intros [name sql].
  apply (implements_fatal_logged _ _
           (fun e => "✗ Failed to create table '" ++ name ++ "': " ++ e)).
Qed.

Lemma implements_add_foreign_keys :
  implements (add_foreign_keys execute) (Tolerated <$> constraints).
Proof.
  unfold add_foreign_keys. apply implements_for_each. intros sql.
  apply implements_tolerated. intros e w. by destruct (contains _ e).
Qed.

Lemma implements_seed_initial_data :
  implements (seed_initial_data execute commit) ([Tolerated seed_product_config] ++ [CommitNow]).
Proof.
  unfold seed_initial_data. apply implements_bind; [|intros _; apply implements_commit].
  by apply implements_tolerated.
Qed.

Lemma implements_create_schema_version_table :
  implements (create_schema_version_table execute commit)
    ([Fatal (CREATE_TABLE_IF_NOT_EXISTS schema_migrations)]
     ++ [Fatal seed_schema_migrations] ++ [] ++ [CommitNow]).
Proof.
  unfold create_schema_version_table.
  do 3 (apply implements_bind;
        [first [apply implements_fatal|apply implements_logger]|intros _]).
  apply implements_commit.
Qed.

Lemma implements_main_steps args : implements (main_steps execute commit args) (script args).
Proof.
  unfold main_steps.
  change (script args)
    with ([] ++ [] ++ [Fatal (CREATE_DATABASE_IF_NOT_EXISTS (database_name args))]
          ++ [Fatal (USE (database_name args))] ++ []
          ++ (Fatal <$> tables.*2) ++ []
          ++ (Tolerated <$> constraints) ++ []
          ++ ([Tolerated seed_product_config] ++ [CommitNow]) ++ []
          ++ ([Fatal (CREATE_TABLE_IF_NOT_EXISTS schema_migrations)]
              ++ [Fatal seed_schema_migrations] ++ [] ++ [CommitNow]))%list.
  do 11 (apply implements_bind;
         [first [apply implements_logger
                |apply (implements_fatal_logged _ _ (fun e => "✗ Failed to create database: " ++ e))
                |apply implements_fatal
                |apply implements_create_tables
                |apply implements_add_foreign_keys
                |apply implements_seed_initial_data]
         |intros _]).
  apply implements_create_schema_version_table.
Qed.

End AsScript.

(** X2. [main] sends the statements of the script in order.  An error of
    CREATE DATABASE, USE, a CREATE TABLE, a ledger statement or a commit
    ends the run there, with exit status 1 and the error in the failure
    message; an error of a foreign key or of the seed INSERT is passed
    over.  Nothing is sent after the error that ends the run. *)
Theorem main_runs_script {conn : Type}
    (execute : stmt → conn → conn * option string)
    (commit : conn → conn * option string)
    (is_connected : conn → bool)
    (args : arguments) (w : world conn) :
  w_conn (main execute commit is_connected args w).1
  = (run_script execute commit (script args) (w_conn w)).1
  ∧ (main execute commit is_connected args w).2
    = Return (match (run_script execute commit (script args) (w_conn w)).2 with
              | None => 0%Z
              | Some _ => 1%Z
              end)
  ∧ (∀ e, (run_script execute commit (script args) (w_conn w)).2 = Some e →
          failed_record e ∈ w_log (main execute commit is_connected args w).1).
Proof.
  pose proof (implements_main_steps execute commit args w) as H.
  rewrite main_unfold.
  destruct (run_script execute commit (script args) (w_conn w)) as [c1 o1].
  destruct (main_steps execute commit args w) as [w1 r].
  cbn [fst snd] in H. destruct H as [Hc Ho].
  destruct r as [[]|e], o1 as [e1|]; cbn [fst snd w_conn w_log]; try done.
  - injection Ho as ->. split; [done|]. split; [done|].
    intros e' [= <-]. apply elem_of_app. right. apply elem_of_app. left. left.
  - by destruct Ho.
Qed.

(** ** The loop of [create_tables] *)

Section CreateTables.

Context {conn : Type}.
Variable execute : stmt → conn → conn * option string.

Lemma create_step table_name create_sql (k : unit → py conn unit) (w : world conn) :
  bind (try_except
          (bind (cursor_execute execute create_sql)
                (fun _ => logger INFO ("✓ Table '" ++ table_name ++ "' created")))
          (fun e =>
             bind (logger ERROR ("✗ Failed to create table '" ++ table_name ++ "': " ++ e))
                  (fun _ => raise e))) k w
  = match execute create_sql (w_conn w) with
    | (c, None) => k tt (World c (w_log w ++ [created_record table_name]))
    | (c, Some e) => (World c (w_log w ++ [not_created_record table_name e]), Raise e)
    end.
Proof.
  unfold bind, try_except, cursor_execute.
  by destruct (execute create_sql (w_conn w)) as [c [e|]].
Qed.

(** The loop of [create_tables] over any dictionary. *)
Lemma create_loop (l : list (string * stmt)) (w : world conn) :
  let r := for_each l (fun '(table_name, create_sql) =>
             try_except
               (bind (cursor_execute execute create_sql)
                     (fun _ => logger INFO ("✓ Table '" ++ table_name ++ "' created")))
               (fun e =>
                  bind (logger ERROR ("✗ Failed to create table '" ++ table_name ++ "': " ++ e))
                       (fun _ => raise e))) w in
  (r.2 = Return tt
   ∧ w_log r.1 = (w_log w ++ (created_record <$> l.*1))%list
   ∧ w_conn r.1 = (execute_all execute l.*2 (w_conn w)).1
   ∧ Forall (eq None) (execute_all execute l.*2 (w_conn w)).2)
  ∨ (∃ before table_name create_sql after e,
       l = (before ++ (table_name, create_sql) :: after)%list
       ∧ r.2 = Raise e
       ∧ w_log r.1
         = (w_log w ++ (created_record <$> before.*1)
                    ++ [not_created_record table_name e])%list
       ∧ Forall (eq None) (execute_all execute before.*2 (w_conn w)).2
       ∧ execute create_sql (execute_all execute before.*2 (w_conn w)).1
         = (w_conn r.1, Some e)).
Proof.
  revert w. induction l as [|[name sql] l IH]; intros w; cbn zeta.
  - left. cbn. by rewrite app_nil_r.
  - cbn [for_each]. rewrite create_step.
    destruct (execute sql (w_conn w)) as [c [e|]] eqn:He.
    + right. exists [], name, sql, l, e. cbn. by split_and!.
    + set (w1 := World c (w_log w ++ [created_record name])).
      destruct (IH w1) as [(Hr & Hl & Hc & Hall)|(before & n & s & after & e & -> & Hr & Hl & Hall & Hc)].
      * left. rewrite !fmap_cons. cbn [execute_all snd]. rewrite He.
        cbn in Hc, Hall. destruct (execute_all execute l.*2 c) as [c2 rs].
        split_and!; [done| |done|by constructor].
        rewrite Hl. cbn. by rewrite <- app_assoc.
      * right. exists ((name, sql) :: before), n, s, after, e.
        rewrite !fmap_cons. cbn [execute_all snd]. rewrite He.
        cbn in Hc, Hall.
        destruct (execute_all execute before.*2 c) as [c2 rs].
        split_and!; [done|done| |by constructor|done].
        rewrite Hl. cbn. by rewrite <- app_assoc.
Qed.

End CreateTables.

(** X3. [create_tables] creates the tables in the order of the dictionary
    and stops at the first statement that fails: the tables before it are
    reported as created, the failure is logged as an error that names the
    table, the error is raised again, and no later table is tried.  When
    no statement fails, all six are reported and the function returns. *)
Theorem create_tables_stops_at_first_failure {conn : Type}
    (execute : stmt → conn → conn * option string) (w : world conn) :
  ((create_tables execute w).2 = Return tt
   ∧ w_log (create_tables execute w).1 = (w_log w ++ (created_record <$> tables.*1))%list
   ∧ w_conn (create_tables execute w).1 = (execute_all execute tables.*2 (w_conn w)).1
   ∧ Forall (eq None) (execute_all execute tables.*2 (w_conn w)).2)
  ∨ (∃ before table_name create_sql after e,
       tables = (before ++ (table_name, create_sql) :: after)%list
       ∧ (create_tables execute w).2 = Raise e
       ∧ w_log (create_tables execute w).1
         = (w_log w ++ (created_record <$> before.*1)
                    ++ [not_created_record table_name e])%list
       ∧ Forall (eq None) (execute_all execute before.*2 (w_conn w)).2
       ∧ execute create_sql (execute_all execute before.*2 (w_conn w)).1
         = (w_conn (create_tables execute w).1, Some e)).
Proof. apply (create_loop execute tables w). Qed.

(** * The script on the engine *)

Section OnEngine.

Implicit Types (db : database) (c : connection) (steps : list step).

Lemma main_script {conn : Type} (execute : stmt → conn → conn * option string)
    (commit : conn → conn * option string) (is_connected : conn → bool)
    (args : arguments) (w : world conn) :
  w_conn (main execute commit is_connected args w).1
  = (run_script execute commit (script args) (w_conn w)).1
  ∧ (main execute commit is_connected args w).2
    = Return (match (run_script execute commit (script args) (w_conn w)).2 with
              | None => 0%Z
              | Some _ => 1%Z
              end).
Proof.
  pose proof (implements_main_steps execute commit args w) as H.
  rewrite main_unfold.
  destruct (run_script execute commit (script args) (w_conn w)) as [c1 o1].
  destruct (main_steps execute commit args w) as [w1 r].
  cbn [fst snd] in H. destruct H as [Hc Ho].
  destruct r as [[]|e], o1 as [e1|]; cbn [fst snd w_conn w_log]; try done.
  by destruct Ho.
Qed.

Lemma run_script_selected steps c name db :
  Forall (fun st => from_option on_selected true (step_stmt st) = true) steps →
  conn_database c = Some name → conn_databases c !! name = Some db →
  run_script mysql_execute mysql_commit steps c
  = (Connection (<[name := (run_db steps (conn_clock c) db).1.1]> (conn_databases c))
                (Some name) (run_db steps (conn_clock c) db).1.2,
     (run_db steps (conn_clock c) db).2).
Proof.
  intros Hs. revert c db. induction Hs as [|st steps Hst Hs IH]; intros c db Hn Hdb.
  - cbn. rewrite insert_id by done. by destruct c; simplify_eq/=.
  - destruct st as [s|s|]; cbn [run_script run_db].
    + rewrite (mysql_execute_selected s c name db) by (by destruct s).
      destruct (exec_db (conn_clock c) s db) as [db'|e].
      * rewrite (IH (Connection (<[name:=db']> (conn_databases c)) (Some name)
                                (conn_clock c + 1)) db' eq_refl (lookup_insert_eq _ _ _)).
        cbn [conn_databases conn_clock]. by rewrite insert_insert_eq.
      * cbn [fst snd]. by rewrite insert_id.
    + rewrite (mysql_execute_selected s c name db) by (by destruct s).
      destruct (exec_db (conn_clock c) s db) as [db'|e]; cbn [fst].
      * rewrite (IH (Connection (<[name:=db']> (conn_databases c)) (Some name)
                                (conn_clock c + 1)) db' eq_refl (lookup_insert_eq _ _ _)).
        cbn [conn_databases conn_clock]. by rewrite insert_insert_eq.
      * by rewrite (IH (Connection (conn_databases c) (Some name) (conn_clock c + 1))
                          db eq_refl Hdb).
    + unfold mysql_commit. by apply IH.
Qed.

Lemma schema_steps_selected :
  Forall (fun st => from_option on_selected true (step_stmt st) = true) schema_steps.
Proof. by repeat constructor. Qed.

(** The default name of the database reads as a name. *)
Lemma default_name_reads : unquoted_identifier (database_name default_arguments) = true.
Proof. reflexivity. Qed.

(** The server after a run of the script, when the name of the database
    reads as a name. *)
Lemma bootstrap_run args c :
  unquoted_identifier (database_name args) = true →
  w_conn (bootstrap args c).1
  = Connection
      (<[database_name args :=
           (run_db schema_steps (conn_clock c + 1 + 1) (target args c)).1.1]>
         (conn_databases c))
      (Some (database_name args))
      (run_db schema_steps (conn_clock c + 1 + 1) (target args c)).1.2
  ∧ (bootstrap args c).2
    = Return (match (run_db schema_steps (conn_clock c + 1 + 1) (target args c)).2 with
              | None => 0%Z
              | Some _ => 1%Z
              end).
Proof.
  intros Hname. unfold bootstrap.
  destruct (main_script mysql_execute mysql_commit mysql_is_connected args (World c []))
    as [-> ->].
  change (script args)
    with ([ Fatal (CREATE_DATABASE_IF_NOT_EXISTS (database_name args));
            Fatal (USE (database_name args)) ] ++ schema_steps)%list.
  cbn [app run_script w_conn]. unfold target.
  cbn [mysql_execute]. rewrite Hname.
  destruct (conn_databases c !! database_name args) as [db|] eqn:Hdb; cbn [default].
  - cbn [mysql_execute conn_databases conn_database conn_clock]. rewrite Hdb.
    rewrite (run_script_selected _ _ (database_name args) db);
      [done|apply schema_steps_selected|done|done].
  - cbn [mysql_execute conn_databases conn_database conn_clock].
    rewrite lookup_insert_eq.
    rewrite (run_script_selected _ _ (database_name args) empty_database);
      [|apply schema_steps_selected|done|apply lookup_insert_eq].
    cbn [conn_databases conn_clock]. by rewrite insert_insert_eq.
Qed.

End OnEngine.

(** ** What a run never does *)

Section Frame.

Implicit Types (db : database) (d : table_def) (steps : list step).

Lemma inserted_refl mode tbl db : inserted mode tbl db db.
Proof. split_and!; [done|done|done|]. by destruct mode. Qed.

Lemma inserted_trans mode tbl db1 db2 db3 :
  inserted mode tbl db1 db2 → inserted mode tbl db2 db3 → inserted mode tbl db1 db3.
Proof.
  intros (Hs1 & Ho1 & Hl1 & Hp1) (Hs2 & Ho2 & Hl2 & Hp2). split_and!.
  - by eapply same_schema_trans.
  - intros t Ht. by rewrite Ho2, Ho1.
  - lia.
  - destruct mode; [by etrans|by etrans|done].
Qed.

Lemma update_at_inserted now d sets i db db' :
  update_at now d sets i db = Ok db' →
  inserted (ON_DUPLICATE_KEY_UPDATE sets) (tbl_name d) db db'.
Proof.
  unfold update_at. destruct (_ !! i); [|intros [= <-]; apply inserted_refl].
  destruct (check_row _ _); [done|].
  destruct (table_unique _ _); [|done]. intros [= <-]. split_and!; [done| | |done].
  - intros t Ht. rewrite rows_of_set_rows. by rewrite decide_False.
  - rewrite rows_of_set_rows, decide_True by done. by rewrite length_insert.
Qed.

Lemma insert_row_inserted now mode d given db db' :
  insert_row now mode d given db = Ok db' → inserted mode (tbl_name d) db db'.
Proof.
  unfold insert_row. destruct (check_row _ _); [done|].
  destruct (find_conflict _ _ _) as [[key i]|].
  - destruct mode as [| |sets]; try done.
    destruct (forallb _ sets); [|done]. apply update_at_inserted.
  - destruct (check_parents _ _ _); [done|]. intros [= <-].
    assert (rows_of (tbl_name d)
              (bump_auto_increment d (new_row now (next_id (tbl_name d) db) d given)
                 (set_rows (tbl_name d)
                    (rows_of (tbl_name d) db
                     ++ [new_row now (next_id (tbl_name d) db) d given]) db))
            = (rows_of (tbl_name d) db
               ++ [new_row now (next_id (tbl_name d) db) d given])%list) as Hr.
    { rewrite rows_of_bump, rows_of_set_rows. by rewrite decide_True. }
    split_and!.
    + apply (same_schema_bump d _ (set_rows _ _ db)).
    + intros t Ht. rewrite rows_of_bump, rows_of_set_rows. by rewrite decide_False.
    + rewrite Hr, length_app. lia.
    + rewrite Hr. destruct mode; [by apply prefix_app_r|by apply prefix_app_r|done].
Qed.

Lemma insert_tuples_inserted now mode d cols tuples db db' :
  insert_tuples now mode d cols tuples db = Ok db' → inserted mode (tbl_name d) db db'.
Proof.
  revert db. induction tuples as [|t ts IH]; simpl; intros db.
  - intros [= <-]. apply inserted_refl.
  - case_bool_decide; [|done].
    destruct (insert_row _ _ _ _ _) as [db1|e] eqn:Hi.
    + intros Ht. eapply inserted_trans; [by eapply insert_row_inserted|by apply IH].
    + destruct mode; try done. apply IH.
Qed.

Lemma exec_insert_inserted now mode tbl cols tuples db db' :
  exec_db now (INSERT_INTO mode tbl cols tuples) db = Ok db' → inserted mode tbl db db'.
Proof.
  cbn [exec_db]. destruct (lookup_table tbl db) as [d|] eqn:Hd; [|done].
  pose proof (lookup_table_Some _ _ _ Hd) as [<- _].
  destruct (forallb _ cols); [|done]. apply insert_tuples_inserted.
Qed.

(** INSERT IGNORE with tuples of the right width is never refused. *)
Lemma insert_tuples_ignore now d cols tuples db :
  Forall (fun t => length t = length cols) tuples →
  ∃ db', insert_tuples now IGNORE d cols tuples db = Ok db'.
Proof.
  intros Hl. revert db. induction Hl as [|t ts Ht Hl IH]; intros db; simpl.
  - by eexists.
  - rewrite bool_decide_eq_true_2 by done.
    destruct (insert_row _ _ _ _ _) as [db1|e]; apply IH.
Qed.

Lemma lookup_create_table t d db :
  lookup_table t (create_table d db)
  = match lookup_table t db with
    | Some d' => Some d'
    | None => if bool_decide (tbl_name d = t) then Some d else None
    end.
Proof.
  unfold create_table. destruct (lookup_table (tbl_name d) db) as [d0|] eqn:Hd.
  - destruct (lookup_table t db) eqn:Ht; [done|]. case_bool_decide; [congruence|done].
  - unfold lookup_table. cbn [db_catalog]. rewrite find_table_app. cbn [find_table].
    by destruct (find_table t (db_catalog db)).
Qed.

Lemma rows_create_table t d db :
  is_Some (lookup_table t db) → rows_of t (create_table d db) = rows_of t db.
Proof.
  intros [d0 Ht]. unfold create_table.
  destruct (lookup_table (tbl_name d) db) as [d1|] eqn:Hd; [done|].
  unfold rows_of. cbn [db_rows]. rewrite lookup_insert_ne; [done|]. congruence.
Qed.

Lemma add_constraint_effect fk db db' :
  add_constraint fk db = Ok db' →
  db' = Database (db_catalog db) (db_constraints db ++ [fk]) (db_rows db)
                 (db_auto_increment db).
Proof.
  unfold add_constraint. destruct (lookup_table (fk_table fk) db); [|done].
  case_bool_decide; [done|]. destruct (lookup_table (fk_ref_table fk) db); [|done].
  repeat (match goal with |- context [if ?b then _ else _] => destruct b end; try done).
  by intros [= <-].
Qed.

Lemma keeps_data_refl db : keeps_data db db.
Proof. split_and!; [by intros ??|done|]. intros t _. by split_and!. Qed.

Lemma keeps_data_trans db1 db2 db3 :
  keeps_data db1 db2 → keeps_data db2 db3 → keeps_data db1 db3.
Proof.
  intros (Hc1 & Hf1 & Hr1) (Hc2 & Hf2 & Hr2). split_and!.
  - intros t d Ht. by apply Hc2, Hc1.
  - by etrans.
  - intros t [d Ht]. destruct (Hr1 t) as (He1 & Hp1 & Hl1); [by eexists|].
    destruct (Hr2 t) as (He2 & Hp2 & Hl2); [exists d; by apply Hc1|].
    split_and!.
    + intros Hn. by rewrite He2, He1.
    + intros Hn. etrans; [by apply Hp1|by apply Hp2].
    + lia.
Qed.

(** Each statement of the script keeps the data. *)
Lemma schema_step_keeps_data now s db db' :
  Some s ∈ step_stmt <$> schema_steps →
  exec_db now s db = Ok db' → keeps_data db db'.
Proof.
  intros Hs.
  assert ((∃ d, s = CREATE_TABLE_IF_NOT_EXISTS d)
          ∨ (∃ fk, s = ALTER_TABLE_ADD_CONSTRAINT fk)
          ∨ s = seed_product_config ∨ s = seed_schema_migrations) as Hcase.
  { unfold schema_steps in Hs. cbn in Hs.
    repeat (apply elem_of_cons in Hs as [Heq|Hs];
            [try discriminate Heq; injection Heq as ->; eauto 6|]).
    by apply elem_of_nil in Hs. }
  destruct Hcase as [[d ->]|[[fk ->]|[->| ->]]].
  - intros [= <-]. split_and!.
    + intros t d' Ht. by rewrite lookup_create_table, Ht.
    + by rewrite create_table_constraints.
    + intros t Ht. rewrite rows_create_table by done. by split_and!.
  - intros ->%add_constraint_effect. split_and!; [by intros ??|by apply prefix_app_r|].
    intros t _. by split_and!.
  - intros (Hs' & Ho & Hl & _)%exec_insert_inserted. split_and!.
    + by apply same_schema_grows.
    + by destruct Hs' as [_ ->].
    + intros t _. split_and!.
      * intros Ht. apply Ho. intros ->. apply Ht. left.
      * intros Ht. by rewrite Ho.
      * destruct (decide (t = "product_config")) as [->|Ht]; [done|]. by rewrite Ho.
  - intros (Hs' & Ho & Hl & Hp)%exec_insert_inserted. split_and!.
    + by apply same_schema_grows.
    + by destruct Hs' as [_ ->].
    + intros t _. split_and!.
      * intros Ht. apply Ho. intros ->. apply Ht. right. left.
      * intros _. destruct (decide (t = "schema_migrations")) as [->|Ht]; [done|].
        by rewrite Ho.
      * destruct (decide (t = "schema_migrations")) as [->|Ht]; [done|]. by rewrite Ho.
Qed.

(** A relation that every accepted statement keeps holds of the run. *)
Lemma run_db_keeps (R : database → database → Prop) steps now db :
  (∀ db, R db db) → (∀ db1 db2 db3, R db1 db2 → R db2 db3 → R db1 db3) →
  (∀ s now db db', Some s ∈ step_stmt <$> steps → exec_db now s db = Ok db' → R db db') →
  R db (run_db steps now db).1.1.
Proof.
  intros Hrefl Htrans. revert now db.
  induction steps as [|st steps IH]; intros now db Hstep; [apply Hrefl|].
  assert (∀ now db, R db (run_db steps now db).1.1) as IH'.
  { intros ??. apply IH. intros ???? Hs. apply Hstep. by right. }
  destruct st as [s|s|]; cbn [run_db]; [| |apply IH'].
  - destruct (exec_db now s db) as [db1|e] eqn:He; [|apply Hrefl].
    eapply Htrans; [|apply IH']. eapply Hstep; [|done]. left.
  - destruct (exec_db now s db) as [db1|e] eqn:He; [|apply IH'].
    eapply Htrans; [|apply IH']. eapply Hstep; [|done]. left.
Qed.

Lemma schema_steps_keep_data now db :
  keeps_data db (run_db schema_steps now db).1.1.
Proof.
  apply (run_db_keeps keeps_data).
  - apply keeps_data_refl.
  - apply keeps_data_trans.
  - intros ????. apply schema_step_keeps_data.
Qed.

End Frame.

(** X4. A run of the script for a database whose name reads as a name
    when it is written into CREATE DATABASE takes nothing away.  The
    other databases of the server are as they were.  In the database it
    works on, tables that existed keep their definition, whatever it was,
    and foreign keys stay; the rows of every table that existed are kept,
    with new rows after them in the ledger only, and [product_config] has
    at least the rows it had. *)
Theorem main_keeps_data (args : arguments) (c : connection) :
  unquoted_identifier (database_name args) = true →
  (∀ name, name ≠ database_name args →
     conn_databases (w_conn (bootstrap args c).1) !! name = conn_databases c !! name)
  ∧ (∃ db', conn_databases (w_conn (bootstrap args c).1) !! database_name args = Some db'
            ∧ keeps_data (target args c) db').
Proof.
  intros Hname.
  destruct (bootstrap_run args c Hname) as [-> _]. cbn [conn_databases]. split.
  - intros name Hn. by rewrite lookup_insert_ne.
  - eexists. split; [apply lookup_insert_eq|apply schema_steps_keep_data].
Qed.

(** A run with the default arguments on the server that holds the sample
    crawl. *)
Lemma main_keeps_data_witness :
  unquoted_identifier (database_name default_arguments) = true
  ∧ (∀ name, name ≠ database_name default_arguments →
       conn_databases (w_conn (bootstrap default_arguments crawl_server).1) !! name
       = conn_databases crawl_server !! name)
  ∧ (∃ db', conn_databases (w_conn (bootstrap default_arguments crawl_server).1)
              !! database_name default_arguments = Some db'
            ∧ keeps_data (target default_arguments crawl_server) db').
Proof.
  split; [reflexivity|]. apply (main_keeps_data default_arguments crawl_server).
  reflexivity.
Defined.

(** ** When a run fails *)

Section ExitStatus.

Implicit Types (db : database) (d : table_def) (steps : list step).

Lemma run_db_app steps1 steps2 now db :
  run_db (steps1 ++ steps2) now db
  = match run_db steps1 now db with
    | (db1, now1, None) => run_db steps2 now1 db1
    | (db1, now1, Some e) => (db1, now1, Some e)
    end.
Proof.
  revert now db. induction steps1 as [|[s|s|] steps1 IH]; intros now db; cbn [app run_db].
  - done.
  - destruct (exec_db now s db); [apply IH|done].
  - destruct (exec_db now s db); apply IH.
  - apply IH.
Qed.

(** CREATE TABLE IF NOT EXISTS and statements whose errors are passed
    over cannot end a run. *)
Lemma run_db_no_error steps now db :
  Forall (fun st => match st with
                    | Fatal (CREATE_TABLE_IF_NOT_EXISTS _) | Tolerated _ | CommitNow => True
                    | Fatal _ => False
                    end) steps →
  (run_db steps now db).2 = None.
Proof.
  intros Hs. revert now db. induction Hs as [|st steps Hst Hs IH]; intros now db; [done|].
  destruct st as [s|s|]; cbn [run_db].
  - destruct s; try done. apply IH.
  - destruct (exec_db now s db); apply IH.
  - apply IH.
Qed.

Lemma data_steps_no_error now db : (run_db data_steps now db).2 = None.
Proof. apply run_db_no_error. by repeat constructor. Qed.

Lemma data_steps_ledger now db :
  lookup_table "schema_migrations" (run_db data_steps now db).1.1
  = lookup_table "schema_migrations" db.
Proof.
  apply (run_db_keeps (fun db db' => lookup_table "schema_migrations" db'
                                     = lookup_table "schema_migrations" db));
    [done|congruence|].
  clear. intros s now db db' Hs.
  assert ((∃ d, s = CREATE_TABLE_IF_NOT_EXISTS d ∧ tbl_name d ≠ "schema_migrations")
          ∨ (∃ fk, s = ALTER_TABLE_ADD_CONSTRAINT fk)
          ∨ s = seed_product_config) as Hcase.
  { unfold data_steps in Hs. cbn in Hs.
    repeat (apply elem_of_cons in Hs as [Heq|Hs];
            [try discriminate Heq; injection Heq as ->; eauto 6|]).
    by apply elem_of_nil in Hs. }
  destruct Hcase as [(d & -> & Hd)|[[fk ->]| ->]].
  - intros [= <-]. rewrite lookup_create_table. rewrite bool_decide_eq_false_2 by done.
    by destruct (lookup_table _ db).
  - by intros ->%add_constraint_effect.
  - intros (Hs' & _)%exec_insert_inserted. by apply same_schema_lookup.
Qed.

Lemma ledger_steps_error now db :
  (run_db ledger_steps now db).2 = None ↔ ledger_usable db = true.
Proof.
  unfold ledger_steps, ledger_usable, seed_schema_migrations. cbn [run_db exec_db].
  rewrite lookup_create_table. cbn [tbl_name schema_migrations].
  rewrite bool_decide_eq_true_2 by done.
  destruct (lookup_table "schema_migrations" db) as [d|].
  - destruct (forallb (known_column d) ["version"; "description"]); [|done].
    destruct (insert_tuples_ignore (now + 1) d ["version"; "description"]
                (map (fun vd => [Lit (VInt vd.1); Lit (VStr vd.2)]) migration_versions)
                (create_table schema_migrations db)) as [db' ->]; [|done].
    by repeat constructor.
  - change (forallb (known_column schema_migrations) ["version"; "description"]) with true.
    cbv iota.
    destruct (insert_tuples_ignore (now + 1) schema_migrations ["version"; "description"]
                (map (fun vd => [Lit (VInt vd.1); Lit (VStr vd.2)]) migration_versions)
                (create_table schema_migrations db)) as [db' ->]; [|done].
    by repeat constructor.
Qed.

Lemma schema_steps_error now db :
  (run_db schema_steps now db).2 = None ↔ ledger_usable db = true.
Proof.
  unfold schema_steps. rewrite run_db_app.
  pose proof (data_steps_no_error now db) as He.
  pose proof (data_steps_ledger now db) as Hl.
  destruct (run_db data_steps now db) as [[db1 now1] o]. cbn [fst snd] in *. subst o.
  rewrite ledger_steps_error. unfold ledger_usable. by rewrite Hl.
Qed.

End ExitStatus.

(** X5. On the engine a run for a database whose name reads as a name
    when it is written into CREATE DATABASE can fail in one way only: a
    table [schema_migrations] is already there and lacks the column
    [version] or the column [description].  Then the script exits with
    status 1, after it has created its tables; in every other state of
    the server it exits with status 0. *)
Theorem main_fails_only_at_ledger (args : arguments) (c : connection) :
  unquoted_identifier (database_name args) = true →
  (bootstrap args c).2
  = Return (if ledger_usable (target args c) then 0%Z else 1%Z).
Proof.
  intros Hname.
  destruct (bootstrap_run args c Hname) as [_ ->].
  pose proof (schema_steps_error (conn_clock c + 1 + 1) (target args c)) as H.
  destruct (run_db schema_steps _ _) as [[db1 now1] [e|]]; cbn [snd] in *.
  - destruct (ledger_usable _); [|done]. destruct H as [_ H]. discriminate (H eq_refl).
  - destruct H as [H _]. by rewrite (H eq_refl).
Qed.

(** With the default arguments, on a server whose [schema_migrations]
    has neither column: exit status 1. *)
Lemma main_fails_only_at_ledger_witness :
  unquoted_identifier (database_name default_arguments) = true
  ∧ (bootstrap default_arguments foreign_ledger_server).2 = Return 1%Z.
Proof.
  split; [reflexivity|].
  exact (main_fails_only_at_ledger default_arguments foreign_ledger_server eq_refl).
Defined.

(** ** Running the script again *)

Section Rerun.

Implicit Types (db : database) (d : table_def) (steps : list step).

Lemma create_table_existing d d' db :
  lookup_table (tbl_name d) db = Some d' → create_table d db = db.
Proof. intros H. unfold create_table. by rewrite H. Qed.

(** A foreign key whose name is taken is refused as a duplicate. *)
Lemma add_constraint_duplicate fk db :
  is_Some (lookup_table (fk_table fk) db) →
  fk_name fk ∈ map fk_name (db_constraints db) →
  add_constraint fk db
  = Err ("1826 (HY000): Duplicate foreign key constraint name '" ++ fk_name fk ++ "'").
Proof.
  intros [d Hd] Hn. unfold add_constraint. rewrite Hd. by rewrite bool_decide_eq_true_2.
Qed.

Lemma seed_row_id now next : get "id" (seed_row now next) = VInt next.
Proof. vm_compute. reflexivity. Qed.

Lemma seed_row_name now next : get "product_name" (seed_row now next) = VStr "WMaster Cleanup".
Proof. vm_compute. reflexivity. Qed.

(** The two JSON columns of the seed row hold the arrays as the script
    writes them: 109 and 90 characters, ten of them double quotes. *)
Lemma seed_row_json now next :
  get "core_features" (seed_row now next) = VStr core_features
  ∧ get "keywords" (seed_row now next) = VStr keywords
  ∧ String.length core_features = 109%nat
  ∧ String.length keywords = 90%nat
  ∧ length (filter (fun a => String a "" = double_quote)
              (String.list_ascii_of_string core_features)) = 10%nat
  ∧ length (filter (fun a => String a "" = double_quote)
              (String.list_ascii_of_string keywords)) = 10%nat.
Proof. split_and!; vm_compute; reflexivity. Qed.

Lemma seed_row_checks now next :
  check_row (tbl_columns product_config) (seed_row now next) = None.
Proof. vm_compute. reflexivity. Qed.

Lemma no_config_parents db r :
  db_constraints db = foreign_keys → check_parents db "product_config" r = None.
Proof.
  intros Hf. unfold check_parents. rewrite Hf.
  destruct (list_find _ _) as [[i fk]|] eqn:Hl; [|done].
  apply list_find_Some in Hl as (Hi & [Ht _] & _).
  apply list_elem_of_lookup_2 in Hi.
  repeat (apply elem_of_cons in Hi as [->|Hi]; [done|]). by apply elem_of_nil in Hi.
Qed.

(** The seed INSERT on the installed schema, when no row has the
    identifier the counter gives. *)
Lemma exec_seed now db :
  schema_installed db →
  Forall (fun r => get "id" r ≠ VInt (next_id "product_config" db))
         (rows_of "product_config" db) →
  exec_db now seed_product_config db = Ok (seeded now db).
Proof.
  intros Hin Hid. unfold seed_product_config. cbn [exec_db].
  rewrite (installed_lookup db "product_config" product_config Hin) by by_evaluation.
  match goal with |- context [forallb ?f ?l] => change (forallb f l) with true end.
  cbv iota. cbn [insert_tuples]. rewrite bool_decide_eq_true_2 by done.
  unfold insert_row. fold (seed_row now (next_id (tbl_name product_config) db)).
  change (tbl_name product_config) with "product_config".
  rewrite seed_row_checks.
  change (unique_keys product_config) with [("PRIMARY", [Asc "id"])].
  cbn [find_conflict].
  destruct (list_find _ _) as [[i x]|] eqn:Hl.
  - apply list_find_Some in Hl as (Hi & Hc & _).
    apply Is_true_true, key_conflict_true in Hc as [Hc _].
    unfold key_of in Hc. simpl in Hc. rewrite seed_row_id in Hc.
    rewrite Forall_forall in Hid. destruct (Hid x); [by eapply list_elem_of_lookup_2|].
    congruence.
  - destruct Hin as [_ Hf]. by rewrite no_config_parents.
Qed.

Lemma seeded_schema now db : same_schema db (seeded now db).
Proof. apply (same_schema_bump product_config _ (set_rows _ _ db)). Qed.

Lemma seeded_rows now db t :
  rows_of t (seeded now db)
  = if decide (t = "product_config")
    then (rows_of "product_config" db ++ [seed_row now (next_id "product_config" db)])%list
    else rows_of t db.
Proof.
  unfold seeded. rewrite rows_of_bump, rows_of_set_rows.
  destruct (decide (t = "product_config")) as [->|Ht]; [by rewrite decide_True|].
  by rewrite decide_False.
Qed.

Lemma seeded_next_id now db :
  next_id "product_config" (seeded now db) = (next_id "product_config" db + 1)%Z.
Proof.
  unfold seeded, bump_auto_increment.
  change (auto_column product_config) with (Some "id"). cbv iota.
  rewrite seed_row_id. change (tbl_name product_config) with "product_config".
  unfold next_id at 1, set_next_id. cbn [db_auto_increment].
  rewrite lookup_insert_eq. cbn [default]. unfold next_id, set_rows. cbn [db_auto_increment]. unfold id.
  lia.
Qed.

Lemma schema_installed_same db db' :
  same_schema db db' → schema_installed db → schema_installed db'.
Proof. intros [Hc Hf] [Hc' Hf']. split; congruence. Qed.

(** Six CREATE TABLE statements that find their tables. *)
Lemma run_db_tables_installed steps now db :
  schema_installed db →
  ∃ now', run_db ((Fatal <$> tables.*2) ++ steps) now db = run_db steps now' db.
Proof.
  intros Hin. cbn [tables fmap list_fmap snd app run_db exec_db].
  rewrite (create_table_existing search_tasks search_tasks db),
    (create_table_existing channels channels db),
    (create_table_existing channel_video_stats channel_video_stats db),
    (create_table_existing ai_analysis ai_analysis db),
    (create_table_existing api_keys api_keys db),
    (create_table_existing product_config product_config db)
    by (apply (installed_lookup db _ _ Hin); by_evaluation).
  by eexists.
Qed.

Lemma ledger_full_seeded now db : ledger_full db → ledger_full (seeded now db).
Proof.
  intros Hl v d Hv. unfold version_recorded. rewrite seeded_rows.
  rewrite decide_False by done. exact (Hl v d Hv).
Qed.

(** The script on a database that has its schema and its ledger. *)
Lemma rerun_db now db :
  schema_installed db → ledger_full db →
  Forall (fun r => get "id" r ≠ VInt (next_id "product_config" db))
         (rows_of "product_config" db) →
  ∃ now1 now2, run_db schema_steps now db = (seeded now1 db, now2, None).
Proof.
  intros Hin Hl Hid.
  change schema_steps
    with ((Fatal <$> tables.*2)
          ++ ((Tolerated <$> constraints)
              ++ [ Tolerated seed_product_config; CommitNow;
                   Fatal (CREATE_TABLE_IF_NOT_EXISTS schema_migrations);
                   Fatal seed_schema_migrations; CommitNow ]))%list.
  destruct (run_db_tables_installed
              ((Tolerated <$> constraints)
               ++ [ Tolerated seed_product_config; CommitNow;
                    Fatal (CREATE_TABLE_IF_NOT_EXISTS schema_migrations);
                    Fatal seed_schema_migrations; CommitNow ])%list now db Hin)
    as [now' ->].
  pose proof Hin as [_ Hf].
  cbn [constraints foreign_keys map fmap list_fmap app run_db].
  cbn [exec_db].
  assert (is_Some (lookup_table "search_tasks" db)) as H1
    by (exists search_tasks; apply (installed_lookup db _ _ Hin); by_evaluation).
  assert (is_Some (lookup_table "channel_video_stats" db)) as H2
    by (exists channel_video_stats; apply (installed_lookup db _ _ Hin); by_evaluation).
  assert (is_Some (lookup_table "ai_analysis" db)) as H3
    by (exists ai_analysis; apply (installed_lookup db _ _ Hin); by_evaluation).
  rewrite (add_constraint_duplicate fk_parent_task db),
    (add_constraint_duplicate fk_stats_channel db),
    (add_constraint_duplicate fk_stats_task db),
    (add_constraint_duplicate fk_analysis_channel db),
    (add_constraint_duplicate fk_analysis_task db)
    by first [exact H1|exact H2|exact H3|rewrite Hf; by_evaluation].
  rewrite exec_seed by done.
  pose proof (schema_installed_same _ _ (seeded_schema (now' + 1 + 1 + 1 + 1 + 1) db) Hin)
    as Hin1.
  rewrite (create_table_existing schema_migrations schema_migrations)
    by (apply (installed_lookup _ _ _ Hin1); by_evaluation).
  rewrite ledger_exec_seed.
  - rewrite foldl_record_version_id by (by apply ledger_full_seeded). by eexists _, _.
  - apply (installed_lookup _ _ _ Hin1). by_evaluation.
  - destruct Hin1 as [_ ->]. by repeat constructor.
Qed.

Lemma current_selected c name db :
  conn_database c = Some name → conn_databases c !! name = Some db → current c = db.
Proof. intros Hn Hdb. unfold current. rewrite Hn. cbn. by rewrite Hdb. Qed.

Lemma ledger_full_check db :
  forallb (fun vd => version_recorded vd.1 db) migration_versions = true → ledger_full db.
Proof.
  rewrite forallb_elem_of. intros H v d Hv. apply (H (v, d) Hv).
Qed.

Lemma counter_ahead_seeded now db :
  counter_ahead "product_config" db = true →
  counter_ahead "product_config" (seeded now db) = true.
Proof.
  unfold counter_ahead. rewrite seeded_next_id, seeded_rows, decide_True by done.
  rewrite !forallb_elem_of. intros H r [Hr|Hr]%elem_of_app.
  - specialize (H r Hr). destruct (get "id" r) as [|z|]; try done.
    apply bool_decide_eq_true in H. apply bool_decide_eq_true. lia.
  - apply list_elem_of_singleton in Hr as ->. rewrite seed_row_id.
    apply bool_decide_eq_true. lia.
Qed.

(** One more run on what [n] runs left. *)
Lemma after_runs_step n c :
  after_runs n c → after_runs (S n) (w_conn (bootstrap default_arguments c).1).
Proof.
  intros (Hsel & db & Hdb & Hin & Hl & Hc & Hn & Hp & Ho).
  destruct (bootstrap_run default_arguments c default_name_reads) as [-> _].
  unfold target. change (database_name default_arguments) with "youtube_kol_db".
  rewrite Hdb. change (default empty_database (Some db)) with db.
  destruct (rerun_db (conn_clock c + 1 + 1) db Hin Hl (counter_ahead_free _ _ Hc))
    as (now1 & now2 & ->).
  cbn [fst snd]. split; [done|]. exists (seeded now1 db). cbn [conn_databases].
  split_and!.
  - apply lookup_insert_eq.
  - apply (schema_installed_same db); [apply seeded_schema|done].
  - by apply ledger_full_seeded.
  - by apply counter_ahead_seeded.
  - rewrite seeded_rows, decide_True, length_app by done. cbn. lia.
  - rewrite seeded_rows, decide_True by done. apply Forall_app. split; [done|].
    constructor; [apply seed_row_name|constructor].
  - intros t Ht. rewrite seeded_rows, decide_False by done. by apply Ho.
Qed.

Lemma after_first_run : after_runs 1 (rerun 1).
Proof.
  split; [by_evaluation|]. exists bootstrapped. split_and!.
  - by_evaluation.
  - split; by_evaluation.
  - apply ledger_full_check. by_evaluation.
  - by_evaluation.
  - by_evaluation.
  - by_evaluation.
  - done.
Qed.

Lemma after_runs_rerun n : after_runs (S n) (rerun (S n)).
Proof.
  induction n as [|n IH]; [apply after_first_run|].
  change (rerun (S (S n))) with (w_conn (bootstrap default_arguments (rerun (S n))).1).
  by apply after_runs_step.
Qed.

Lemma count_where_all tbl cond db :
  Forall (fun r => Forall (fun cv => get cv.1 r = cv.2) cond) (rows_of tbl db) →
  count_where tbl cond db = length (rows_of tbl db).
Proof.
  unfold count_where. induction 1 as [|r rs Hr Hrs IH]; [done|].
  rewrite filter_cons_True by done. cbn. by rewrite IH.
Qed.

End Rerun.

(** X6. Running the script on a database that already has its schema
    and its ledger, under a name that reads as a name when it is written
    into CREATE DATABASE, changes one thing: [product_config] gets one
    more seed row, under the next identifier.  The tables, the foreign keys
    and the rows of every other table are as they were, and the exit
    status is 0. *)
Theorem rerun_appends_one_seed_row (args : arguments) (c : connection) (db : database) :
  unquoted_identifier (database_name args) = true →
  conn_databases c !! database_name args = Some db →
  schema_installed db →
  ledger_full db →
  Forall (fun r => get "id" r ≠ VInt (next_id "product_config" db))
         (rows_of "product_config" db) →
  (bootstrap args c).2 = Return 0%Z
  ∧ same_schema db (current (w_conn (bootstrap args c).1))
  ∧ (∃ now, rows_of "product_config" (current (w_conn (bootstrap args c).1))
            = (rows_of "product_config" db
               ++ [seed_row now (next_id "product_config" db)])%list)
  ∧ (∀ t, t ≠ "product_config" →
          rows_of t (current (w_conn (bootstrap args c).1)) = rows_of t db).
Proof.
  intros Hname Hdb Hin Hl Hid. destruct (bootstrap_run args c Hname) as [-> ->].
  unfold target. rewrite Hdb. change (default empty_database (Some db)) with db.
  destruct (rerun_db (conn_clock c + 1 + 1) db Hin Hl Hid) as (now1 & now2 & ->).
  cbn [fst snd].
  erewrite (current_selected _ (database_name args) (seeded now1 db));
    [|done|apply lookup_insert_eq].
  split_and!.
  - done.
  - apply seeded_schema.
  - exists now1. by rewrite seeded_rows, decide_True.
  - intros t Ht. by rewrite seeded_rows, decide_False.
Qed.

Lemma crawl_server_ledger_full : ledger_full small_crawl.
Proof. apply ledger_full_check. by_evaluation. Qed.

Lemma rerun_appends_one_seed_row_witness :
  (bootstrap default_arguments crawl_server).2 = Return 0%Z
  ∧ same_schema small_crawl (current (w_conn (bootstrap default_arguments crawl_server).1))
  ∧ (∃ now, rows_of "product_config"
              (current (w_conn (bootstrap default_arguments crawl_server).1))
            = (rows_of "product_config" small_crawl
               ++ [seed_row now (next_id "product_config" small_crawl)])%list)
  ∧ (∀ t, t ≠ "product_config" →
          rows_of t (current (w_conn (bootstrap default_arguments crawl_server).1))
          = rows_of t small_crawl).
Proof.
  apply (rerun_appends_one_seed_row default_arguments crawl_server small_crawl).
  - reflexivity.
  - reflexivity.
  - apply small_crawl_installed.
  - apply crawl_server_ledger_full.
  - apply (bool_decide_unpack _). vm_compute. exact I.
Defined.

(** X7. Every run of the script adds one seed row: after [n] runs from
    an empty server [product_config] holds [n] rows, all of them
    [WMaster Cleanup], and each run exits with status 0.  From the first
    run on the schema is the installed one and every other table is as the
    first run left it. *)
Theorem every_run_adds_a_seed_row (n : nat) :
  (bootstrap default_arguments (rerun n)).2 = Return 0%Z
  ∧ length (rows_of "product_config" (current (rerun n))) = n
  ∧ count_where "product_config" [("product_name", VStr "WMaster Cleanup")]
      (current (rerun n)) = n
  ∧ schema_installed (current (rerun (S n)))
  ∧ (∀ t, t ≠ "product_config" →
          rows_of t (current (rerun (S n))) = rows_of t bootstrapped).
Proof.
  assert (∀ k, ∃ db, current (rerun (S k)) = db
                     ∧ conn_databases (rerun (S k)) !! "youtube_kol_db" = Some db
                     ∧ schema_installed db
                     ∧ ledger_full db
                     ∧ counter_ahead "product_config" db = true
                     ∧ length (rows_of "product_config" db) = S k
                     ∧ Forall (fun r => get "product_name" r = VStr "WMaster Cleanup")
                              (rows_of "product_config" db)
                     ∧ (∀ t, t ≠ "product_config" → rows_of t db = rows_of t bootstrapped))
    as Hafter.
  { intros k. destruct (after_runs_rerun k) as (Hsel & db & Hdb & H).
    exists db. split; [|by split]. by apply (current_selected _ "youtube_kol_db"). }
  split_and!.
  - destruct n as [|k]; [by_evaluation|].
    destruct (Hafter k) as (db & _ & Hdb & Hin & Hl & Hc & _).
    destruct (bootstrap_run default_arguments (rerun (S k)) default_name_reads) as [_ ->].
    unfold target. change (database_name default_arguments) with "youtube_kol_db".
    rewrite Hdb. change (default empty_database (Some db)) with db.
    by destruct (rerun_db (conn_clock (rerun (S k)) + 1 + 1) db Hin Hl
                   (counter_ahead_free _ _ Hc)) as (now1 & now2 & ->).
  - destruct n as [|k]; [by_evaluation|].
    by destruct (Hafter k) as (db & -> & _ & _ & _ & _ & Hn & _).
  - destruct n as [|k]; [by_evaluation|].
    destruct (Hafter k) as (db & -> & _ & _ & _ & _ & Hn & Hp & _).
    rewrite count_where_all; [done|].
    eapply Forall_impl; [done|]. intros r Hr. by repeat constructor.
  - by destruct (Hafter n) as (db & -> & _ & Hin & _).
  - by destruct (Hafter n) as (db & -> & _ & _ & _ & _ & _ & _ & Ho).
Qed.

(** ** Tables and foreign keys that are already there *)

Section AlreadyThere.

Implicit Types (db : database) (d : table_def) (c : connection).

(** The loop of [create_tables] on the engine, for any dictionary of
    CREATE TABLE statements. *)
Lemma create_loop_engine (l : list (string * table_def)) c log name db :
  conn_database c = Some name → conn_databases c !! name = Some db →
  ∃ now',
    for_each l (fun '(table_name, d) =>
      try_except
        (bind (cursor_execute mysql_execute (CREATE_TABLE_IF_NOT_EXISTS d))
              (fun _ => logger INFO ("✓ Table '" ++ table_name ++ "' created")))
        (fun e =>
           bind (logger ERROR ("✗ Failed to create table '" ++ table_name ++ "': " ++ e))
                (fun _ => raise e))) (World c log)
    = (World (Connection (<[name := foldl (fun db d => create_table d db) db l.*2]>
                            (conn_databases c)) (Some name) now')
             (log ++ (created_record <$> l.*1)), Return tt).
Proof.
  revert c log db. induction l as [|[n d] l IH]; intros c log db Hn Hdb.
  - exists (conn_clock c). cbn. rewrite insert_id, app_nil_r by done.
    by destruct c; simplify_eq/=.
  - cbn [for_each].
    rewrite (create_step mysql_execute n (CREATE_TABLE_IF_NOT_EXISTS d)).
    cbn [w_conn w_log]. rewrite (mysql_execute_selected _ c name db) by done.
    cbn [exec_db].
    destruct (IH (Connection (<[name:=create_table d db]> (conn_databases c)) (Some name)
                             (conn_clock c + 1))
                 (log ++ [created_record n])%list (create_table d db) eq_refl
                 (lookup_insert_eq _ _ _)) as [now' ->].
    exists now'. cbn [conn_databases]. rewrite insert_insert_eq.
    rewrite !fmap_cons. cbn [foldl fst snd]. by rewrite <- app_assoc.
Qed.

Lemma create_all_keeps (ds : list table_def) db t d :
  lookup_table t db = Some d →
  lookup_table t (foldl (fun db d => create_table d db) db ds) = Some d
  ∧ rows_of t (foldl (fun db d => create_table d db) db ds) = rows_of t db.
Proof.
  revert db. induction ds as [|d0 ds IH]; intros db Ht; [done|]. cbn [foldl].
  destruct (IH (create_table d0 db)) as [-> ->].
  - by rewrite lookup_create_table, Ht.
  - split; [done|]. apply rows_create_table. by eexists.
Qed.

Lemma create_all_creates (ds : list table_def) db d :
  d ∈ ds → is_Some (lookup_table (tbl_name d) (foldl (fun db d => create_table d db) db ds)).
Proof.
  revert db. induction ds as [|d0 ds IH]; intros db Hd; [by apply elem_of_nil in Hd|].
  cbn [foldl]. apply elem_of_cons in Hd as [->|Hd]; [|by apply IH].
  assert (is_Some (lookup_table (tbl_name d0) (create_table d0 db))) as [d' Hd'].
  { rewrite lookup_create_table. destruct (lookup_table _ db); [by eexists|].
    rewrite bool_decide_eq_true_2 by done. by eexists. }
  exists d'. by apply create_all_keeps.
Qed.

Lemma create_all_constraints (ds : list table_def) db :
  db_constraints (foldl (fun db d => create_table d db) db ds) = db_constraints db.
Proof.
  revert db. induction ds as [|d0 ds IH]; intros db; [done|]. cbn [foldl].
  by rewrite IH, create_table_constraints.
Qed.

Lemma contains_duplicate (name : string) :
  contains "Duplicate"
    ("1826 (HY000): Duplicate foreign key constraint name '" ++ name ++ "'") = true.
Proof. reflexivity. Qed.

(** One ALTER TABLE whose constraint name is taken. *)
Lemma execute_duplicate fk c name db :
  conn_database c = Some name → conn_databases c !! name = Some db →
  is_Some (lookup_table (fk_table fk) db) →
  fk_name fk ∈ map fk_name (db_constraints db) →
  mysql_execute (ALTER_TABLE_ADD_CONSTRAINT fk) c
  = (Connection (conn_databases c) (Some name) (conn_clock c + 1),
     Some ("1826 (HY000): Duplicate foreign key constraint name '" ++ fk_name fk ++ "'")).
Proof.
  intros Hn Hdb Ht Hf. rewrite (mysql_execute_selected _ c name db) by done.
  cbn [exec_db]. by rewrite add_constraint_duplicate.
Qed.

Lemma execute_all_duplicates (fks : list foreign_key) c name db :
  conn_database c = Some name → conn_databases c !! name = Some db →
  (∀ fk, fk ∈ fks → is_Some (lookup_table (fk_table fk) db)
                    ∧ fk_name fk ∈ map fk_name (db_constraints db)) →
  ∃ now',
    (execute_all mysql_execute (map ALTER_TABLE_ADD_CONSTRAINT fks) c).1
    = Connection (conn_databases c) (Some name) now'
    ∧ concat (constraint_log
                <$> (execute_all mysql_execute (map ALTER_TABLE_ADD_CONSTRAINT fks) c).2)
      = [].
Proof.
  revert c. induction fks as [|fk fks IH]; intros c Hn Hdb Hfks.
  - exists (conn_clock c). split; [|done]. by destruct c; simplify_eq/=.
  - cbn [map execute_all].
    destruct (Hfks fk) as [Ht Hf]; [left|].
    rewrite (execute_duplicate fk c name db) by done.
    destruct (IH (Connection (conn_databases c) (Some name) (conn_clock c + 1)) eq_refl Hdb)
      as (now' & Hc & Hlog); [intros fk' Hfk'; apply Hfks; by right|].
    destruct (execute_all _ _ _) as [c2 rs]. cbn [fst snd] in *.
    exists now'. split; [done|]. rewrite fmap_cons. cbn [concat constraint_log].
    by rewrite contains_duplicate.
Qed.

End AlreadyThere.

(** X8. [create_tables] never touches a table that is already there.  On
    a server with a database selected it always returns and reports six
    tables as created; a table that existed keeps its definition, even
    one that differs from the script's, and its rows; afterwards a table
    exists under each of the six names and the foreign keys are as they
    were. *)
Theorem create_tables_keeps_existing (c : connection) (log : list (level * string))
    (name : string) (db : database) :
  conn_database c = Some name → conn_databases c !! name = Some db →
  ∃ db' now',
    create_tables mysql_execute (World c log)
    = (World (Connection (<[name := db']> (conn_databases c)) (Some name) now')
             (log ++ (created_record <$> tables.*1)), Return tt)
    ∧ (∀ t d, lookup_table t db = Some d →
              lookup_table t db' = Some d ∧ rows_of t db' = rows_of t db)
    ∧ (∀ t, t ∈ tables.*1 → is_Some (lookup_table t db'))
    ∧ db_constraints db' = db_constraints db.
Proof.
  intros Hn Hdb.
  destruct (create_loop_engine
              [ ("search_tasks", search_tasks); ("channels", channels);
                ("channel_video_stats", channel_video_stats);
                ("ai_analysis", ai_analysis); ("api_keys", api_keys);
                ("product_config", product_config) ] c log name db Hn Hdb) as [now' Hrun].
  eexists _, now'. split; [exact Hrun|]. split_and!.
  - intros t d. apply create_all_keeps.
  - intros t Ht. cbn in Ht.
    repeat (apply elem_of_cons in Ht as [->|Ht];
            [match goal with
             | |- is_Some (lookup_table ?t _) =>
                 first [apply (create_all_creates _ _ search_tasks)
                       |apply (create_all_creates _ _ channels)
                       |apply (create_all_creates _ _ channel_video_stats)
                       |apply (create_all_creates _ _ ai_analysis)
                       |apply (create_all_creates _ _ api_keys)
                       |apply (create_all_creates _ _ product_config)]; set_solver
             end|]).
    by apply elem_of_nil in Ht.
  - apply create_all_constraints.
Qed.

Lemma create_tables_keeps_existing_witness :
  ∃ db' now',
    create_tables mysql_execute (World drifted_server [])
    = (World (Connection (<["youtube_kol_db" := db']> (conn_databases drifted_server))
                         (Some "youtube_kol_db") now')
             ([] ++ (created_record <$> tables.*1)), Return tt)
    ∧ (∀ t d, lookup_table t drifted = Some d →
              lookup_table t db' = Some d ∧ rows_of t db' = rows_of t drifted)
    ∧ (∀ t, t ∈ tables.*1 → is_Some (lookup_table t db'))
    ∧ db_constraints db' = db_constraints drifted.
Proof.
  apply (create_tables_keeps_existing drifted_server [] "youtube_kol_db" drifted);
    reflexivity.
Defined.

(** X9. [add_foreign_keys] on a database that has the five constraint
    names is silent: every ALTER TABLE is refused as a duplicate, the
    refusal is not logged, and no database of the server changes. *)
Theorem add_foreign_keys_again_is_silent (c : connection) (log : list (level * string))
    (name : string) (db : database) :
  conn_database c = Some name → conn_databases c !! name = Some db →
  (∀ fk, fk ∈ foreign_keys →
         is_Some (lookup_table (fk_table fk) db)
         ∧ fk_name fk ∈ map fk_name (db_constraints db)) →
  ∃ now',
    add_foreign_keys mysql_execute (World c log)
    = (World (Connection (conn_databases c) (Some name) now') log, Return tt).
Proof.
  intros Hn Hdb Hfks. rewrite add_foreign_keys_run. cbn [w_conn w_log].
  destruct (execute_all_duplicates foreign_keys c name db Hn Hdb Hfks) as (now' & Hc & Hl).
  exists now'. unfold constraints. by rewrite Hc, Hl, app_nil_r.
Qed.

Lemma add_foreign_keys_again_is_silent_witness :
  ∃ now',
    add_foreign_keys mysql_execute (World (rerun 1) [])
    = (World (Connection (conn_databases (rerun 1)) (Some "youtube_kol_db") now') [],
       Return tt).
Proof.
  apply (add_foreign_keys_again_is_silent (rerun 1) [] "youtube_kol_db" bootstrapped).
  - reflexivity.
  - apply (bool_decide_unpack _). vm_compute. exact I.
  - intros fk Hfk.
    repeat (apply elem_of_cons in Hfk as [->|Hfk];
            [split; apply (bool_decide_unpack _); vm_compute; exact I|]).
    by apply elem_of_nil in Hfk.
Defined.

(** ** The key of [api_keys] *)

Section ApiKeys.

Implicit Types (db : database) (rs : list row).

(** Under a key that holds, two rows at different places do not collide. *)
Lemma unique_rows_lookup k rs i j (r1 r2 : row) :
  unique_rows k rs = true → (i < j)%nat →
  rs !! i = Some r1 → rs !! j = Some r2 → key_conflict k r1 r2 = false.
Proof.
  revert i j. induction rs as [|r rs IH]; intros i j Hu Hij Hi Hj; [done|].
  cbn [unique_rows] in Hu. apply andb_true_iff in Hu as [Hr Hu].
  destruct j as [|j]; [lia|]. destruct i as [|i].
  - injection Hi as ->. cbn in Hj. rewrite forallb_elem_of in Hr.
    apply negb_true_iff, Hr. by eapply list_elem_of_lookup_2.
  - apply (IH i j); [done|lia|done|done].
Qed.

Lemma api_keys_unique h :
  unique_rows [Prefix "api_key" 255] (rows_of "api_keys" (run_history h bootstrapped)) = true.
Proof.
  pose proof (history_keys_hold h "api_keys" api_keys) as Hk.
  rewrite table_unique_true in Hk.
  apply (Hk ltac:(apply run_history_keeps; [apply bootstrapped_keys_hold|by_evaluation])
            ("uk_api_key", [Prefix "api_key" 255])).
  by_evaluation.
Qed.

End ApiKeys.

(** X10. [api_keys] is unique on the first 255 characters of the key, not
    on the key: in every state reached from the bootstrapped schema, two
    rows never hold keys that agree on their first 255 characters, so of
    two longer keys that differ only after them the table takes one. *)
Theorem api_key_unique_on_prefix (h : list (Z * stmt)) (i j : nat) (r1 r2 : row)
    (k1 k2 : string) :
  rows_of "api_keys" (run_history h bootstrapped) !! i = Some r1 →
  rows_of "api_keys" (run_history h bootstrapped) !! j = Some r2 →
  i ≠ j →
  get "api_key" r1 = VStr k1 → get "api_key" r2 = VStr k2 →
  String.substring 0 255 k1 ≠ String.substring 0 255 k2.
Proof.
  intros Hi Hj Hij H1 H2 Heq. pose proof (api_keys_unique h) as Hu.
  assert (∀ i j ri rj ki kj,
            rows_of "api_keys" (run_history h bootstrapped) !! i = Some ri →
            rows_of "api_keys" (run_history h bootstrapped) !! j = Some rj →
            (i < j)%nat → get "api_key" ri = VStr ki → get "api_key" rj = VStr kj →
            String.substring 0 255 ki ≠ String.substring 0 255 kj) as Hlt.
  { clear -Hu. intros i j ri rj ki kj Hi Hj Hij Hki Hkj Heq.
    pose proof (unique_rows_lookup _ _ i j ri rj Hu Hij Hi Hj) as Hc.
    assert (key_conflict [Prefix "api_key" 255] ri rj = true); [|congruence].
    apply key_conflict_true. unfold key_of. cbn [map part_value].
    rewrite Hki, Hkj, Heq. split; [done|].
    rewrite not_elem_of_cons. split; [done|apply not_elem_of_nil]. }
  destruct (decide (i < j)%nat) as [Hlt'|Hge].
  - by apply (Hlt i j r1 r2 k1 k2).
  - apply (Hlt j i r2 r1 k2 k1); [done|done|lia|done|done|done].
Qed.

Lemma api_key_unique_on_prefix_witness :
  String.substring 0 255 "AIza-one" ≠ String.substring 0 255 "AIza-two".
Proof.
  apply (api_key_unique_on_prefix
           [(100%Z, insert_api_key "AIza-one"); (101%Z, insert_api_key "AIza-two")]
           0 1
           (new_row 100 1 api_keys
              (given_row 100 ["api_key"; "api_type"]
                 [Lit (VStr "AIza-one"); Lit (VStr "youtube")]))
           (new_row 101 2 api_keys
              (given_row 101 ["api_key"; "api_type"]
                 [Lit (VStr "AIza-two"); Lit (VStr "youtube")]))).
  - apply (bool_decide_unpack _). vm_compute. exact I.
  - apply (bool_decide_unpack _). vm_compute. exact I.
  - lia.
  - reflexivity.
  - reflexivity.
Defined.

(** Two keys of 256 characters that differ in the last one: the second
    is refused. *)
Example long_keys_collide :
  long_key "a" ≠ long_key "b"
  ∧ accepted 100 (insert_api_key (long_key "a")) bootstrapped = true
  ∧ accepted 101 (insert_api_key (long_key "b"))
      (apply_stmt bootstrapped (100%Z, insert_api_key (long_key "a"))) = false
  ∧ accepted 101 (insert_api_key "AIza-two")
      (apply_stmt bootstrapped (100%Z, insert_api_key (long_key "a"))) = true.
Proof. split_and!; by_evaluation. Qed.

(** * References stay valid *)

Section References.

Implicit Types (db : database) (fk : foreign_key) (rs victims : list row).

Local Ltac no_reference := repeat constructor; discriminate.

(** Deleting tasks by any condition. *)
Lemma delete_tasks n p db :
  schema_installed db →
  ∃ db',
    delete_where (S (S n)) "search_tasks" p db = Ok db'
    ∧ (db' = db
       ∨ (same_schema db db'
          ∧ rows_of "search_tasks" db'
            = set_null (filter (fun r => Is_true (p r)) (rows_of "search_tasks" db))
                       fk_parent_task
              <$> filter (fun r => ¬ Is_true (p r)) (rows_of "search_tasks" db)
          ∧ rows_of "channel_video_stats" db'
            = filter (fun r => ¬ Is_true
                         (references (filter (fun r => Is_true (p r))
                                             (rows_of "search_tasks" db))
                                     fk_stats_task r))
                     (rows_of "channel_video_stats" db)
          ∧ rows_of "ai_analysis" db'
            = filter (fun r => ¬ Is_true
                         (references (filter (fun r => Is_true (p r))
                                             (rows_of "search_tasks" db))
                                     fk_analysis_task r))
                     (rows_of "ai_analysis" db)
          ∧ ∀ name, name ∉ ["search_tasks"; "channel_video_stats"; "ai_analysis"] →
                    rows_of name db' = rows_of name db)).
Proof.
  intros Hs. pose proof Hs as [_ Hfk]. rewrite delete_where_S.
  set (victims := filter (fun r => Is_true (p r)) (rows_of "search_tasks" db)) in *.
  case_bool_decide as Hv; [exists db; split; [done|by left]|].
  rewrite Hfk. unfold foreign_keys. cbn [foldl].
  rewrite on_parent_delete_set_null by done.
  rewrite on_parent_delete_skip by done.
  rewrite on_parent_delete_cascade by done.
  match goal with
  | |- context [delete_where (S n) ?t ?q ?d] =>
      destruct (delete_leaf n t q d) as (db3 & -> & Hs3 & Hr3);
        [simpl; rewrite Hfk; no_reference|]
  end.
  rewrite on_parent_delete_skip by done.
  rewrite on_parent_delete_cascade by done.
  match goal with
  | |- context [delete_where (S n) ?t ?q ?d] =>
      destruct (delete_leaf n t q d) as (db4 & -> & Hs4 & Hr4);
        [destruct Hs3 as [_ ->]; simpl; rewrite Hfk; no_reference|]
  end.
  exists db4. split; [done|]. right. split_and!.
  - eapply same_schema_trans; [|done]. eapply same_schema_trans; [|done]. done.
  - rewrite Hr4, decide_False by done. rewrite Hr3, decide_False by done.
    simpl. by rewrite !rows_of_set_rows, !decide_True by done.
  - rewrite Hr4, decide_False by done. rewrite Hr3, decide_True by done.
    simpl. by rewrite !rows_of_set_rows, !decide_False by done.
  - rewrite Hr4, decide_True by done. rewrite Hr3, decide_False by done.
    simpl. by rewrite !rows_of_set_rows, !decide_False by done.
  - intros name Hname. rewrite !not_elem_of_cons in Hname.
    destruct Hname as (? & ? & ? & _).
    rewrite Hr4, decide_False by done. rewrite Hr3, decide_False by done.
    simpl. by rewrite !rows_of_set_rows, !decide_False by done.
Qed.

(** Deleting channels by any condition. *)
Lemma delete_channels n p db :
  schema_installed db →
  ∃ db',
    delete_where (S (S n)) "channels" p db = Ok db'
    ∧ (db' = db
       ∨ (same_schema db db'
          ∧ rows_of "channels" db'
            = filter (fun r => ¬ Is_true (p r)) (rows_of "channels" db)
          ∧ rows_of "channel_video_stats" db'
            = filter (fun r => ¬ Is_true
                         (references (filter (fun r => Is_true (p r))
                                             (rows_of "channels" db))
                                     fk_stats_channel r))
                     (rows_of "channel_video_stats" db)
          ∧ rows_of "ai_analysis" db'
            = filter (fun r => ¬ Is_true
                         (references (filter (fun r => Is_true (p r))
                                             (rows_of "channels" db))
                                     fk_analysis_channel r))
                     (rows_of "ai_analysis" db)
          ∧ ∀ name, name ∉ ["channels"; "channel_video_stats"; "ai_analysis"] →
                    rows_of name db' = rows_of name db)).
Proof.
  intros Hs. pose proof Hs as [_ Hfk]. rewrite delete_where_S.
  set (victims := filter (fun r => Is_true (p r)) (rows_of "channels" db)) in *.
  case_bool_decide as Hv; [exists db; split; [done|by left]|].
  rewrite Hfk. unfold foreign_keys. cbn [foldl].
  rewrite on_parent_delete_skip by done.
  rewrite on_parent_delete_cascade by done.
  match goal with
  | |- context [delete_where (S n) ?t ?q ?d] =>
      destruct (delete_leaf n t q d) as (db3 & -> & Hs3 & Hr3);
        [simpl; rewrite Hfk; no_reference|]
  end.
  rewrite on_parent_delete_skip by done.
  rewrite on_parent_delete_cascade by done.
  match goal with
  | |- context [delete_where (S n) ?t ?q ?d] =>
      destruct (delete_leaf n t q d) as (db4 & -> & Hs4 & Hr4);
        [destruct Hs3 as [_ ->]; simpl; rewrite Hfk; no_reference|]
  end.
  rewrite on_parent_delete_skip by done.
  exists db4. split; [done|]. right. split_and!.
  - eapply same_schema_trans; [|done]. eapply same_schema_trans; [|done]. done.
  - rewrite Hr4, decide_False by done. rewrite Hr3, decide_False by done.
    by rewrite rows_of_set_rows, decide_True by done.
  - rewrite Hr4, decide_False by done. rewrite Hr3, decide_True by done.
    by rewrite rows_of_set_rows, decide_False by done.
  - rewrite Hr4, decide_True by done. rewrite Hr3, decide_False by done.
    by rewrite rows_of_set_rows, decide_False by done.
  - intros name Hname. rewrite !not_elem_of_cons in Hname.
    destruct Hname as (? & ? & ? & _).
    rewrite Hr4, decide_False by done. rewrite Hr3, decide_False by done.
    by rewrite rows_of_set_rows, decide_False by done.
Qed.

Lemma check_parents_None db tbl r fk :
  check_parents db tbl r = None → fk ∈ db_constraints db → fk_table fk = tbl →
  get (fk_column fk) r = VNull
  ∨ ∃ p, p ∈ (rows_of (fk_ref_table fk) db
              ++ (if bool_decide (fk_ref_table fk = tbl) then [r] else []))%list
         ∧ get (fk_ref_column fk) p = get (fk_column fk) r.
Proof.
  unfold check_parents. intros Hc Hfk Ht.
  destruct (list_find _ _) as [[i x]|] eqn:Hl; [done|].
  rewrite list_find_None, Forall_forall in Hl. specialize (Hl fk Hfk).
  destruct (parent_exists db tbl r fk) eqn:Hp; [|destruct Hl; split; [done|by intros []]].
  unfold parent_exists in Hp. apply orb_true_iff in Hp as [Hp|Hp].
  - left. by apply bool_decide_eq_true in Hp.
  - right. apply existsb_exists in Hp as (p & Hin%list_elem_of_In & Heq%bool_decide_eq_true).
    by exists p.
Qed.

(** A row that is appended keeps every reference valid, its own
    included. *)
Lemma insert_row_references now mode d given db db' :
  match mode with ON_DUPLICATE_KEY_UPDATE _ => False | _ => True end →
  insert_row now mode d given db = Ok db' →
  references_hold db → references_hold db'.
Proof.
  intros Hmode. unfold insert_row. destruct (check_row _ _); [done|].
  destruct (find_conflict _ _ _) as [[key i]|]; [by destruct mode|].
  destruct (check_parents _ _ _) eqn:Hc; [done|]. intros [= <-] [Hs Hr].
  set (r := new_row now (next_id (tbl_name d) db) d given) in *.
  set (tbl := tbl_name d) in *.
  assert (∀ t, rows_of t (bump_auto_increment d r (set_rows tbl (rows_of tbl db ++ [r]) db))
               = if decide (tbl = t) then (rows_of tbl db ++ [r])%list else rows_of t db)
    as Hrows.
  { intros t. by rewrite rows_of_bump, rows_of_set_rows. }
  assert (∀ t x, x ∈ rows_of t db →
                 x ∈ rows_of t (bump_auto_increment d r
                                  (set_rows tbl (rows_of tbl db ++ [r]) db))) as Hgrow.
  { intros t x Hx. rewrite Hrows. case_decide; [|done]. subst t.
    apply elem_of_app. by left. }
  split.
  - eapply schema_installed_same; [|done].
    apply (same_schema_bump d _ (set_rows _ _ db)).
  - intros fk Hfk r0 Hr0. rewrite Hrows in Hr0.
    assert (r0 ∈ rows_of (fk_table fk) db → 
            get (fk_column fk) r0 = VNull
            ∨ ∃ p, p ∈ rows_of (fk_ref_table fk)
                         (bump_auto_increment d r
                            (set_rows tbl (rows_of tbl db ++ [r]) db))
                   ∧ get (fk_ref_column fk) p = get (fk_column fk) r0) as Hold.
    { intros Hin. destruct (Hr fk Hfk r0 Hin) as [?|(p & Hp & Heq)]; [by left|].
      right. exists p. split; [by apply Hgrow|done]. }
    case_decide as Ht; [|by apply Hold].
    apply elem_of_app in Hr0 as [Hr0|Hr0]; [apply Hold; by rewrite <- Ht|].
    apply list_elem_of_singleton in Hr0 as ->.
    destruct (check_parents_None db tbl r fk Hc) as [?|(p & Hp & Heq)];
      [destruct Hs as [_ ->]; done|done|by left|].
    right. exists p. split; [|done]. rewrite Hrows.
    apply elem_of_app in Hp as [Hp|Hp].
    + case_decide as Hd; [|done]. rewrite <- Hd in Hp. apply elem_of_app. by left.
    + case_bool_decide as Href; [|by apply elem_of_nil in Hp].
      rewrite decide_True by done. apply elem_of_app. by right.
Qed.

Lemma insert_tuples_references now mode d cols tuples db db' :
  match mode with ON_DUPLICATE_KEY_UPDATE _ => False | _ => True end →
  insert_tuples now mode d cols tuples db = Ok db' →
  references_hold db → references_hold db'.
Proof.
  intros Hmode. revert db. induction tuples as [|t ts IH]; simpl; intros db.
  - by intros [= <-].
  - case_bool_decide; [|done].
    destruct (insert_row _ _ _ _ _) as [db1|e] eqn:Hi.
    + intros Ht Hr. apply (IH db1); [done|]. by eapply insert_row_references.
    + destruct mode; try done. apply IH.
Qed.

Lemma references_intro victims fk child q :
  q ∈ victims → get (fk_ref_column fk) q = get (fk_column fk) child →
  get (fk_column fk) child ≠ VNull → Is_true (references victims fk child).
Proof.
  intros Hq Heq Hn. unfold references. apply andb_prop_intro. split.
  - apply Is_true_true, negb_true_iff. by apply bool_decide_eq_false_2.
  - apply Is_true_true, existsb_exists. exists q.
    split; [by apply list_elem_of_In|by apply bool_decide_eq_true].
Qed.

Lemma references_nil fk child : references [] fk child = false.
Proof. unfold references. cbn. apply andb_false_r. Qed.

Lemma set_null_other victims fk c (r : row) :
  c ≠ fk_column fk → get c (set_null victims fk r) = get c r.
Proof.
  intros Hc. unfold set_null. destruct (references _ _ _); [|done].
  by apply get_insert_ne.
Qed.

Lemma set_null_at victims fk (r : row) :
  get (fk_column fk) (set_null victims fk r) = VNull
  ∨ (set_null victims fk r = r ∧ ¬ Is_true (references victims fk r)).
Proof.
  unfold set_null. destruct (references _ _ _); [left|right; split; [done|by intros []]].
  unfold get. by rewrite lookup_insert_eq.
Qed.

(** References survive when every child row that is left comes from a
    row that pointed at no victim, and every parent that was no victim is
    still there under its key. *)
Lemma refers_after fk victims db db' :
  refers fk db →
  (∀ r', r' ∈ rows_of (fk_table fk) db' →
     get (fk_column fk) r' = VNull
     ∨ ∃ r, r ∈ rows_of (fk_table fk) db
            ∧ get (fk_column fk) r' = get (fk_column fk) r
            ∧ ¬ Is_true (references victims fk r)) →
  (∀ q, q ∈ rows_of (fk_ref_table fk) db → q ∉ victims →
     ∃ q', q' ∈ rows_of (fk_ref_table fk) db'
           ∧ get (fk_ref_column fk) q' = get (fk_ref_column fk) q) →
  refers fk db'.
Proof.
  intros Hr Hchild Hparent r' Hr'.
  destruct (Hchild r' Hr') as [?|(r & Hin & Heq & Hnot)]; [by left|].
  destruct (Hr r Hin) as [Hn|(q & Hq & Hqr)]; [left; congruence|].
  destruct (decide (get (fk_column fk) r = VNull)) as [Hn|Hn]; [left; congruence|].
  right. destruct (Hparent q Hq) as (q' & Hq' & Heq').
  - intros Hv. apply Hnot. by eapply references_intro.
  - exists q'. split; [done|]. congruence.
Qed.

Lemma not_victim (p : row → bool) rs q :
  q ∈ rs → q ∉ filter (fun r => Is_true (p r)) rs → q ∈ filter (fun r => ¬ Is_true (p r)) rs.
Proof.
  intros Hq Hn. apply list_elem_of_filter. split; [|done].
  intros Hp. apply Hn. by apply list_elem_of_filter.
Qed.

Lemma delete_tasks_references n p db db' :
  delete_where (S (S n)) "search_tasks" p db = Ok db' →
  references_hold db → references_hold db'.
Proof.
  intros Hdel [Hs Hr].
  destruct (delete_tasks n p db Hs) as (db1 & Hdel1 & Hcase).
  rewrite Hdel in Hdel1. injection Hdel1 as <-.
  destruct Hcase as [->|(Hsame & Ht & Hst & Han & Hoth)]; [done|].
  set (victims := filter (fun r => Is_true (p r)) (rows_of "search_tasks" db)) in *.
  assert (∀ q, q ∈ rows_of "search_tasks" db → q ∉ victims →
            ∃ q', q' ∈ rows_of "search_tasks" db'
                  ∧ get "task_id" q' = get "task_id" q) as Hparent.
  { intros q Hq Hv. exists (set_null victims fk_parent_task q). split.
    - rewrite Ht. apply list_elem_of_fmap. exists q. split; [done|]. by apply not_victim.
    - by apply set_null_other. }
  assert (rows_of "channels" db' = rows_of "channels" db) as Hch.
  { apply Hoth. rewrite !not_elem_of_cons. split_and!; try done. apply not_elem_of_nil. }
  split; [by eapply schema_installed_same|].
  intros fk Hfk. pose proof (Hr fk Hfk) as Hold.
  repeat (apply elem_of_cons in Hfk as [->|Hfk]); [..|by apply elem_of_nil in Hfk].
  - apply (refers_after _ victims db); [done| |exact Hparent].
    cbn [fk_table fk_column fk_parent_task]. intros r' Hr'. rewrite Ht in Hr'.
    apply list_elem_of_fmap in Hr' as (r & -> & [_ Hin]%list_elem_of_filter).
    destruct (set_null_at victims fk_parent_task r) as [?|[-> ?]]; [by left|].
    right. by exists r.
  - apply (refers_after _ [] db); [done| |].
    + cbn [fk_table fk_column fk_stats_channel]. intros r' Hr'. rewrite Hst in Hr'.
      apply list_elem_of_filter in Hr' as [_ Hin]. right. exists r'.
      split_and!; [done|done|]. rewrite references_nil. by intros [].
    + cbn [fk_ref_table fk_ref_column fk_stats_channel]. intros q Hq _.
      exists q. by rewrite Hch.
  - apply (refers_after _ victims db); [done| |exact Hparent].
    cbn [fk_table fk_column fk_stats_task]. intros r' Hr'. rewrite Hst in Hr'.
    apply list_elem_of_filter in Hr' as [Hnot Hin]. right. by exists r'.
  - apply (refers_after _ [] db); [done| |].
    + cbn [fk_table fk_column fk_analysis_channel]. intros r' Hr'. rewrite Han in Hr'.
      apply list_elem_of_filter in Hr' as [_ Hin]. right. exists r'.
      split_and!; [done|done|]. rewrite references_nil. by intros [].
    + cbn [fk_ref_table fk_ref_column fk_analysis_channel]. intros q Hq _.
      exists q. by rewrite Hch.
  - apply (refers_after _ victims db); [done| |exact Hparent].
    cbn [fk_table fk_column fk_analysis_task]. intros r' Hr'. rewrite Han in Hr'.
    apply list_elem_of_filter in Hr' as [Hnot Hin]. right. by exists r'.
Qed.

Lemma delete_channels_references n p db db' :
  delete_where (S (S n)) "channels" p db = Ok db' →
  references_hold db → references_hold db'.
Proof.
  intros Hdel [Hs Hr].
  destruct (delete_channels n p db Hs) as (db1 & Hdel1 & Hcase).
  rewrite Hdel in Hdel1. injection Hdel1 as <-.
  destruct Hcase as [->|(Hsame & Hc & Hst & Han & Hoth)]; [done|].
  set (victims := filter (fun r => Is_true (p r)) (rows_of "channels" db)) in *.
  assert (∀ q, q ∈ rows_of "channels" db → q ∉ victims →
            ∃ q', q' ∈ rows_of "channels" db'
                  ∧ get "channel_id" q' = get "channel_id" q) as Hparent.
  { intros q Hq Hv. exists q. split; [|done]. rewrite Hc. by apply not_victim. }
  assert (rows_of "search_tasks" db' = rows_of "search_tasks" db) as Hts.
  { apply Hoth. rewrite !not_elem_of_cons. split_and!; try done. apply not_elem_of_nil. }
  split; [by eapply schema_installed_same|].
  intros fk Hfk. pose proof (Hr fk Hfk) as Hold.
  repeat (apply elem_of_cons in Hfk as [->|Hfk]); [..|by apply elem_of_nil in Hfk].
  - apply (refers_after _ [] db); [done| |].
    + cbn [fk_table fk_column fk_parent_task]. intros r' Hr'. rewrite Hts in Hr'.
      right. exists r'. split_and!; [done|done|]. rewrite references_nil. by intros [].
    + cbn [fk_ref_table fk_ref_column fk_parent_task]. intros q Hq _.
      exists q. by rewrite Hts.
  - apply (refers_after _ victims db); [done| |exact Hparent].
    cbn [fk_table fk_column fk_stats_channel]. intros r' Hr'. rewrite Hst in Hr'.
    apply list_elem_of_filter in Hr' as [Hnot Hin]. right. by exists r'.
  - apply (refers_after _ [] db); [done| |].
    + cbn [fk_table fk_column fk_stats_task]. intros r' Hr'. rewrite Hst in Hr'.
      apply list_elem_of_filter in Hr' as [_ Hin]. right. exists r'.
      split_and!; [done|done|]. rewrite references_nil. by intros [].
    + cbn [fk_ref_table fk_ref_column fk_stats_task]. intros q Hq _.
      exists q. by rewrite Hts.
  - apply (refers_after _ victims db); [done| |exact Hparent].
    cbn [fk_table fk_column fk_analysis_channel]. intros r' Hr'. rewrite Han in Hr'.
    apply list_elem_of_filter in Hr' as [Hnot Hin]. right. by exists r'.
  - apply (refers_after _ [] db); [done| |].
    + cbn [fk_table fk_column fk_analysis_task]. intros r' Hr'. rewrite Han in Hr'.
      apply list_elem_of_filter in Hr' as [_ Hin]. right. exists r'.
      split_and!; [done|done|]. rewrite references_nil. by intros [].
    + cbn [fk_ref_table fk_ref_column fk_analysis_task]. intros q Hq _.
      exists q. by rewrite Hts.
Qed.

(** Deleting from a table no foreign key refers to. *)
Lemma delete_leaf_references n tbl p db db' :
  tbl ≠ "search_tasks" → tbl ≠ "channels" →
  delete_where (S n) tbl p db = Ok db' →
  references_hold db → references_hold db'.
Proof.
  intros Ht Hc Hdel [Hs Hr]. pose proof Hs as [_ Hfks].
  destruct (delete_leaf n tbl p db) as (db1 & Hdel1 & Hsame & Hrows).
  { rewrite Hfks. repeat constructor; simpl; congruence. }
  rewrite Hdel in Hdel1. injection Hdel1 as <-.
  split; [by eapply schema_installed_same|].
  intros fk Hfk. apply (refers_after _ [] db); [by apply Hr| |].
  - intros r' Hr'. rewrite Hrows in Hr'. right. exists r'. split_and!.
    + case_decide as Hd; [|done]. rewrite <- Hd.
      by apply list_elem_of_filter in Hr' as [_ ?].
    + done.
    + rewrite references_nil. by intros [].
  - intros q Hq _. exists q. split; [|done]. rewrite Hrows.
    rewrite decide_False; [done|].
    repeat (apply elem_of_cons in Hfk as [->|Hfk]); [..|by apply elem_of_nil in Hfk];
      simpl; congruence.
Qed.

Lemma exec_db_references now s db db' :
  adds_or_removes s = true →
  exec_db now s db = Ok db' → references_hold db → references_hold db'.
Proof.
  destruct s as [| | | |mode tbl cols tuples| |tbl col v]; try done.
  - intros Hmode. cbn [exec_db]. destruct (lookup_table tbl db) as [d|]; [|done].
    destruct (forallb _ cols); [|done]. apply insert_tuples_references.
    by destruct mode.
  - intros _. cbn [exec_db]. destruct (lookup_table tbl db) as [d|]; [|done].
    destruct (known_column d col); [|done].
    change max_cascade_depth with (S (S 13)).
    destruct (decide (tbl = "search_tasks")) as [->|Ht];
      [apply delete_tasks_references|].
    destruct (decide (tbl = "channels")) as [->|Hc];
      [apply delete_channels_references|].
    by apply delete_leaf_references.
Qed.

Lemma history_references h db :
  Forall (fun ts => adds_or_removes ts.2 = true) h →
  references_hold db → references_hold (run_history h db).
Proof.
  intros Hh. revert db. induction Hh as [|[now s] h Hs Hh IH]; intros db Hr; [done|].
  cbn [run_history foldl]. apply IH. unfold apply_stmt. cbn [fst snd].
  destruct (exec_db now s db) as [db'|e] eqn:He; [|done].
  by eapply exec_db_references.
Qed.

Lemma bootstrapped_references : references_hold bootstrapped.
Proof.
  split; [split; by_evaluation|]. intros fk Hfk r Hr.
  assert (rows_of (fk_table fk) bootstrapped = []) as Hnone.
  { repeat (apply elem_of_cons in Hfk as [->|Hfk]); [..|by apply elem_of_nil in Hfk];
      by_evaluation. }
  rewrite Hnone in Hr. clear -Hr. by apply elem_of_nil in Hr.
Qed.

End References.

(** X11. The foreign keys keep every reference valid.  In every state
    reached from the bootstrapped schema by INSERT, INSERT IGNORE and
    DELETE statements, each row of [channel_video_stats] and of
    [ai_analysis] names a channel and a task that exist, and each task
    names a parent that exists or none: an INSERT without its parent is
    refused, and a DELETE takes the rows that refer to what it deletes
    with it, or sets the parent of a task to NULL. *)
Theorem references_stay_valid (h : list (Z * stmt)) (fk : foreign_key) (r : row) :
  Forall (fun ts => adds_or_removes ts.2 = true) h →
  fk ∈ foreign_keys →
  r ∈ rows_of (fk_table fk) (run_history h bootstrapped) →
  get (fk_column fk) r = VNull
  ∨ ∃ p, p ∈ rows_of (fk_ref_table fk) (run_history h bootstrapped)
         ∧ get (fk_ref_column fk) p = get (fk_column fk) r.
Proof.
  intros Hh Hfk Hr.
  destruct (history_references h bootstrapped Hh bootstrapped_references) as [_ Hall].
  by apply Hall.
Qed.

(** The child of the deleted task is still there, without a parent. *)
Lemma references_stay_valid_witness :
  get "parent_task_id"
      (default ∅ (head (rows_of "search_tasks" (run_history orphaning bootstrapped))))
  = VNull
  ∨ ∃ p, p ∈ rows_of "search_tasks" (run_history orphaning bootstrapped)
         ∧ get "task_id" p
           = get "parent_task_id"
               (default ∅ (head (rows_of "search_tasks"
                                   (run_history orphaning bootstrapped)))).
Proof.
  apply (references_stay_valid orphaning fk_parent_task
           (default ∅ (head (rows_of "search_tasks" (run_history orphaning bootstrapped))))).
  - apply (bool_decide_unpack _). vm_compute. exact I.
  - apply (bool_decide_unpack _). vm_compute. exact I.
  - apply (bool_decide_unpack _). vm_compute. exact I.
Defined.

Example orphaning_leaves :
  map (fun r => (get "task_id" r, get "parent_task_id" r))
      (rows_of "search_tasks" (run_history orphaning bootstrapped))
  = [(VStr "T2", VNull)]
  ∧ rows_of "channel_video_stats" (run_history orphaning bootstrapped) ≠ [].
Proof. split; by_evaluation. Qed.

(** * The connectivity tests *)

(** ** Rules for the control flow *)

Section IoRules.

Import TestApis.

Context {A B : Type}.
Implicit Types (m : io A) (k : A → io B).

Lemma bind_pure a k : (TestApis.pure a ≫= k) = k a.
Proof. unfold mbind, io_bind, and_then, TestApis.pure. by destruct (k a). Qed.

Lemma bind_throw e k : (throw e ≫= k) = throw e.
Proof. done. Qed.

Lemma bind_log_first l msg (k : unit → io B) :
  (log l msg ≫= k) = ((l, msg) :: (k tt).1, (k tt).2).
Proof. unfold mbind, io_bind, and_then, log. by destruct (k tt). Qed.

Lemma bind_lift_inr a k : (lift (inr a) ≫= k) = k a.
Proof. apply bind_pure. Qed.

Lemma bind_lift_inl e k : (lift (inl e) ≫= k) = throw e.
Proof. done. Qed.

Lemma bind_inr m k b :
  (m ≫= k).2 = inr b ↔ ∃ a, m.2 = inr a ∧ (k a).2 = inr b.
Proof.
  unfold mbind, io_bind, and_then. destruct m as [l [e|a]]; cbn.
  - split; [intros [=]|]. by intros (a & [=] & _).
  - destruct (k a) as [l' r] eqn:Hk. split.
    + intros ?. exists a. by rewrite Hk.
    + intros (a' & [= <-] & H). by rewrite Hk in H.
Qed.

Lemma bind_inl m k e :
  (m ≫= k).2 = inl e ↔ m.2 = inl e ∨ ∃ a, m.2 = inr a ∧ (k a).2 = inl e.
Proof.
  unfold mbind, io_bind, and_then. destruct m as [l [e'|a]]; cbn.
  - split; [intros [= ->]; by left|]. by intros [[= ->]|(a & [=] & _)].
  - destruct (k a) as [l' r] eqn:Hk. split.
    + intros ?. right. exists a. by rewrite Hk.
    + intros [[=]|(a' & [= <-] & H)]. by rewrite Hk in H.
Qed.

Lemma bind_log m k : (m ≫= k).1 = (m.1 ++ match m.2 with
                                          | inr a => (k a).1
                                          | inl _ => []
                                          end)%list.
Proof.
  unfold mbind, io_bind, and_then. destruct m as [l [e|a]]; cbn.
  - by rewrite app_nil_r.
  - by destruct (k a).
Qed.

End IoRules.

Section AttemptRules.

Import TestApis.

Context {A : Type}.
Implicit Types (m : io A) (handler : exn → io A).

Lemma attempt_inr m handler b :
  (attempt m handler).2 = inr b ↔
  m.2 = inr b ∨ ∃ e, m.2 = inl e ∧ (handler e).2 = inr b.
Proof.
  unfold attempt. destruct m as [l [e|a]]; cbn.
  - destruct (handler e) as [l' r] eqn:Hh. split.
    + intros ?. right. exists e. by rewrite Hh.
    + intros [[=]|(e' & [= <-] & H)]. by rewrite Hh in H.
  - split; [intros ?; by left|]. by intros [?|(e' & [=] & _)].
Qed.

Lemma attempt_inl m handler e :
  (attempt m handler).2 = inl e ↔ ∃ e', m.2 = inl e' ∧ (handler e').2 = inl e.
Proof.
  unfold attempt. destruct m as [l [e'|a]]; cbn.
  - destruct (handler e') as [l' r] eqn:Hh. split.
    + intros ?. exists e'. by rewrite Hh.
    + intros (e'' & [= <-] & H). by rewrite Hh in H.
  - split; [intros [=]|]. by intros (e'' & [=] & _).
Qed.

Lemma attempt_total m handler :
  (∀ e, ∃ b, (handler e).2 = inr b) → ∃ b, (attempt m handler).2 = inr b.
Proof.
  intros Hh. destruct m as [l [e|a]]; cbn; [|by exists a].
  destruct (Hh e) as [b Hb]. exists b. by destruct (handler e).
Qed.

End AttemptRules.

(** ** The YouTube test *)

Section YouTube.

Import TestApis.

Variable env : services.

Local Ltac io_skip H :=
  let a := fresh "a" in
  let Ha := fresh "Ha" in
  apply bind_inr in H as (a & Ha & H); cbn beta in H; clear Ha; try clear a.

Local Tactic Notation "io_step" hyp(H) "as" simple_intropattern(a) simple_intropattern(Ha) :=
  apply bind_inr in H as (a & Ha & H); cbn beta in H.

(** What a run that answers [True] has seen. *)
Lemma youtube_passes key :
  (test_youtube_api env key).2 = inr true →
  ∃ search_response channel_id channel_response items channel details playlists
    uploads playlist_response,
    search_list env key = inr search_response
    ∧ channels_list env key channel_id = inr channel_response
    ∧ subscript channel_response "items" = inr items
    ∧ first items = inr channel
    ∧ subscript channel "contentDetails" = inr details
    ∧ subscript details "relatedPlaylists" = inr playlists
    ∧ subscript playlists "uploads" = inr uploads
    ∧ playlist_items_list env key uploads = inr playlist_response.
Proof.
  unfold test_youtube_api. intros H.
  io_skip H. apply attempt_inr in H as [H|(e & _ & H)].
  - do 2 io_skip H. io_step H as search_response Hsearch.
    do 3 io_skip H. io_step H as found Hfound. io_step H as chan Hchan.
    io_skip H. io_step H as channel Hbound. io_step H as details Hdetails.
    io_step H as playlists Hplaylists. io_step H as uploads Huploads.
    io_step H as playlist_response Hplaylist. clear H.
    destruct chan as [c|]; [|done]. injection Hbound as ->.
    destruct (truthy found); [|by cbn in Hchan].
    do 3 io_skip Hchan. io_step Hchan as channel_id Hid.
    io_step Hchan as channel_response Hresp. io_step Hchan as found' Hfound'.
    destruct (truthy found'); [|by cbn in Hchan].
    io_step Hchan as items Hitems. io_step Hchan as c Hc.
    do 7 io_skip Hchan. injection Hchan as ->.
    by exists search_response, channel_id, channel_response, items, channel, details,
              playlists, uploads, playlist_response.
  - destruct e.
    + do 4 io_skip H. by injection H.
    + do 2 io_skip H. by injection H.
    + do 2 io_skip H. by injection H.
    + do 2 io_skip H. by injection H.
    + do 2 io_skip H. by injection H.
Qed.

(** The handler for [HttpError]: it parses the body before it logs. *)
Lemma youtube_http_error key status content text :
  build env key = None →
  search_list env key = inl (HttpError status content text) →
  (test_youtube_api env key).2
  = match loads env content with
    | inl e => inl e
    | inr error_details =>
        match get error_details "error" (JObj []) with
        | inl e => inl e
        | inr error =>
            match get error "message" (JStr text) with
            | inl e => inl e
            | inr _ => inr false
            end
        end
    end.
Proof.
  intros Hbuild Hsearch. unfold test_youtube_api. rewrite Hbuild, Hsearch. cbn.
  destruct (loads env content) as [e|error_details]; [done|]. cbn.
  destruct (get error_details "error" (JObj [])) as [e|error]; [done|]. cbn.
  destruct (get error "message" (JStr text)) as [e|message]; [done|]. cbn.
  by destruct (bool_decide (status = 403%Z)).
Qed.

(** A search without results. *)
Lemma youtube_no_results key search_response found :
  build env key = None →
  search_list env key = inr search_response →
  get search_response "items" JNull = inr found →
  truthy found = false →
  test_youtube_api env key
  = ([ (INFO, nl ++ "🔍 Testing YouTube API...");
       (INFO, "  → Testing search endpoint...");
       (WARNING, "  ⚠ Search returned no results (unusual)");
       (INFO, "  → Testing channels endpoint...");
       (INFO, "  → Testing playlistItems endpoint...");
       (ERROR, nl ++ "❌ YouTube API: UNEXPECTED ERROR");
       (ERROR, "   " ++ str_exn unbound_channel) ],
     inr false).
Proof.
  intros Hbuild Hsearch Hfound Hfalse. unfold test_youtube_api.
  rewrite Hbuild, Hsearch. cbn -[get truthy]. rewrite Hfound. cbn -[get truthy].
  rewrite Hfalse. reflexivity.
Qed.

End YouTube.

(** ** The chat completion tests *)

Section Chat.

Import TestApis.

Variable env : services.

Local Ltac io_skip H :=
  let a := fresh "a" in
  let Ha := fresh "Ha" in
  apply bind_inr in H as (a & Ha & H); cbn beta in H; clear Ha; try clear a.

Local Tactic Notation "io_step" hyp(H) "as" simple_intropattern(a) simple_intropattern(Ha) :=
  apply bind_inr in H as (a & Ha & H); cbn beta in H.

Lemma log_then {A} l msg (m : io A) : (log l msg ≫= fun _ => m).2 = m.2.
Proof. rewrite bind_log_first. done. Qed.

Lemma chat_never_raises banner name url model key :
  ∃ b, (test_chat_api env banner name url model key).2 = inr b.
Proof.
  unfold test_chat_api. rewrite log_then. apply attempt_total.
  intros e. exists false. by destruct e.
Qed.

Lemma chat_passes banner name url model key :
  (test_chat_api env banner name url model key).2 = inr true →
  ∃ reply result choices choice message content usage,
    post env url key model = inr reply
    ∧ status_code reply = 200%Z
    ∧ json_body reply = inr result
    ∧ subscript result "choices" = inr choices
    ∧ first choices = inr choice
    ∧ subscript choice "message" = inr message
    ∧ subscript message "content" = inr content
    ∧ get result "usage" (JObj []) = inr (JObj usage).
Proof.
  unfold test_chat_api. rewrite log_then. intros H.
  apply attempt_inr in H as [H|(e & _ & H)]; [|by destruct e].
  io_skip H. io_step H as reply Hreply.
  case_bool_decide as Hstatus; [|do 2 io_skip H; by injection H].
  io_step H as result Hresult. io_step H as choices Hchoices.
  io_step H as choice Hchoice. io_step H as message Hmessage.
  io_step H as content Hcontent. do 4 io_skip H.
  io_step H as usage Husage. io_step H as tokens Htokens. clear H.
  destruct usage as [| | | | |usage]; try done.
  by exists reply, result, choices, choice, message, content, usage.
Qed.

End Chat.

(** ** Language detection *)

Section Language.

Import TestApis.

Variable env : services.

(** The loop over the sample texts returns exactly when [detect] gives a
    string for each of them. *)
Lemma each_text (texts : list (string * string)) :
  (∃ u, (each texts (fun '(expected_lang, sample) =>
           lift (detect env sample) ≫= fun detected =>
           lift (detected_as expected_lang detected) ≫= fun same : bool =>
           if same
           then log INFO ("  ✓ Detected '" ++ expected_lang ++ "' correctly")
           else log WARNING ("  ⚠ Expected '" ++ expected_lang ++ "', got '"
                             ++ str env detected ++ "'"))).2 = inr u)
  ↔ ∀ lang sample, (lang, sample) ∈ texts → ∃ s, detect env sample = inr (JStr s).
Proof.
  induction texts as [|[lang sample] texts IH]; cbn [each].
  - split; [intros _ ?? []%elem_of_nil|]. intros _. by exists tt.
  - split.
    + intros [u (u1 & H1 & H)%bind_inr]. cbn beta in H.
      apply bind_inr in H1 as (detected & Hd & H1). cbn beta in H1.
      apply bind_inr in H1 as (same & Hs & _).
      destruct detected as [| | |s| |]; try done.
      intros lang' sample' [[= -> ->]|Hin]%elem_of_cons; [by exists s|].
      eapply (proj1 IH); [by exists u|done].
    + intros Hall. destruct (Hall lang sample) as [s Hs]; [left|].
      destruct (proj2 IH) as [u Hu]; [intros l0 s0 Hin; apply (Hall l0 s0); by right|].
      exists u. apply bind_inr. exists tt. split; [|done].
      rewrite Hs. cbn. by destruct (_ || _).
Qed.

Lemma language_never_raises : ∃ b, (test_language_detection env).2 = inr b.
Proof.
  unfold test_language_detection. rewrite log_then. apply attempt_total.
  intros e. exists false. by destruct e.
Qed.

Lemma language_passes :
  (test_language_detection env).2 = inr true ↔
  import_langdetect env = None
  ∧ ∀ lang sample, (lang, sample) ∈ test_texts → ∃ s, detect env sample = inr (JStr s).
Proof.
  unfold test_language_detection. rewrite log_then. split.
  - intros [H|(e & _ & H)]%attempt_inr; [|by destruct e].
    apply bind_inr in H as ([] & Himport & H). cbn beta in H.
    apply bind_inr in H as ([] & Hloop & _). split.
    + by destruct (import_langdetect env).
    + apply each_text. by exists tt.
  - intros [Himport Hall]. apply attempt_inr. left. rewrite Himport.
    apply each_text in Hall as [[] Hloop].
    apply bind_inr. exists tt. split; [done|]. cbn beta.
    apply bind_inr. exists tt. by split.
Qed.

End Language.

(** ** [main] of the connectivity tests *)

Section TestMain.

Import TestApis TestPlan.

Variable env : services.

Lemma bind_assoc_io {A B C} (m : io A) (k : A → io B) (k' : B → io C) :
  ((m ≫= k) ≫= k') = (m ≫= fun a => k a ≫= k').
Proof.
  unfold mbind, io_bind, and_then. destruct m as [l [e|a]]; [done|].
  destruct (k a) as [l1 [e|b]]; [done|]. destruct (k' b) as [l2 r].
  by rewrite app_assoc.
Qed.

Lemma and_then_snd {A B} (m : io A) (k : A → io B) :
  (and_then m k).2 = match m.2 with
                     | inl e => inl e
                     | inr a => (k a).2
                     end.
Proof.
  unfold and_then. destruct m as [l [e|a]]; cbn; [done|]. by destruct (k a).
Qed.

Lemma bind_snd {A B} (m : io A) (k : A → io B) :
  (m ≫= k).2 = match m.2 with
               | inl e => inl e
               | inr a => (k a).2
               end.
Proof. apply and_then_snd. Qed.

Lemma each_summary (results : list (string * bool)) :
  (each results (fun '(service, passed) =>
     log INFO (upper service ++ ": " ++ if passed : bool then "✅ PASS" else "❌ FAIL"))).2
  = inr tt.
Proof.
  induction results as [|[service passed] results IH]; [done|].
  cbn [each]. by rewrite and_then_snd.
Qed.

(** The last stage of [main]: language detection and the summary. *)
Lemma summary_outcome (results : list (string * bool)) :
  (test_language_detection env ≫= fun passed =>
   let results := (results ++ [("language_detection", passed)])%list in
   log INFO (nl ++ rule) ≫= fun _ =>
   log INFO "TEST SUMMARY" ≫= fun _ =>
   log INFO rule ≫= fun _ =>
   each results (fun '(service, passed) =>
     log INFO (upper service ++ ": "
               ++ if passed : bool then "✅ PASS" else "❌ FAIL")) ≫= fun _ =>
   if forallb snd results
   then log INFO (nl ++ "🎉 All tests passed! System is ready to use.") ≫= fun _ =>
        TestApis.pure 0%Z
   else log INFO (nl ++ "⚠️  Some tests failed. Please check errors above.") ≫= fun _ =>
        TestApis.pure 1%Z).2
  = match (test_language_detection env).2 with
    | inl e => inl e
    | inr passed => inr (if forallb snd results && passed then 0%Z else 1%Z)
    end.
Proof.
  rewrite bind_snd.
  destruct (test_language_detection env).2 as [e|passed]; [done|]. cbn zeta.
  rewrite !bind_snd. cbn [log snd]. rewrite each_summary.
  rewrite forallb_app. cbn [forallb snd]. rewrite andb_true_r.
  by destruct (forallb snd results && passed).
Qed.

Lemma skip_io {B} (a : bool) msg (x : B) :
  ((if a then log WARNING msg else TestApis.pure tt) ≫= fun _ => TestApis.pure x)
  = ((if a then [(WARNING, msg)] else []), inr x).
Proof. by destruct a. Qed.

Local Ltac finish :=
  rewrite summary_outcome;
  destruct (test_language_detection env).2 as [?|?]; [done|];
  cbn [forallb app snd id];
  repeat (match goal with x : bool |- _ => destruct x end); done.

Local Ltac tested t :=
  rewrite bind_assoc_io, bind_snd; destruct t as [?|?]; [done|]; rewrite bind_pure; finish.

Local Ltac skipped := rewrite skip_io, bind_snd; cbn [snd]; finish.

(** The outcome of [main], from the answers of the tests it selects. *)
Lemma main_outcome args :
  (main env args).2
  = match verdicts (selected env args) with
    | inl e => inl e
    | inr answers => inr (if forallb id answers then 0%Z else 1%Z)
    end.
Proof.
  unfold main, selected.
  destruct (given (youtube_key args)) as [ykey|].
  - rewrite bind_assoc_io, bind_snd. cbn [app verdicts].
    destruct (test_youtube_api env ykey).2 as [e|yt]; [done|]. rewrite bind_pure.
    destruct (ai_provider args) as [[]|], (given (ai_key args)) as [akey|];
      cbn [app verdicts].
    + tested (test_deepseek_api env akey).2.
    + skipped.
    + tested (test_zhipu_api env akey).2.
    + skipped.
    + skipped.
    + skipped.
  - rewrite skip_io, bind_snd. cbn [snd app verdicts].
    destruct (ai_provider args) as [[]|], (given (ai_key args)) as [akey|];
      cbn [app verdicts].
    + tested (test_deepseek_api env akey).2.
    + skipped.
    + tested (test_zhipu_api env akey).2.
    + skipped.
    + skipped.
    + skipped.
Qed.

Lemma quieter_refl {A} (m : io A) : quieter m m.
Proof. done. Qed.

Lemma quieter_bind {A B} (m1 m2 : io A) (k1 k2 : A → io B) :
  quieter m1 m2 → (∀ a, quieter (k1 a) (k2 a)) → quieter (m1 ≫= k1) (m2 ≫= k2).
Proof.
  intros [Hr Hl] Hk. unfold quieter. rewrite !bind_snd, !bind_log, <- Hr. split.
  - destruct m1.2 as [e|a]; [done|]. apply Hk.
  - apply sublist_app; [done|]. destruct m1.2 as [e|a]; [done|]. apply Hk.
Qed.

Lemma quieter_skip l msg : quieter (TestApis.pure tt) (log l msg).
Proof. split; [done|]. apply sublist_nil_l. Qed.

(** [--all] adds the two warnings and nothing else. *)
Lemma main_quieter yt provider ai :
  quieter (main env (Cli yt provider ai false)) (main env (Cli yt provider ai true)).
Proof.
  unfold main. cbn [youtube_key ai_provider ai_key all]. apply quieter_bind.
  - destruct (given yt); [apply quieter_refl|].
    apply quieter_bind; [apply quieter_skip|intros; apply quieter_refl].
  - intros results. apply quieter_bind; [|intros; apply quieter_refl].
    destruct provider as [[]|], (given ai);
      first [apply quieter_refl
            |apply quieter_bind; [apply quieter_skip|intros; apply quieter_refl]].
Qed.

End TestMain.

(** ** What the connectivity tests report *)



(** A channel as the lookup requests it fails the test; with the part
    the script reads next it passes. *)
Example requested_parts_fail :
  (TestApis.test_youtube_api
     (Samples.answering Samples.channel_as_requested (Samples.chat_reply [])) "key").2
  = inr false
  ∧ (TestApis.test_youtube_api Samples.healthy "key").2 = inr true.
Proof. split; reflexivity. Qed.

(** X13. A search that finds nothing fails the YouTube test.  The
    warning about the empty result is logged, no channel is looked up,
    and reading [channel] for the playlist raises [UnboundLocalError],
    which the last handler reports as an unexpected error; the answer is
    [False]. *)
Theorem youtube_test_fails_without_results (env : TestApis.services) (key : string)
    (search_response found : TestApis.json) :
  TestApis.build env key = None →
  TestApis.search_list env key = inr search_response →
  TestApis.get search_response "items" TestApis.JNull = inr found →
  TestApis.truthy found = false →
  TestApis.test_youtube_api env key
  = ([ (INFO, nl ++ "🔍 Testing YouTube API...");
       (INFO, "  → Testing search endpoint...");
       (WARNING, "  ⚠ Search returned no results (unusual)");
       (INFO, "  → Testing channels endpoint...");
       (INFO, "  → Testing playlistItems endpoint...");
       (ERROR, nl ++ "❌ YouTube API: UNEXPECTED ERROR");
       (ERROR, "   " ++ TestApis.str_exn TestApis.unbound_channel) ],
     inr false).
Proof. apply youtube_no_results. Qed.

Lemma youtube_test_fails_without_results_witness :
  TestApis.test_youtube_api Samples.no_channel "key"
  = ([ (INFO, nl ++ "🔍 Testing YouTube API...");
       (INFO, "  → Testing search endpoint...");
       (WARNING, "  ⚠ Search returned no results (unusual)");
       (INFO, "  → Testing channels endpoint...");
       (INFO, "  → Testing playlistItems endpoint...");
       (ERROR, nl ++ "❌ YouTube API: UNEXPECTED ERROR");
       (ERROR, "   " ++ TestApis.str_exn TestApis.unbound_channel) ],
     inr false).
Proof.
  apply (youtube_test_fails_without_results Samples.no_channel "key"
           (TestApis.JObj [("items", TestApis.JArr [])]) (TestApis.JArr []));
    reflexivity.
Defined.

(** X14. The handler for [HttpError] parses the body of the error before
    it logs anything, so an error it cannot read leaves the function: when
    the search fails with an [HttpError], [test_youtube_api] raises what
    [json.loads] or the two [get] calls raise, and answers [False]
    otherwise.  [main] does not catch it: the run ends with that
    exception, without a summary. *)
Theorem youtube_http_error_can_escape (env : TestApis.services) (key : string)
    (status : Z) (content text : string) :
  TestApis.build env key = None →
  TestApis.search_list env key = inl (TestApis.HttpError status content text) →
  (TestApis.test_youtube_api env key).2
  = match TestApis.loads env content with
    | inl e => inl e
    | inr error_details =>
        match TestApis.get error_details "error" (TestApis.JObj []) with
        | inl e => inl e
        | inr error =>
            match TestApis.get error "message" (TestApis.JStr text) with
            | inl e => inl e
            | inr _ => inr false
            end
        end
    end
  ∧ (∀ e args, TestApis.loads env content = inl e →
               TestApis.given (TestApis.youtube_key args) = Some key →
               (TestApis.main env args).2 = inl e).
Proof.
  intros Hbuild Hsearch.
  pose proof (youtube_http_error env key status content text Hbuild Hsearch) as Hyt.
  split; [done|]. intros e args Hloads Hkey. rewrite main_outcome.
  unfold TestPlan.selected. rewrite Hkey. cbn [app TestPlan.verdicts].
  by rewrite Hyt, Hloads.
Qed.

Lemma youtube_http_error_can_escape_witness :
  (TestApis.test_youtube_api Samples.gateway_down "key").2
  = match TestApis.loads Samples.gateway_down "<html>Bad Gateway</html>" with
    | inl e => inl e
    | inr error_details =>
        match TestApis.get error_details "error" (TestApis.JObj []) with
        | inl e => inl e
        | inr error =>
            match TestApis.get error "message" (TestApis.JStr "HttpError 502") with
            | inl e => inl e
            | inr _ => inr false
            end
        end
    end
  ∧ (∀ e args, TestApis.loads Samples.gateway_down "<html>Bad Gateway</html>" = inl e →
               TestApis.given (TestApis.youtube_key args) = Some "key" →
               (TestApis.main Samples.gateway_down args).2 = inl e).
Proof.
  apply (youtube_http_error_can_escape Samples.gateway_down "key" 502); reflexivity.
Defined.

Example gateway_down_raises :
  (TestApis.main Samples.gateway_down
     (TestApis.Cli (Some "key") None None false)).2
  = inl (TestApis.OtherException "JSONDecodeError"
           "Expecting value: line 1 column 1 (char 0)").
Proof. reflexivity. Qed.

(** X15. [test_deepseek_api] and [test_zhipu_api] never raise: whatever
    the service does, they answer [True] or [False].  They answer [True]
    only for a reply with status 200 whose body has
    [choices[0].message.content] and whose [usage], when there is one, is
    an object. *)
Theorem chat_tests_never_raise (env : TestApis.services) (key : string) :
  (∃ passed, (TestApis.test_deepseek_api env key).2 = inr passed)
  ∧ (∃ passed, (TestApis.test_zhipu_api env key).2 = inr passed)
  ∧ (∀ test url model,
       (test = TestApis.test_deepseek_api env
        ∧ url = "https://api.deepseek.com/v1/chat/completions"
        ∧ model = "deepseek-chat")
       ∨ (test = TestApis.test_zhipu_api env
          ∧ url = "https://open.bigmodel.cn/api/paas/v4/chat/completions"
          ∧ model = "glm-4") →
       (test key).2 = inr true →
       ∃ reply result choices choice message content usage,
         TestApis.post env url key model = inr reply
         ∧ TestApis.status_code reply = 200%Z
         ∧ TestApis.json_body reply = inr result
         ∧ TestApis.subscript result "choices" = inr choices
         ∧ TestApis.first choices = inr choice
         ∧ TestApis.subscript choice "message" = inr message
         ∧ TestApis.subscript message "content" = inr content
         ∧ TestApis.get result "usage" (TestApis.JObj []) = inr (TestApis.JObj usage)).
Proof.
  split_and!.
  - exact (chat_never_raises env "Deepseek AI" "Deepseek"
             "https://api.deepseek.com/v1/chat/completions" "deepseek-chat" key).
  - exact (chat_never_raises env "Zhipu AI" "Zhipu AI"
             "https://open.bigmodel.cn/api/paas/v4/chat/completions" "glm-4" key).
  - intros test url model [(-> & -> & ->)|(-> & -> & ->)].
    + exact (chat_passes env "Deepseek AI" "Deepseek"
               "https://api.deepseek.com/v1/chat/completions" "deepseek-chat" key).
    + exact (chat_passes env "Zhipu AI" "Zhipu AI"
               "https://open.bigmodel.cn/api/paas/v4/chat/completions" "glm-4" key).
Qed.

Lemma chat_tests_never_raise_witness :
  ∃ reply result choices choice message content usage,
    TestApis.post Samples.healthy "https://api.deepseek.com/v1/chat/completions"
      "key" "deepseek-chat" = inr reply
    ∧ TestApis.status_code reply = 200%Z
    ∧ TestApis.json_body reply = inr result
    ∧ TestApis.subscript result "choices" = inr choices
    ∧ TestApis.first choices = inr choice
    ∧ TestApis.subscript choice "message" = inr message
    ∧ TestApis.subscript message "content" = inr content
    ∧ TestApis.get result "usage" (TestApis.JObj []) = inr (TestApis.JObj usage).
Proof.
  apply (proj2 (proj2 (chat_tests_never_raise Samples.healthy "key"))
           (TestApis.test_deepseek_api Samples.healthy)).
  - left. split_and!; reflexivity.
  - reflexivity.
Defined.

(** A reply whose [usage] is [null] fails the test, although the
    completion is there. *)
Example null_usage_fails :
  (TestApis.test_deepseek_api
     (Samples.answering Samples.channel_with_uploads
        (Samples.chat_reply [("usage", TestApis.JNull)])) "key").2
  = inr false.
Proof. reflexivity. Qed.

(** X16. [test_language_detection] never raises, and it answers [True]
    exactly when [langdetect] can be imported and [detect] returns a
    string for each of the four texts -- whichever language the string
    names: a wrong detection is a warning, not a failure. *)
Theorem language_detection_passes_iff (env : TestApis.services) :
  (∃ passed, (TestApis.test_language_detection env).2 = inr passed)
  ∧ ((TestApis.test_language_detection env).2 = inr true ↔
     TestApis.import_langdetect env = None
     ∧ ∀ lang sample, (lang, sample) ∈ TestApis.test_texts →
         ∃ s, TestApis.detect env sample = inr (TestApis.JStr s)).
Proof. split; [apply language_never_raises|apply language_passes]. Qed.

(** Services that take every text for [xx] pass. *)
Lemma language_detection_passes_iff_witness :
  (TestApis.test_language_detection Samples.healthy).2 = inr true.
Proof.
  apply (proj2 (proj2 (language_detection_passes_iff Samples.healthy))).
  split; [reflexivity|]. intros lang sample _. by exists "xx".
Defined.

(** X17. [main] runs the tests the command line selects, in the order
    YouTube, AI, language detection, the last one always.  A test that
    raises ends the run with its exception; otherwise the exit status is 0
    when every test that ran answered [True], and 1 when one did not. *)
Theorem test_main_exit_status (env : TestApis.services) (args : TestApis.cli) :
  (TestApis.main env args).2
  = match TestPlan.verdicts (TestPlan.selected env args) with
    | inl e => inl e
    | inr answers => inr (if forallb id answers then 0%Z else 1%Z)
    end.
Proof. apply main_outcome. Qed.

(** Without keys the run passes on language detection alone. *)
Example no_keys_all_passed :
  (TestApis.main Samples.gateway_down (TestApis.Cli None None None false)).2 = inr 0%Z
  ∧ (TestApis.main Samples.gateway_down
       (TestApis.Cli (Some "") (Some TestApis.Deepseek) None true)).2 = inr 0%Z.
Proof. split; reflexivity. Qed.

(** X18. [--all] selects nothing: with and without it [main] ends the
    same way, and every record logged without it is logged with it, in
    the same order. *)
Theorem all_flag_only_warns (env : TestApis.services)
    (yt : option string) (provider : option TestApis.provider) (ai : option string) :
  (TestApis.main env (TestApis.Cli yt provider ai false)).2
  = (TestApis.main env (TestApis.Cli yt provider ai true)).2
  ∧ (TestApis.main env (TestApis.Cli yt provider ai false)).1
    `sublist_of` (TestApis.main env (TestApis.Cli yt provider ai true)).1.
Proof. apply main_quieter. Qed.
